(** * The Bloom filter and the prefix tree of the "Bloom filter for quick
      lookups" article

    A shallow embedding of the TypeScript class [BloomFilter] (constructor,
    [getSize], [getHashCount], [add], [check], [murmurhash3_32_gc]) with the
    properties its description states, and of the classes [TrieNode] and
    [Trie] ([insert], [search], [startsWith], [getWordsWithPrefix]) of the
    same article.

    JavaScript numbers are IEEE 754 binary64 values: they are modelled by
    Rocq's primitive [float]s, whose operations are specified by
    [SpecFloat].  Numbers that the program only ever uses as exact integers
    (the loop counter, the hash, code units) are modelled in [Z], with the
    32-bit conversions of the bit operators written out. *)

From Stdlib Require Import ZArith Lia List Ascii String Floats.
From stdpp Require Import gmap sorting.
From Stdlib Require Reals Lra.

Local Open Scope Z_scope.

(** ** 32-bit integer operators of JavaScript *)

Module JS.

(** [ToInt32] and [ToUint32] of an integral number. *)
Definition ToInt32 (x : Z) : Z := (x + 2 ^ 31) mod 2 ^ 32 - 2 ^ 31.
Definition ToUint32 (x : Z) : Z := x mod 2 ^ 32.

(** [x & y], [x | y], [x ^ y]: both operands through [ToInt32]. *)
Definition and (x y : Z) : Z := Z.land (ToInt32 x) (ToInt32 y).
Definition or (x y : Z) : Z := Z.lor (ToInt32 x) (ToInt32 y).
Definition xor (x y : Z) : Z := Z.lxor (ToInt32 x) (ToInt32 y).

(** [x << n]: the shift count is taken modulo 32, the result is an int32. *)
Definition shl (x n : Z) : Z := ToInt32 (Z.shiftl (ToInt32 x) (ToUint32 n mod 32)).

(** [x >>> n]: the operand through [ToUint32], the result is a uint32. *)
Definition shru (x n : Z) : Z := Z.shiftr (ToUint32 x) (ToUint32 n mod 32).

(** A string is its sequence of UTF-16 code units. *)
Definition jsstring := list Z.

Definition length (key : jsstring) : Z := Z.of_nat (List.length key).

(** [key.charCodeAt(i)]: the code unit at [i], [NaN] ([None]) outside the
    string. *)
Definition charCodeAt (key : jsstring) (i : Z) : option Z :=
  if (0 <=? i) && (i <? length key) then nth_error key (Z.to_nat i) else None.

(** [c & mask] for the result of [charCodeAt]; [ToInt32 NaN] is [0]. *)
Definition and_code (c : option Z) (mask : Z) : Z :=
  match c with
  | Some c => and c mask
  | None => and 0 mask
  end.

(** The code units of an ASCII text. *)
Fixpoint of_string (s : string) : jsstring :=
  match s with
  | EmptyString => nil
  | String a s' => Z.of_nat (nat_of_ascii a) :: of_string s'
  end.

End JS.

(** The operators bind as in JavaScript: shifts looser than [+], then [&],
    [^] and [|]. *)
Notation "x .<< n" := (JS.shl x n) (at level 51, left associativity).
Notation "x .>>> n" := (JS.shru x n) (at level 51, left associativity).
Notation "x .& y" := (JS.and x y) (at level 52, left associativity).
Notation "x .^ y" := (JS.xor x y) (at level 53, left associativity).
Notation "x .| y" := (JS.or x y) (at level 54, left associativity).

(** ** [murmurhash3_32_gc] *)

Section Murmur.

Variable key : JS.jsstring.

Definition c1 : Z := 0xcc9e2d51.
Definition c2 : Z := 0x1b873593.

(** The three lines that scramble a block [k1]. *)
Definition mix_k1 (k1 : Z) : Z :=
  let k1 := (((k1 .& 0xffff) * c1) + ((((k1 .>>> 16) * c1) .& 0xffff) .<< 16)) .& 0xffffffff in
  let k1 := (k1 .<< 15) .| (k1 .>>> 17) in
  (((k1 .& 0xffff) * c2) + ((((k1 .>>> 16) * c2) .& 0xffff) .<< 16)) .& 0xffffffff.

(** The body of [while (i < bytes)]: one 4-unit block. *)
Definition block_step (i h1 : Z) : Z * Z :=
  let k1 :=
    (JS.and_code (JS.charCodeAt key i) 0xff) .|
    ((JS.and_code (JS.charCodeAt key (i + 1)) 0xff) .<< 8) .|
    ((JS.and_code (JS.charCodeAt key (i + 2)) 0xff) .<< 16) .|
    ((JS.and_code (JS.charCodeAt key (i + 3)) 0xff) .<< 24) in
  let i := i + 4 in
  let k1 := mix_k1 k1 in
  let h1 := h1 .^ k1 in
  let h1 := (h1 .<< 13) .| (h1 .>>> 19) in
  let h1b := (((h1 .& 0xffff) * 5) + ((((h1 .>>> 16) * 5) .& 0xffff) .<< 16)) .& 0xffffffff in
  let h1 := ((h1b .& 0xffff) + 0x6b64) + ((((h1b .>>> 16) + 0xe654) .& 0xffff) .<< 16) in
  (i, h1).

(** [while (i < bytes) { ... }]; every turn advances [i] by 4, so
    [bytes] turns are always enough. *)
Fixpoint blocks (turns : nat) (bytes i h1 : Z) : Z * Z :=
  match turns with
  | O => (i, h1)
  | S turns' =>
      if i <? bytes
      then let '(i', h1') := block_step i h1 in blocks turns' bytes i' h1'
      else (i, h1)
  end.

(** [switch (remainder)] with its fall-through from [case 3] to [case 1]. *)
Definition tail (remainder i h1 : Z) : Z :=
  let k1 := 0 in
  let k1 := if remainder =? 3
            then k1 .^ ((JS.and_code (JS.charCodeAt key (i + 2)) 0xff) .<< 16) else k1 in
  let k1 := if (remainder =? 3) || (remainder =? 2)
            then k1 .^ ((JS.and_code (JS.charCodeAt key (i + 1)) 0xff) .<< 8) else k1 in
  if (remainder =? 3) || (remainder =? 2) || (remainder =? 1)
  then
    let k1 := k1 .^ (JS.and_code (JS.charCodeAt key i) 0xff) in
    let k1 := mix_k1 k1 in
    h1 .^ k1
  else h1.

(** The finalisation after the [switch]. *)
Definition fmix (h1 : Z) : Z :=
  let h1 := h1 .^ JS.length key in
  let h1 := h1 .^ (h1 .>>> 16) in
  let h1 := (((h1 .& 0xffff) * 0x85ebca6b) + ((((h1 .>>> 16) * 0x85ebca6b) .& 0xffff) .<< 16)) .& 0xffffffff in
  let h1 := h1 .^ (h1 .>>> 13) in
  let h1 := (((h1 .& 0xffff) * 0xc2b2ae35) + ((((h1 .>>> 16) * 0xc2b2ae35) .& 0xffff) .<< 16)) .& 0xffffffff in
  let h1 := h1 .^ (h1 .>>> 16) in
  h1 .>>> 0.

Definition murmurhash3_32_gc (seed : Z) : Z :=
  let remainder := JS.length key .& 3 in
  let bytes := JS.length key - remainder in
  let h1 := seed in
  let i := 0 in
  let '(i, h1) := blocks (List.length key) bytes i h1 in
  let h1 := tail remainder i h1 in
  fmix h1.

End Murmur.

(** ** Numbers

    A [number] is a binary64 float.  The functions below read a float
    through [Prim2SF], its sign, mantissa and exponent. *)

Definition number := float.
Bind Scope float_scope with number.

Module Number.

(** The integer a float denotes, when it is finite and integral
    ([-0] and [+0] both denote [0]). *)
Definition SFinteger (x : spec_float) : option Z :=
  match x with
  | S754_zero _ => Some 0
  | S754_finite s m e =>
      if 0 <=? e then Some (cond_Zopp s (Zpos m * 2 ^ e))
      else if Zpos m mod 2 ^ (- e) =? 0
           then Some (cond_Zopp s (Zpos m / 2 ^ (- e)))
           else None
  | _ => None
  end.

Definition integer (x : number) : option Z := SFinteger (Prim2SF x).

(** [i < h] for an integer [i] that a float holds exactly: the
    comparison of the two values, false when [h] is [NaN]. *)
Definition SFZlt (i : Z) (h : spec_float) : bool :=
  match h with
  | S754_nan => false
  | S754_infinity s => negb s
  | S754_zero _ => i <? 0
  | S754_finite s m e =>
      if 0 <=? e then i <? cond_Zopp s (Zpos m * 2 ^ e)
      else i * 2 ^ (- e) <? cond_Zopp s (Zpos m)
  end.

Definition Zlt (i : Z) (h : number) : bool := SFZlt i (Prim2SF h).

(** [Math.ceil]: the least integral float not below [x]; [NaN], the
    infinities and the zeros are returned as they are, and a negative
    value above [-1] gives [-0]. *)
Definition SFceil (x : spec_float) : spec_float :=
  match x with
  | S754_finite s m e =>
      if 0 <=? e then x
      else
        let q := if s then - (Zpos m / 2 ^ (- e))
                 else (Zpos m + 2 ^ (- e) - 1) / 2 ^ (- e) in
        binary_normalize prec emax q 0 s
  | _ => x
  end.

Definition Math_ceil (x : number) : number := SF2Prim (SFceil (Prim2SF x)).

End Number.

(** ** Property keys and the remainder operator *)

(** The value of [hash % this.size], used as a property key of the array:
    [NaN], a non-negative integer, or a non-integral dyadic value
    [m * 2 ^ e] with [m] odd and [e < 0]. *)
Inductive PropertyKey :=
  | KNaN
  | KInt (z : Z)
  | KFrac (m : positive) (e : Z).

#[global] Instance PropertyKey_eq_dec : EqDecision PropertyKey.
Proof. solve_decision. Defined.

#[global] Instance PropertyKey_countable : Countable PropertyKey.
Proof.
  apply (inj_countable'
    (fun k => match k with
              | KNaN => inl tt
              | KInt z => inr (inl z)
              | KFrac m e => inr (inr (m, e))
              end)
    (fun s => match s with
              | inl _ => KNaN
              | inr (inl z) => KInt z
              | inr (inr (m, e)) => KFrac m e
              end)).
  intros []; reflexivity.
Defined.

Module Rem.

(** The key of the dyadic value [p * 2 ^ e]. *)
Fixpoint dyadic (p : positive) (e : Z) : PropertyKey :=
  if 0 <=? e then KInt (Zpos p * 2 ^ e)
  else match p with
       | xO p' => dyadic p' (e + 1)
       | _ => KFrac p e
       end.

(** [h % m] for an integral [h >= 0]: [NaN] when [m] is [NaN] or a zero,
    [h] when [m] is infinite, and the exact remainder of the truncating
    division otherwise. *)
Definition SFrem (h : Z) (m : spec_float) : PropertyKey :=
  match m with
  | S754_nan | S754_zero _ => KNaN
  | S754_infinity _ => KInt h
  | S754_finite _ m e =>
      if 0 <=? e then KInt (Z.rem h (Zpos m * 2 ^ e))
      else match Z.rem (h * 2 ^ (- e)) (Zpos m) with
           | Zpos r => dyadic r e
           | _ => KInt 0
           end
  end.

Definition rem (h : Z) (m : number) : PropertyKey := SFrem h (Prim2SF m).

End Rem.

(** ** Arrays

    An array object is its [length] and its properties.  All the values
    this program stores are numbers held exactly in [Z]; a missing
    property reads as [undefined] ([None]). *)

Module Array.

Record t := { length : Z; props : gmap PropertyKey Z }.

Inductive Error := RangeError.

(** [new Array(len)]: an array of [len] holes; a [RangeError] unless
    [len] is an integer in [[0, 2^32 - 1]]. *)
Definition new (len : number) : Error + t :=
  match Number.integer len with
  | Some z =>
      if (0 <=? z) && (z <=? 2 ^ 32 - 1)
      then inr {| length := z; props := ∅ |}
      else inl RangeError
  | None => inl RangeError
  end.

(** [a.fill(v)]: every index below [length] is set to [v]. *)
Definition fill (a : t) (v : Z) : t :=
  {| length := length a;
     props := foldr (fun i m => <[KInt i := v]> m) (props a) (seqZ 0 (length a)) |}.

(** [a[k]]. *)
Definition get (a : t) (k : PropertyKey) : option Z := props a !! k.

(** [a[k] = v]: the property is set; writing an array index (an integer
    in [[0, 2^32 - 2]]) at or past [length] extends the array. *)
Definition set (a : t) (k : PropertyKey) (v : Z) : t :=
  {| length :=
       match k with
       | KInt i =>
           if (0 <=? i) && (i <=? 2 ^ 32 - 2) && (length a <=? i) then i + 1
           else length a
       | _ => length a
       end;
     props := <[k := v]> (props a) |}.

End Array.

(** ** The filter *)

Record BloomFilter := {
  expectedItems : number;
  falsePositiveRate : number;
  size : number;
  hashCount : number;
  bitArray : Array.t
}.

Definition set_bitArray (this : BloomFilter) (a : Array.t) : BloomFilter :=
  {| expectedItems := expectedItems this;
     falsePositiveRate := falsePositiveRate this;
     size := size this;
     hashCount := hashCount this;
     bitArray := a |}.

(** Methods run on [this] and may change it.  A loop is given a number of
    turns; [None] means that the turns ran out before the method
    returned. *)
Definition M (A : Type) : Type := BloomFilter -> option (A * BloomFilter).

Definition ret {A} (a : A) : M A := fun this => Some (a, this).
Definition bind {A B} (m : M A) (k : A -> M B) : M B :=
  fun this => match m this with
              | Some (a, this') => k a this'
              | None => None
              end.
Definition read {A} (field : BloomFilter -> A) : M A := fun this => Some (field this, this).
Definition write_bitArray (k : PropertyKey) (v : Z) : M unit :=
  fun this => Some (tt, set_bitArray this (Array.set (bitArray this) k v)).
Definition out_of_turns {A} : M A := fun _ => None.

Notation "'let*' x := m 'in' k" := (bind m (fun x => k))
  (at level 10, x name, m at level 100, k at level 200).
Notation "m ;; k" := (bind m (fun _ => k))
  (at level 100, k at level 200, right associativity).

(** [i++] on a counter held in a double: exact below [2 ^ 53], where
    [2 ^ 53 + 1] rounds back to [2 ^ 53]. *)
Definition incr (i : Z) : Z := if i <? 2 ^ 53 then i + 1 else i.

(** [for (let i = 0; i < this.hashCount; i++)] of [add], from counter [i]. *)
Fixpoint add_loop (turns : nat) (item : JS.jsstring) (i : Z) : M unit :=
  match turns with
  | O => out_of_turns
  | S turns' =>
      let* k := read hashCount in
      if Number.Zlt i k then
        let* m := read size in
        let hash := Rem.rem (murmurhash3_32_gc item i) m in
        write_bitArray hash 1 ;;
        add_loop turns' item (incr i)
      else ret tt
  end.

Definition add (turns : nat) (item : JS.jsstring) : M unit := add_loop turns item 0.

(** [x === 0] for a value read from the array. *)
Definition is_zero (v : option Z) : bool :=
  match v with
  | Some 0 => true
  | _ => false
  end.

(** The loop of [check], from counter [i]. *)
Fixpoint check_loop (turns : nat) (item : JS.jsstring) (i : Z) : M bool :=
  match turns with
  | O => out_of_turns
  | S turns' =>
      let* k := read hashCount in
      if Number.Zlt i k then
        let* m := read size in
        let hash := Rem.rem (murmurhash3_32_gc item i) m in
        let* a := read bitArray in
        if is_zero (Array.get a hash) then ret false
        else check_loop turns' item (incr i)
      else ret true
  end.

Definition check (turns : nat) (item : JS.jsstring) : M bool := check_loop turns item 0.

(** A sequence of [add] calls, one per item. *)
Fixpoint adds (turns : nat) (items : list JS.jsstring) : M unit :=
  match items with
  | nil => ret tt
  | item :: items' => add turns item ;; adds turns items'
  end.

(** ** Construction

    [Math.log] and the [**] operator are left to the engine by the language
    ("implementation-approximated"); the constructor is modelled over any
    choice of them. *)

Section Engine.

Variable Math_log : number -> number.
Variable Number_exponentiate : number -> number -> number.

Definition getSize (n p : number) : number :=
  let m := (- (n * Math_log p) / Number_exponentiate (Math_log 2) 2)%float in
  Number.Math_ceil m.

Definition getHashCount (m n : number) : number :=
  let k := ((m / n) * Math_log 2)%float in
  Number.Math_ceil k.

(** [new BloomFilter(expectedItems, falsePositiveRate)]: the filter, or
    the error thrown by [new Array]. *)
Definition new (expectedItems falsePositiveRate : number) : Array.Error + BloomFilter :=
  let size := getSize expectedItems falsePositiveRate in
  let hashCount := getHashCount size expectedItems in
  match Array.new size with
  | inl e => inl e
  | inr a =>
      inr {| expectedItems := expectedItems;
             falsePositiveRate := falsePositiveRate;
             size := size;
             hashCount := hashCount;
             bitArray := Array.fill a 0 |}
  end.

(** The arguments the constructor is meant for: [expectedItems] a positive
    count (any number [>= 1], so every positive integer) and
    [falsePositiveRate] in the open interval [(0, 1)]. *)
Definition valid_arguments (n p : number) : Prop :=
  (1 <=? n)%float = true /\ (0 <? p)%float = true /\ (p <? 1)%float = true.

(** What is asked of the engine at [p]: [Math.log(p)] is negative,
    [Math.log(2)] lies in [[0.5, 1)] and its square lies in [(0, 1)]. *)
Definition engine_ok (p : number) : Prop :=
  (Math_log p <? 0)%float = true /\
  (0.5 <=? Math_log 2)%float = true /\
  (Math_log 2 <? 1)%float = true /\
  (0 <? Number_exponentiate (Math_log 2) 2)%float = true /\
  (Number_exponentiate (Math_log 2) 2 <? 1)%float = true.

End Engine.

(** ** A reference engine

    The values a JavaScript engine returns for the logarithms used in the
    examples ([Math.log(2)], [Math.log(0.5)], [Math.log(0.01)]) and for
    squaring. *)

Module Sample.

Definition Math_log (x : number) : number :=
  if (x =? 2)%float then 0x1.62e42fefa39efp-1%float
  else if (x =? 0.5)%float then (-0x1.62e42fefa39efp-1)%float
  else if (x =? 0x1.47ae147ae147bp-7)%float then (-0x1.26bb1bbb55515p+2)%float
  else nan.

Definition Number_exponentiate (x y : number) : number :=
  if (y =? 2)%float then (x * x)%float else nan.

Definition new := new Math_log Number_exponentiate.

(** [new BloomFilter(10, 0.5)]: 15 bits and 2 hashes. *)
Definition fresh : BloomFilter :=
  {| expectedItems := 10;
     falsePositiveRate := 0.5;
     size := 15;
     hashCount := 2;
     bitArray := Array.fill {| Array.length := 15; Array.props := ∅ |} 0 |}.

Definition apple : JS.jsstring := JS.of_string "apple".
Definition banana : JS.jsstring := JS.of_string "banana".

(** The filter after [add("apple")], and after [add("banana")] too. *)
Definition with_apple : BloomFilter :=
  Eval vm_compute in
    match add 3 apple fresh with
    | Some (_, this) => this
    | None => fresh
    end.

Definition with_both : BloomFilter :=
  Eval vm_compute in
    match adds 3 (apple :: banana :: nil) fresh with
    | Some (_, this) => this
    | None => fresh
    end.

(** [new BloomFilter(2^-600, 0.5)]: one bit and more than [2 ^ 53]
    hashes. *)
Definition fractional : BloomFilter :=
  Eval vm_compute in
    match new 0x1p-600 0.5 with
    | inr this => this
    | inl _ => fresh
    end.

(** [new BloomFilter(0, 0.5)]: no bit, and a hash count that is [NaN]. *)
Definition empty : BloomFilter :=
  {| expectedItems := 0;
     falsePositiveRate := 0.5;
     size := 0;
     hashCount := nan;
     bitArray := {| Array.length := 0; Array.props := ∅ |} |}.

(** "apple" with a high byte in every code unit. *)
Definition apple_high : JS.jsstring := map (fun c => c + 0x100) apple.

End Sample.

(** ** MurmurHash3, for reference

    The published algorithm (MurmurHash3, x86, 32 bits) that
    [murmurhash3_32_gc] is said to implement, written over unsigned 32-bit
    words held in [Z]: [data] is the sequence of bytes, a block is four
    bytes read least significant first. *)

Module MurmurHash3.

Definition mul32 (a b : Z) : Z := (a * b) mod 2 ^ 32.

Definition rotl32 (x r : Z) : Z := Z.lor ((x * 2 ^ r) mod 2 ^ 32) (x / 2 ^ (32 - r)).

Definition scramble (k : Z) : Z := mul32 (rotl32 (mul32 k 0xcc9e2d51) 15) 0x1b873593.

Definition round (h k : Z) : Z :=
  let h := Z.lxor h (scramble k) in
  let h := rotl32 h 13 in
  (h * 5 + 0xe6546b64) mod 2 ^ 32.

Definition fmix32 (h : Z) : Z :=
  let h := Z.lxor h (h / 2 ^ 16) in
  let h := mul32 h 0x85ebca6b in
  let h := Z.lxor h (h / 2 ^ 13) in
  let h := mul32 h 0xc2b2ae35 in
  Z.lxor h (h / 2 ^ 16).

(** The blocks, then the tail of one to three bytes. *)
Fixpoint body (data : list Z) (h : Z) : Z :=
  match data with
  | b0 :: b1 :: b2 :: b3 :: rest =>
      body rest (round h (b0 + 2 ^ 8 * b1 + 2 ^ 16 * b2 + 2 ^ 24 * b3))
  | [b0; b1; b2] => Z.lxor h (scramble (b0 + 2 ^ 8 * b1 + 2 ^ 16 * b2))
  | [b0; b1] => Z.lxor h (scramble (b0 + 2 ^ 8 * b1))
  | [b0] => Z.lxor h (scramble b0)
  | [] => h
  end.

Definition hash32 (data : list Z) (seed : Z) : Z :=
  fmix32 (Z.lxor (body data seed) (Z.of_nat (List.length data) mod 2 ^ 32)).

End MurmurHash3.

(** ** Objects used as dictionaries

    [TrieNode.children] is a plain object keyed by strings.  It is
    modelled by its own properties in the order of their creation.  Every
    key this program uses is one character, so that no property of
    [Object.prototype] is ever read through it. *)

Module Object.

Definition t (A : Type) : Type := list (JS.jsstring * A).

(** [o[k]]: [undefined] ([None]) when [o] has no property [k]. *)
Fixpoint get {A} (o : t A) (k : JS.jsstring) : option A :=
  match o with
  | [] => None
  | (k', v) :: o' => if decide (k' = k) then Some v else get o' k
  end.

(** [o[k] = v]: an existing property keeps its place, a new one comes
    last. *)
Fixpoint set {A} (o : t A) (k : JS.jsstring) (v : A) : t A :=
  match o with
  | [] => [(k, v)]
  | (k', v') :: o' => if decide (k' = k) then (k', v) :: o' else (k', v') :: set o' k v
  end.

(** The number a string of decimal digits denotes. *)
Fixpoint decimal (acc : Z) (k : JS.jsstring) : option Z :=
  match k with
  | [] => Some acc
  | c :: k' => if (48 <=? c) && (c <=? 57) then decimal (10 * acc + (c - 48)) k' else None
  end.

(** The array index a key is: the key is the canonical decimal form of an
    integer in [[0, 2^32 - 2]]. *)
Definition array_index (k : JS.jsstring) : option Z :=
  match k with
  | [] => None
  | [48] => Some 0
  | 48 :: _ => None
  | _ => match decimal 0 k with
         | Some n => if n <=? 2 ^ 32 - 2 then Some n else None
         | None => None
         end
  end.

Definition index_le {A} (e1 e2 : JS.jsstring * A) : Prop :=
  default 0 (array_index (fst e1)) <= default 0 (array_index (fst e2)).

#[global] Instance index_le_dec {A} (e1 e2 : JS.jsstring * A) : Decision (index_le e1 e2).
Proof. unfold index_le. apply _. Defined.

(** The properties in the order in which [for (k in o)] visits them: the
    array indices in ascending order, then the other keys in the order of
    their creation. *)
Definition entries {A} (o : t A) : list (JS.jsstring * A) :=
  merge_sort index_le (filter (fun e => is_Some (array_index (fst e))) o) ++
  filter (fun e => ¬ is_Some (array_index (fst e))) o.

End Object.

(** ** The prefix tree

    The classes [TrieNode] and [Trie] of the same article.  A node is
    owned by its parent alone, so the tree that [insert] updates in place
    is modelled by the updated tree. *)

Module Trie.

#[warnings="-register-all"] Inductive TrieNode :=
  Node { children : Object.t TrieNode; isEndOfWord : bool }.

(** [new TrieNode()]. *)
Definition TrieNode_new : TrieNode := {| children := []; isEndOfWord := false |}.

Record t := { root : TrieNode }.

(** [new Trie()]. *)
Definition new : t := {| root := TrieNode_new |}.

(** [for (const char of word)] visits the code points of the string: a
    lead surrogate followed by a trail surrogate is one character of two
    code units, every other code unit is a character by itself. *)
Definition lead (c : Z) : bool := (0xD800 <=? c) && (c <=? 0xDBFF).
Definition trail (c : Z) : bool := (0xDC00 <=? c) && (c <=? 0xDFFF).

Fixpoint chars (word : JS.jsstring) : list JS.jsstring :=
  match word with
  | [] => []
  | c :: rest =>
      match rest with
      | d :: rest' => if lead c && trail d then [c; d] :: chars rest' else [c] :: chars rest
      | [] => [[c]]
      end
  end.

(** The loop of [insert] from [currentNode], over the characters left:
    a missing child is created, and the node reached at the end is
    marked. *)
Fixpoint insert_from (cs : list JS.jsstring) (currentNode : TrieNode) : TrieNode :=
  match cs with
  | [] => {| children := children currentNode; isEndOfWord := true |}
  | char :: cs' =>
      let child := match Object.get (children currentNode) char with
                   | Some child => child
                   | None => TrieNode_new
                   end in
      {| children := Object.set (children currentNode) char (insert_from cs' child);
         isEndOfWord := isEndOfWord currentNode |}
  end.

Definition insert (word : JS.jsstring) (this : t) : t :=
  {| root := insert_from (chars word) (root this) |}.

(** The loop shared by [search], [startsWith] and [getWordsWithPrefix]:
    the node reached along the characters, [None] when the loop returns
    early at a missing child. *)
Fixpoint walk (cs : list JS.jsstring) (currentNode : TrieNode) : option TrieNode :=
  match cs with
  | [] => Some currentNode
  | char :: cs' =>
      match Object.get (children currentNode) char with
      | None => None
      | Some child => walk cs' child
      end
  end.

Definition search (word : JS.jsstring) (this : t) : bool :=
  match walk (chars word) (root this) with
  | None => false
  | Some currentNode => isEndOfWord currentNode
  end.

Definition startsWith (prefix : JS.jsstring) (this : t) : bool :=
  match walk (chars prefix) (root this) with
  | None => false
  | Some _ => true
  end.

(** [dfs(node, path)], as the list of the strings it pushes to [results].
    The calls for the children do not depend on each other: what each
    child pushes is computed first and put in the order of [for ... in]
    afterwards. *)
Fixpoint dfs (node : TrieNode) (path : JS.jsstring) : list JS.jsstring :=
  (if isEndOfWord node then [path] else []) ++
  concat (map snd (Object.entries
    (map (fun e => (fst e, dfs (snd e) (path ++ fst e))) (children node)))).

Definition getWordsWithPrefix (prefix : JS.jsstring) (this : t) : list JS.jsstring :=
  match walk (chars prefix) (root this) with
  | None => []
  | Some currentNode => dfs currentNode prefix
  end.

(** A sequence of [insert] calls, one per word. *)
Definition inserts (words : list JS.jsstring) (this : t) : t :=
  foldl (fun this word => insert word this) this words.

End Trie.

(** ** Notions used in the proofs *)

(** An array index among the keys lies below [length]. *)
Definition covered (a : Array.t) (k : PropertyKey) : Prop :=
  match k with
  | KInt i => 0 <= i <= 2 ^ 32 - 2 -> i < Array.length a
  | _ => True
  end.

(** The bits set by a run of [add]: each key in turn receives [1]. *)
Definition writes (ks : list PropertyKey) (a : Array.t) : Array.t :=
  foldl (fun a k => Array.set a k 1) a ks.

(** The counter values at which a loop bounded by [k] runs its body,
    from counter [i]; [None] when the turns run out first. *)
Fixpoint counters (turns : nat) (i : Z) (k : number) : option (list Z) :=
  match turns with
  | O => None
  | S turns' =>
      if Number.Zlt i k then cons i <$> counters turns' (incr i) k else Some nil
  end.

(** The key computed at counter [c]. *)
Definition key_at (item : JS.jsstring) (m : number) (c : Z) : PropertyKey :=
  Rem.rem (murmurhash3_32_gc item c) m.

(** The magnitude of [m * 2 ^ e]: the least [k] with [m * 2 ^ e < 2 ^ k]. *)
Definition mag (m : positive) (e : Z) : Z := Zpos (digits2_pos m) + e.

(** [x] has sign [s] and is not below magnitude [K]: a finite float of
    magnitude at least [K], or an infinity. *)
Definition SFabove (s : bool) (K : Z) (x : spec_float) : Prop :=
  match x with
  | S754_finite s' m e => s' = s /\ K <= mag m e
  | S754_infinity s' => s' = s
  | _ => False
  end.

(** [x] is finite, has sign [s] and magnitude at most [K]. *)
Definition SFwithin (s : bool) (K : Z) (x : spec_float) : Prop :=
  match x with
  | S754_finite s' m e => s' = s /\ mag m e <= K
  | _ => False
  end.

(** [x] is not a positive value of magnitude above [K]. *)
Definition SFbelow (K : Z) (x : spec_float) : Prop :=
  match x with
  | S754_finite false m e => mag m e <= K
  | S754_infinity false => False
  | _ => True
  end.

(** Linear arithmetic with the least exponent of binary64 unfolded. *)
Ltac emin_lia :=
  unfold SpecFloat.emin; change prec with 53; change emax with 1024; lia.

(** The node reached along [cs] from [n] exists and ends a word. *)
Definition marked (cs : list JS.jsstring) (n : Trie.TrieNode) : bool :=
  match Trie.walk cs n with
  | Some m => Trie.isEndOfWord m
  | None => false
  end.

(** [k] squarings of [A] in fixed point with denominator [P], rounded
    down. *)
Fixpoint squarings (P : Z) (k : nat) (A : Z) : Z :=
  match k with
  | O => A
  | S k' => squarings P k' (A * A / P)
  end.

(** * The model on known values *)

Example murmur_empty : murmurhash3_32_gc (JS.of_string "") 0 = 0.
Proof. vm_compute. reflexivity. Qed.
Example murmur_empty_1 : murmurhash3_32_gc (JS.of_string "") 1 = 0x514E28B7.
Proof. vm_compute. reflexivity. Qed.
Example murmur_abc : murmurhash3_32_gc (JS.of_string "abc") 0 = 0xB3DD93FA.
Proof. vm_compute. reflexivity. Qed.
Example murmur_hello : murmurhash3_32_gc (JS.of_string "Hello, world!") 1234 = 0xFAF6CDB3.
Proof. vm_compute. reflexivity. Qed.
Example murmur_fox :
  murmurhash3_32_gc (JS.of_string "The quick brown fox jumps over the lazy dog") 0x9747b28c
  = 0x2FA826CD.
Proof. vm_compute. reflexivity. Qed.

Example ceil_1 : Number.Math_ceil 6.625%float = 7%float.
Proof. vm_compute. reflexivity. Qed.
Example ceil_2 : Number.Math_ceil (-0.5)%float = (-0)%float.
Proof. vm_compute. reflexivity. Qed.
Example ceil_3 : Number.Math_ceil (-1.5)%float = (-1)%float.
Proof. vm_compute. reflexivity. Qed.
Example ceil_4 : Number.Math_ceil 9585.0625%float = 9586%float.
Proof. vm_compute. reflexivity. Qed.
Example ceil_5 : Number.Math_ceil 3%float = 3%float.
Proof. vm_compute. reflexivity. Qed.
Example ceil_6 : Number.Math_ceil 0x1p-1074%float = 1%float.
Proof. vm_compute. reflexivity. Qed.
Example ceil_7 : Number.integer (Number.Math_ceil 4503599627370495.5%float) = Some 4503599627370496.
Proof. vm_compute. reflexivity. Qed.
Example zlt_1 : Number.Zlt 6 6.5%float = true /\ Number.Zlt 7 6.5%float = false
  /\ Number.Zlt 0 nan = false /\ Number.Zlt (2 ^ 53) infinity = true.
Proof. vm_compute. auto. Qed.

Example rem_1 : Rem.rem 7 3%float = KInt 1 /\ Rem.rem 7 0%float = KNaN
  /\ Rem.rem 7 2.5%float = KInt 2 /\ Rem.rem 8 2.5%float = KFrac 1 (-1)
  /\ Rem.rem 7 infinity = KInt 7 /\ Rem.rem 7 nan = KNaN.
Proof. vm_compute. auto 10. Qed.

Example sample_sizes :
  (getSize Sample.Math_log Sample.Number_exponentiate 1000 0x1.47ae147ae147bp-7 = 9586)%float /\
  (getHashCount Sample.Math_log 9586 1000 = 7)%float.
Proof. vm_compute. auto. Qed.

(** The example of the article: [new BloomFilter(1000, 0.01)] has 9586
    bits and 7 hashes, and after adding "apple", "banana" and "orange" the
    checks of "apple", "grape", "banana" and "kiwi" print [true], [false],
    [true], [false]. *)
Example article_example :
  match Sample.new 1000 0x1.47ae147ae147bp-7 with
  | inr this =>
      match adds 8 (map JS.of_string ("apple" :: "banana" :: "orange" :: nil)%string)
              this with
      | Some (_, this') =>
          Some (Number.integer (size this), Number.integer (hashCount this),
                map (fun x => option_map fst (check 8 (JS.of_string x) this'))
                    ("apple" :: "grape" :: "banana" :: "kiwi" :: nil)%string)
      | None => None
      end
  | inl _ => None
  end
  = Some (Some 9586, Some 7, Some true :: Some false :: Some true :: Some false :: nil).
Proof. vm_compute. reflexivity. Qed.

(** The reference algorithm on the same test vectors. *)
Example hash32_vectors :
  MurmurHash3.hash32 (JS.of_string "") 1 = 0x514E28B7 /\
  MurmurHash3.hash32 (JS.of_string "abc") 0 = 0xB3DD93FA /\
  MurmurHash3.hash32 (JS.of_string "Hello, world!") 1234 = 0xFAF6CDB3.
Proof. vm_compute. auto. Qed.

(** A non-ASCII key: only the low bytes of "héllo €" are hashed. *)
Example murmur_high_bytes :
  murmurhash3_32_gc [104; 233; 108; 108; 111; 32; 8364] 7 =
  murmurhash3_32_gc [104; 233; 108; 108; 111; 32; 172] 7.
Proof. vm_compute. reflexivity. Qed.

Example chars_1 :
  Trie.chars [0x61; 0xD83D; 0xDE00; 0xD83D; 0x62; 0xDE00] =
  [[0x61]; [0xD83D; 0xDE00]; [0xD83D]; [0x62]; [0xDE00]].
Proof. reflexivity. Qed.

Example array_index_1 :
  map Object.array_index
    (map JS.of_string ("b" :: "0" :: "2" :: "10" :: "01" :: "4294967294" :: "4294967295"
                       :: "" :: "1a" :: nil)%string)
  = [None; Some 0; Some 2; Some 10; None; Some 4294967294; None; None; None].
Proof. vm_compute. reflexivity. Qed.

(** [for ... in] visits "1", "2", "10" before "b" and "a". *)
Example entries_1 :
  map fst (Object.entries
    (map (fun k => (JS.of_string k, tt)) ("b" :: "2" :: "a" :: "10" :: "1" :: nil)%string))
  = map JS.of_string ("1" :: "2" :: "10" :: "b" :: "a" :: nil)%string.
Proof. vm_compute. reflexivity. Qed.

(** The example of the article: after [insert("Alice")] and
    [insert("Charlie")] the four calls print [true], [false], [true] and
    [['Charlie']]. *)
Example trie_article_example :
  let trie := Trie.inserts (map JS.of_string ("Alice" :: "Charlie" :: nil)%string) Trie.new in
  (Trie.search (JS.of_string "Alice") trie,
   Trie.search (JS.of_string "Ali") trie,
   Trie.startsWith (JS.of_string "A") trie,
   Trie.getWordsWithPrefix (JS.of_string "Ch") trie)
  = (true, false, true, [JS.of_string "Charlie"]).
Proof. vm_compute. reflexivity. Qed.

(** Words come out in the order of [for ... in] at every node, a word
    before its extensions. *)
Example trie_order :
  Trie.getWordsWithPrefix []
    (Trie.inserts (map JS.of_string ("b" :: "ab" :: "2" :: "a" :: "1" :: "" :: nil)%string)
       Trie.new)
  = map JS.of_string ("" :: "1" :: "2" :: "b" :: "a" :: "ab" :: nil)%string.
Proof. vm_compute. reflexivity. Qed.

(** * Properties *)

(** ** Arrays *)

Section ArrayFacts.

Implicit Types (a : Array.t) (k : PropertyKey) (v : Z).

Lemma Array_get_set_eq a k v : Array.get (Array.set a k v) k = Some v.
Proof. unfold Array.get, Array.set; simpl. apply lookup_insert_eq. Qed.

Lemma Array_get_set_ne a k k' v :
  k ≠ k' -> Array.get (Array.set a k v) k' = Array.get a k'.
Proof. intros Hne. unfold Array.get, Array.set; simpl. by apply lookup_insert_ne. Qed.

Lemma Array_length_set_le a k v : Array.length a <= Array.length (Array.set a k v).
Proof.
  unfold Array.set; simpl. destruct k as [|i|]; try lia.
  destruct ((0 <=? i) && (i <=? 2 ^ 32 - 2) && (Array.length a <=? i)) eqn:E; [|lia].
  apply andb_prop in E as [_ E]. apply Z.leb_le in E. lia.
Qed.

Lemma covered_set a k v : covered (Array.set a k v) k.
Proof.
  destruct k as [|i|]; simpl; trivial. intros Hi.
  destruct (Array.length a <=? i) eqn:E.
  - replace ((0 <=? i) && (i <=? 2 ^ 32 - 2)) with true; simpl; [lia|].
    symmetry. apply andb_true_intro. split; apply Z.leb_le; lia.
  - apply Z.leb_gt in E. rewrite andb_false_r. lia.
Qed.

Lemma covered_mono a a' k :
  Array.length a <= Array.length a' -> covered a k -> covered a' k.
Proof. destruct k; simpl; trivial. intros Hle H Hi. specialize (H Hi). lia. Qed.

Lemma Array_set_id a k v : Array.get a k = Some v -> covered a k -> Array.set a k v = a.
Proof.
  destruct a as [len ps]. unfold Array.get, Array.set, covered; simpl. intros Hget Hcov.
  f_equal.
  - destruct k as [|i|]; trivial.
    destruct ((0 <=? i) && (i <=? 2 ^ 32 - 2) && (len <=? i)) eqn:E; trivial.
    apply andb_prop in E as [E E3]. apply andb_prop in E as [E1 E2].
    apply Z.leb_le in E1, E2, E3. lia.
  - by apply insert_id.
Qed.

Lemma writes_length_le ks a : Array.length a <= Array.length (writes ks a).
Proof.
  revert a. induction ks as [|k ks IH]; intros a; simpl; [lia|].
  etransitivity; [apply (Array_length_set_le a k 1)|apply IH].
Qed.

(** A property that holds [1] keeps it. *)
Lemma writes_keep_one ks a k : Array.get a k = Some 1 -> Array.get (writes ks a) k = Some 1.
Proof.
  revert a. induction ks as [|k' ks IH]; intros a Hk; simpl; trivial.
  apply IH. destruct (decide (k' = k)) as [->|Hne].
  - apply Array_get_set_eq.
  - by rewrite Array_get_set_ne.
Qed.

(** A property either keeps its value or holds [1]. *)
Lemma writes_get ks a k :
  Array.get (writes ks a) k = Array.get a k \/ Array.get (writes ks a) k = Some 1.
Proof.
  revert a. induction ks as [|k' ks IH]; intros a; simpl; [by left|].
  destruct (IH (Array.set a k' 1)) as [H|H]; [|by right].
  destruct (decide (k' = k)) as [->|Hne].
  - right. rewrite H. apply Array_get_set_eq.
  - left. rewrite H. by apply Array_get_set_ne.
Qed.

Lemma writes_covered ks a k : covered a k -> covered (writes ks a) k.
Proof. apply covered_mono, writes_length_le. Qed.

(** After the run every written key holds [1] and is covered. *)
Lemma writes_done ks a k :
  k ∈ ks -> Array.get (writes ks a) k = Some 1 /\ covered (writes ks a) k.
Proof.
  revert a. induction ks as [|k' ks IH]; intros a Hin; [by apply elem_of_nil in Hin|].
  apply elem_of_cons in Hin as [->|Hin]; simpl.
  - split.
    + apply writes_keep_one, Array_get_set_eq.
    + apply writes_covered, covered_set.
  - by apply IH.
Qed.

(** Writing keys that already hold [1] changes nothing. *)
Lemma writes_id ks a :
  (forall k, k ∈ ks -> Array.get a k = Some 1 /\ covered a k) -> writes ks a = a.
Proof.
  induction ks as [|k ks IH]; intros H; simpl; trivial.
  destruct (H k) as [Hg Hc]; [by left|].
  rewrite Array_set_id by assumption. apply IH. intros k' Hk'. apply H. by right.
Qed.

Lemma writes_twice ks a : writes ks (writes ks a) = writes ks a.
Proof. apply writes_id. intros k Hk. by apply writes_done. Qed.

Lemma fill_length a v : Array.length (Array.fill a v) = Array.length a.
Proof. reflexivity. Qed.

Lemma fill_get a v i :
  0 <= i < Array.length a -> Array.get (Array.fill a v) (KInt i) = Some v.
Proof.
  unfold Array.get, Array.fill; simpl. intros Hi.
  assert (Hin : i ∈ seqZ 0 (Array.length a)) by (apply elem_of_seqZ; lia).
  induction (seqZ 0 (Array.length a)) as [|j l IH]; [by apply elem_of_nil in Hin|].
  simpl. destruct (decide (j = i)) as [->|Hne].
  - apply lookup_insert_eq.
  - rewrite lookup_insert_ne by congruence.
    apply IH. apply elem_of_cons in Hin as [?|?]; [congruence|done].
Qed.

Lemma fill_get_other a v k :
  (forall i, k <> KInt i) -> Array.get (Array.fill a v) k = Array.get a k.
Proof.
  unfold Array.get, Array.fill; simpl. intros Hk.
  induction (seqZ 0 (Array.length a)) as [|j l IH]; simpl; trivial.
  rewrite lookup_insert_ne; [apply IH|]. intros E. by apply (Hk j).
Qed.

End ArrayFacts.

(** ** The loops of [add] and [check] *)

Section Loops.

Implicit Types (this : BloomFilter) (item : JS.jsstring).

Lemma set_bitArray_id this : set_bitArray this (bitArray this) = this.
Proof. by destruct this. Qed.

Lemma set_bitArray_twice this a a' :
  set_bitArray (set_bitArray this a) a' = set_bitArray this a'.
Proof. reflexivity. Qed.

Lemma counters_more turns turns' i k cs :
  counters turns i k = Some cs -> (turns <= turns')%nat -> counters turns' i k = Some cs.
Proof.
  revert turns' i cs. induction turns as [|t IH]; intros [|t'] i cs H Hle; simpl in *;
    try discriminate; try lia.
  destruct (Number.Zlt i k); trivial.
  destruct (counters t (incr i) k) as [cs'|] eqn:E; [|discriminate].
  rewrite (IH t' _ cs') by (trivial; lia). exact H.
Qed.

(** Two runs that both return ran the body at the same counters. *)
Lemma counters_agree t1 t2 i k cs1 cs2 :
  counters t1 i k = Some cs1 -> counters t2 i k = Some cs2 -> cs1 = cs2.
Proof.
  intros H1 H2.
  apply (counters_more _ (max t1 t2)) in H1; [|lia].
  apply (counters_more _ (max t1 t2)) in H2; [|lia].
  congruence.
Qed.

(** [add] writes [1] at the key of every counter of its loop and changes
    nothing else. *)
Lemma add_loop_spec turns item i this :
  add_loop turns item i this =
    match counters turns i (hashCount this) with
    | Some cs =>
        Some (tt, set_bitArray this
                    (writes (key_at item (size this) <$> cs) (bitArray this)))
    | None => None
    end.
Proof.
  revert i this. induction turns as [|t IH]; intros i this; simpl; trivial.
  unfold bind, read. destruct (Number.Zlt i (hashCount this)) eqn:E.
  - unfold write_bitArray. rewrite IH. simpl.
    destruct (counters t (incr i) (hashCount this)) as [cs|]; simpl; trivial.
  - unfold ret. simpl. by rewrite set_bitArray_id.
Qed.

Lemma add_spec turns item this :
  add turns item this =
    match counters turns 0 (hashCount this) with
    | Some cs =>
        Some (tt, set_bitArray this
                    (writes (key_at item (size this) <$> cs) (bitArray this)))
    | None => None
    end.
Proof. apply add_loop_spec. Qed.

(** [check] never changes [this]. *)
Lemma check_loop_pure turns item i this b this' :
  check_loop turns item i this = Some (b, this') -> this' = this.
Proof.
  revert i. induction turns as [|t IH]; intros i; simpl; [discriminate|].
  unfold bind, read, ret.
  destruct (Number.Zlt i (hashCount this)); [|congruence].
  destruct (is_zero _); [congruence|]. apply IH.
Qed.

(** [check] answers [true] exactly when its loop ends and no key of its
    counters reads [0]. *)
Lemma check_loop_true turns item i this :
  check_loop turns item i this = Some (true, this) <->
  exists cs, counters turns i (hashCount this) = Some cs /\
    forall c, c ∈ cs ->
      is_zero (Array.get (bitArray this) (key_at item (size this) c)) = false.
Proof.
  revert i. induction turns as [|t IH]; intros i; simpl.
  { split; [discriminate|]. by intros (cs & ? & _). }
  unfold bind, read, ret. destruct (Number.Zlt i (hashCount this)) eqn:E.
  - fold (key_at item (size this) i).
    destruct (is_zero (Array.get (bitArray this) (key_at item (size this) i))) eqn:Ez.
    + split; [discriminate|]. intros (cs & Hcs & Hall).
      destruct (counters t (incr i) (hashCount this)) as [cs'|]; [|discriminate].
      simpl in Hcs. injection Hcs as <-.
      rewrite Hall in Ez; [discriminate|by left].
    + rewrite IH. split.
      * intros (cs & Hcs & Hall). exists (i :: cs). rewrite Hcs. split; trivial.
        intros c Hc. apply elem_of_cons in Hc as [->|Hc]; auto.
      * intros (cs & Hcs & Hall).
        destruct (counters t (incr i) (hashCount this)) as [cs'|]; [|discriminate].
        simpl in Hcs. injection Hcs as <-.
        exists cs'. split; trivial. intros c Hc. apply Hall. by right.
  - split; [|trivial]. intros _. exists nil. split; trivial.
    intros c Hc. by apply elem_of_nil in Hc.
Qed.

(** More turns do not change an answer. *)
Lemma check_loop_more turns turns' item i this r :
  check_loop turns item i this = Some r -> (turns <= turns')%nat ->
  check_loop turns' item i this = Some r.
Proof.
  revert turns' i. induction turns as [|t IH]; intros [|t'] i H Hle; simpl in *;
    try discriminate; try lia.
  unfold bind, read, ret in *.
  destruct (Number.Zlt i (hashCount this)); trivial.
  destruct (is_zero _); trivial. apply IH; [trivial|lia].
Qed.

Lemma add_more turns turns' item this r :
  add turns item this = Some r -> (turns <= turns')%nat -> add turns' item this = Some r.
Proof.
  rewrite !add_spec. intros H Hle.
  destruct (counters turns 0 (hashCount this)) as [cs|] eqn:E; [|discriminate].
  by rewrite (counters_more _ _ _ _ _ E Hle).
Qed.

(** [add] keeps every field but [bitArray]. *)
Lemma add_fields turns item this this' :
  add turns item this = Some (tt, this') ->
  expectedItems this' = expectedItems this /\
  falsePositiveRate this' = falsePositiveRate this /\
  size this' = size this /\
  hashCount this' = hashCount this.
Proof.
  rewrite add_spec. destruct (counters _ _ _); [|discriminate].
  intros [= <-]. auto.
Qed.

(** After [add(x)], [check(x)] finds [1] at every key. *)
Lemma add_then_check turns item this this' :
  add turns item this = Some (tt, this') -> check turns item this' = Some (true, this').
Proof.
  intros Hadd. destruct (add_fields _ _ _ _ Hadd) as (_ & _ & Hm & Hk).
  rewrite add_spec in Hadd.
  destruct (counters turns 0 (hashCount this)) as [cs|] eqn:E; [|discriminate].
  injection Hadd as <-. apply check_loop_true. exists cs. split; [exact E|].
  intros c Hc. simpl.
  destruct (writes_done (key_at item (size this) <$> cs) (bitArray this)
              (key_at item (size this) c)) as [-> _]; trivial.
  apply list_elem_of_fmap. by exists c.
Qed.

(** A second [add(x)] finds all its bits set. *)
Lemma add_twice turns item this this' :
  add turns item this = Some (tt, this') -> add turns item this' = Some (tt, this').
Proof.
  intros Hadd. rewrite add_spec in Hadd |- *.
  destruct (counters turns 0 (hashCount this)) as [cs|] eqn:E; [|discriminate].
  injection Hadd as <-. simpl. rewrite E. by rewrite writes_twice.
Qed.

End Loops.

(** ** Binary64 arithmetic *)

Section Digits.

Lemma digits2_pos_size p : digits2_pos p = Pos.size p.
Proof. induction p; simpl; congruence. Qed.

Lemma Zdigits2_log2 m : 0 < m -> Zdigits2 m = Z.log2 m + 1.
Proof.
  destruct m as [|p|p]; try lia. intros _. simpl. rewrite digits2_pos_size.
  destruct p; simpl; lia.
Qed.

Lemma Zdigits2_nonneg m : 0 <= Zdigits2 m.
Proof. destruct m; simpl; lia. Qed.

Lemma Zdigits2_pos m : 0 < m -> 0 < Zdigits2 m.
Proof. destruct m; simpl; lia. Qed.

Lemma Zdigits2_bounds m : 0 < m -> 2 ^ (Zdigits2 m - 1) <= m < 2 ^ Zdigits2 m.
Proof.
  intros Hm. rewrite Zdigits2_log2 by trivial.
  replace (Z.log2 m + 1 - 1) with (Z.log2 m) by lia.
  replace (Z.log2 m + 1) with (Z.succ (Z.log2 m)) by lia. apply Z.log2_spec. trivial.
Qed.

Lemma Zdigits2_le m m' : 0 <= m <= m' -> Zdigits2 m <= Zdigits2 m'.
Proof.
  intros [H0 Hle]. destruct (Z.eq_dec m 0) as [->|Hne]; [apply Zdigits2_nonneg|].
  rewrite !Zdigits2_log2 by lia. apply Z.add_le_mono_r, Z.log2_le_mono. trivial.
Qed.

Lemma Zdigits2_lt_pow2 m k : 0 <= m -> 0 <= k -> m < 2 ^ k -> Zdigits2 m <= k.
Proof.
  intros H0 Hk Hlt. destruct (Z.eq_dec m 0) as [->|Hne]; [trivial|].
  rewrite Zdigits2_log2 by lia.
  assert (Z.log2 m < k) by (apply Z.log2_lt_pow2; lia). lia.
Qed.

Lemma Zdigits2_ge_pow2 m k : 0 <= k -> 2 ^ k <= m -> k + 1 <= Zdigits2 m.
Proof.
  intros Hk Hle. assert (0 < m) by (pose proof (Z.pow_pos_nonneg 2 k); lia).
  rewrite Zdigits2_log2 by trivial.
  assert (k <= Z.log2 m) by (apply Z.log2_le_pow2; lia). lia.
Qed.

Lemma Zdigits2_succ m : 0 <= m -> Zdigits2 (m + 1) <= Zdigits2 m + 1.
Proof.
  intros H0. destruct (Z.eq_dec m 0) as [->|Hne]; [simpl; lia|].
  rewrite !Zdigits2_log2 by lia. fold (Z.succ m).
  pose proof (Z.log2_succ_le m). lia.
Qed.

Lemma Zdigits2_mul_le a b : 0 < a -> 0 < b -> Zdigits2 (a * b) <= Zdigits2 a + Zdigits2 b.
Proof.
  intros Ha Hb. rewrite !Zdigits2_log2 by nia.
  pose proof (Z.log2_mul_above a b). lia.
Qed.

Lemma Zdigits2_mul_ge a b :
  0 < a -> 0 < b -> Zdigits2 a + Zdigits2 b - 1 <= Zdigits2 (a * b).
Proof.
  intros Ha Hb. rewrite !Zdigits2_log2 by nia.
  pose proof (Z.log2_mul_below a b). lia.
Qed.

Lemma Zdigits2_mul_pow2 a k : 0 < a -> 0 <= k -> Zdigits2 (a * 2 ^ k) = Zdigits2 a + k.
Proof.
  intros Ha Hk. assert (0 < 2 ^ k) by (apply Z.pow_pos_nonneg; lia).
  rewrite !Zdigits2_log2 by nia.
  rewrite <- Z.shiftl_mul_pow2 by trivial. rewrite Z.log2_shiftl by lia. lia.
Qed.

(** The digits of a quotient by a power of two. *)
Lemma Zdigits2_div_pow2 a k :
  0 <= a -> 0 <= k -> Zdigits2 (a / 2 ^ k) = Z.max 0 (Zdigits2 a - k).
Proof.
  intros Ha Hk. destruct (Z.eq_dec a 0) as [->|Hne].
  { rewrite Z.div_0_l by (apply Z.pow_nonzero; lia). simpl. lia. }
  assert (0 < 2 ^ k) by (apply Z.pow_pos_nonneg; lia).
  destruct (Z.lt_ge_cases a (2 ^ k)) as [Hlt|Hge].
  - rewrite Z.div_small by lia. simpl.
    pose proof (Zdigits2_lt_pow2 a k). lia.
  - assert (0 < a / 2 ^ k) by (apply Z.div_str_pos; lia).
    rewrite !Zdigits2_log2 by lia.
    rewrite <- Z.shiftr_div_pow2 by trivial.
    rewrite Z.log2_shiftr by lia.
    assert (k <= Z.log2 a) by (apply Z.log2_le_pow2; lia). lia.
Qed.

(** The digits of a quotient. *)
Lemma Zdigits2_div_le a b :
  0 <= a -> 0 < b -> Zdigits2 (a / b) <= Z.max 0 (Zdigits2 a - Zdigits2 b + 1).
Proof.
  intros Ha Hb. pose proof (Zdigits2_bounds b Hb) as [Hlo _].
  pose proof (Zdigits2_pos b Hb).
  assert (0 < 2 ^ (Zdigits2 b - 1)) by (apply Z.pow_pos_nonneg; lia).
  assert (a / b <= a / 2 ^ (Zdigits2 b - 1)) by (apply Z.div_le_compat_l; lia).
  assert (0 <= a / b) by (apply Z.div_pos; lia).
  etransitivity; [apply Zdigits2_le; split; eassumption|].
  rewrite Zdigits2_div_pow2 by lia. lia.
Qed.

Lemma Zdigits2_div_ge a b :
  0 <= a -> 0 < b -> Zdigits2 a - Zdigits2 b <= Zdigits2 (a / b).
Proof.
  intros Ha Hb. pose proof (Zdigits2_bounds b Hb) as [_ Hhi].
  pose proof (Zdigits2_pos b Hb).
  assert (a / 2 ^ Zdigits2 b <= a / b) by (apply Z.div_le_compat_l; lia).
  assert (0 <= a / 2 ^ Zdigits2 b) by (apply Z.div_pos; [lia|apply Z.pow_pos_nonneg; lia]).
  pose proof (Zdigits2_le (a / 2 ^ Zdigits2 b) (a / b)) as Hle.
  rewrite Zdigits2_div_pow2 in Hle by lia. lia.
Qed.

End Digits.

Section Rounding.

Lemma shr_1_m mrs : 0 <= shr_m mrs -> shr_m (shr_1 mrs) = shr_m mrs / 2.
Proof.
  destruct mrs as [m r s]. simpl. intros Hm. rewrite <- Z.div2_div.
  destruct m as [|[p|p|]|p]; try reflexivity; lia.
Qed.

Lemma iter_shr_1_m p : forall mrs,
  0 <= shr_m mrs -> shr_m (SpecFloat.iter_pos shr_1 p mrs) = shr_m mrs / 2 ^ Zpos p.
Proof.
  assert (Hdiv : forall a b c, 0 < b -> 0 < c -> a / b / c = a / (b * c)).
  { intros. apply Z.div_div; lia. }
  induction p as [p IH|p IH|]; intros mrs Hm; cbn [SpecFloat.iter_pos].
  - assert (0 < 2 ^ Zpos p) by (apply Z.pow_pos_nonneg; lia).
    assert (0 <= shr_m (shr_1 mrs)) by (rewrite shr_1_m by trivial; apply Z.div_pos; lia).
    assert (0 <= shr_m (SpecFloat.iter_pos shr_1 p (shr_1 mrs)))
      by (rewrite IH by trivial; apply Z.div_pos; lia).
    rewrite !IH, shr_1_m by trivial. rewrite !Hdiv by lia. f_equal.
    rewrite (Pos2Z.inj_xI p), Z.pow_add_r, Z.pow_mul_r, Z.pow_2_r by lia.
    change (2 ^ 2) with 4. rewrite Z.pow_mul_l. lia.
  - assert (0 < 2 ^ Zpos p) by (apply Z.pow_pos_nonneg; lia).
    assert (0 <= shr_m (SpecFloat.iter_pos shr_1 p mrs))
      by (rewrite IH by trivial; apply Z.div_pos; lia).
    rewrite !IH by trivial. rewrite !Hdiv by lia. f_equal.
    rewrite (Pos2Z.inj_xO p), Z.pow_mul_r, Z.pow_2_r by lia.
    rewrite Z.pow_mul_l. lia.
  - apply shr_1_m. trivial.
Qed.

Lemma shr_spec mrs e n :
  0 <= shr_m mrs ->
  shr_m (fst (shr mrs e n)) = shr_m mrs / 2 ^ Z.max 0 n /\
  snd (shr mrs e n) = e + Z.max 0 n.
Proof.
  intros Hm. destruct n as [|p|p]; simpl.
  - rewrite Z.div_1_r. lia.
  - rewrite iter_shr_1_m by trivial. rewrite Z.max_r by lia. lia.
  - rewrite Z.div_1_r. lia.
Qed.

Lemma shr_record_of_loc_m m l : shr_m (shr_record_of_loc m l) = m.
Proof. destruct l as [|[]]; reflexivity. Qed.

Lemma round_nearest_even_bounds m l :
  m <= round_nearest_even m l <= m + 1.
Proof. destruct l as [|[]]; simpl; try destruct (Z.even m); lia. Qed.

End Rounding.

Section RoundAux.

Local Abbreviation fexp := (SpecFloat.fexp prec emax).

(** What rounding the non-negative value [mx * 2 ^ ex] (plus the bits
    told by [lx]) can give: the sign is kept, the magnitude changes by
    at most one, the result is a zero only below the least subnormal
    magnitude and is infinite only past the largest exponent. *)
Lemma binary_round_aux_cases s mx ex lx :
  0 <= mx ->
  match binary_round_aux prec emax s mx ex lx with
  | S754_zero s' => s' = s /\ (0 < mx -> Zdigits2 mx + ex <= emin)
  | S754_infinity s' =>
      s' = s /\ emax - prec < Z.max ex (fexp (Zdigits2 mx + ex + 1))
  | S754_finite s' m e =>
      s' = s /\
      mag m e <= Z.max (Zdigits2 mx + ex + 1) (emin + 1) /\
      (0 < mx -> emin + 1 <= Zdigits2 mx + ex -> Zdigits2 mx + ex <= mag m e) /\
      (ex <= fexp (Zdigits2 mx + ex) -> valid_binary (S754_finite s' m e) = true)
  | S754_nan => False
  end.
Proof.
  intros Hmx. unfold binary_round_aux, shr_fexp.
  set (n1 := fexp (Zdigits2 mx + ex) - ex).
  pose proof (shr_spec (shr_record_of_loc mx lx) ex n1) as [Hm1 He1].
  { rewrite shr_record_of_loc_m. trivial. }
  destruct (shr (shr_record_of_loc mx lx) ex n1) as [mrs1 e1]. simpl in Hm1, He1.
  rewrite shr_record_of_loc_m in Hm1.
  set (m2 := round_nearest_even (shr_m mrs1) (loc_of_shr_record mrs1)).
  pose proof (round_nearest_even_bounds (shr_m mrs1) (loc_of_shr_record mrs1)) as Hm2.
  fold m2 in Hm2.
  assert (H2n1 : 0 < 2 ^ Z.max 0 n1) by (apply Z.pow_pos_nonneg; lia).
  assert (Hm1pos : 0 <= shr_m mrs1) by (rewrite Hm1; apply Z.div_pos; lia).
  set (n2 := fexp (Zdigits2 m2 + e1) - e1).
  pose proof (shr_spec (shr_record_of_loc m2 loc_Exact) e1 n2) as [Hm3 He3].
  { simpl. lia. }
  destruct (shr (shr_record_of_loc m2 loc_Exact) e1 n2) as [mrs3 e3]. simpl in Hm3, He3.
  assert (H2n2 : 0 < 2 ^ Z.max 0 n2) by (apply Z.pow_pos_nonneg; lia).
  assert (Hm3pos : 0 <= shr_m mrs3) by (rewrite Hm3; apply Z.div_pos; lia).
  pose proof (Zdigits2_div_pow2 mx (Z.max 0 n1) Hmx ltac:(lia)) as Hd1.
  rewrite <- Hm1 in Hd1.
  pose proof (Zdigits2_div_pow2 m2 (Z.max 0 n2) ltac:(lia) ltac:(lia)) as Hd3.
  rewrite <- Hm3 in Hd3.
  pose proof (Zdigits2_le (shr_m mrs1) m2 ltac:(lia)) as Hd2lo.
  pose proof (Zdigits2_le m2 (shr_m mrs1 + 1) ltac:(lia)) as Hd2hi.
  pose proof (Zdigits2_succ (shr_m mrs1) Hm1pos) as Hd2hi'.
  pose proof (Zdigits2_nonneg mx) as Hdmx.
  assert (Hdpos : 0 < mx -> 0 < Zdigits2 mx) by apply Zdigits2_pos.
  unfold SpecFloat.fexp, SpecFloat.emin in *.
  change prec with 53 in *. change emax with 1024 in *.
  subst n1 n2.
  destruct (shr_m mrs3) as [|m3|m3] eqn:Em3.
  - split; [reflexivity|]. intros Hpos. specialize (Hdpos Hpos).
    simpl in Hd3. lia.
  - pose proof (Zdigits2_pos (Zpos m3) ltac:(lia)) as Hd3pos.
    destruct (e3 <=? 1024 - 53) eqn:Ee3; cbv beta iota; unfold mag;
      change (Zpos (digits2_pos m3)) with (Zdigits2 (Zpos m3)).
    + split; [reflexivity|]. split; [lia|]. split.
      * intros Hpos. specialize (Hdpos Hpos). lia.
      * intros Hex. unfold SpecFloat.valid_binary, bounded, canonical_mantissa.
        change (Zpos (digits2_pos m3)) with (Zdigits2 (Zpos m3)).
        unfold SpecFloat.fexp, SpecFloat.emin.
        apply andb_true_intro. split; [apply Z.eqb_eq|apply Z.leb_le; lia].
        apply Z.leb_le in Ee3. clear Ee3.
        destruct (Z.eq_dec (shr_m mrs1) 0) as [E0|E0].
        -- assert (m2 = 0 \/ m2 = 1) as [->| ->] by lia;
             [rewrite Z.div_0_l in Hm3 by lia; lia|].
           change (Zdigits2 1) with 1 in *. lia.
        -- lia.
    + apply Z.leb_gt in Ee3. split; [reflexivity|]. lia.
  - lia.
Qed.

End RoundAux.

Section Operations.

Local Abbreviation fexp := (SpecFloat.fexp prec emax).

Lemma Zpos_iter_xO m k : Zpos (Pos.iter xO m k) = Zpos m * 2 ^ Zpos k.
Proof.
  induction k as [|k IH] using Pos.peano_ind.
  - simpl. lia.
  - rewrite Pos.iter_succ, Pos2Z.inj_xO, IH, Pos2Z.inj_succ, Z.pow_succ_r by lia. lia.
Qed.

(** [shl_align] keeps the value and lowers the exponent to [e'] at most. *)
Lemma shl_align_spec m e e' :
  let '(m', e1) := shl_align m e e' in
  e1 = Z.min e e' /\ Zpos m' = Zpos m * 2 ^ (e - e1).
Proof.
  unfold shl_align. destruct (e' - e) as [|d|d] eqn:E.
  - replace (Z.min e e') with e by lia. rewrite Z.sub_diag. simpl. lia.
  - replace (Z.min e e') with e by lia. rewrite Z.sub_diag. simpl. lia.
  - replace (Z.min e e') with e' by lia. split; trivial.
    rewrite Zpos_iter_xO. f_equal. f_equal. lia.
Qed.

(** A canonical finite float: few enough digits, exponent in range. *)
Lemma valid_finite s m e :
  valid_binary (S754_finite s m e) = true ->
  Zdigits2 (Zpos m) <= 53 /\ emin <= e <= 971 /\ (emin < e -> Zdigits2 (Zpos m) = 53).
Proof.
  unfold SpecFloat.valid_binary, bounded, canonical_mantissa, SpecFloat.fexp, SpecFloat.emin.
  change prec with 53. change emax with 1024.
  intros H. apply andb_prop in H as [H1 H2].
  apply Z.eqb_eq in H1. apply Z.leb_le in H2.
  change (Zdigits2 (Zpos m)) with (Zpos (digits2_pos m)). lia.
Qed.

(** Rounding an integer: sign kept, never [NaN], valid. *)
Lemma binary_round_cases s m :
  match binary_round prec emax s m 0 with
  | S754_zero _ | S754_nan => False
  | S754_infinity s' => s' = s /\ 53 < Zdigits2 (Zpos m)
  | S754_finite s' m' e' =>
      s' = s /\ mag m' e' <= Zdigits2 (Zpos m) + 1 /\ Zdigits2 (Zpos m) <= mag m' e' /\
      valid_binary (S754_finite s' m' e') = true
  end.
Proof.
  unfold binary_round.
  pose proof (shl_align_spec m 0 (fexp (Zpos (digits2_pos m) + 0))) as H.
  destruct (shl_align m 0 (fexp (Zpos (digits2_pos m) + 0))) as [mz ez].
  destruct H as [Hez Hmz].
  pose proof (binary_round_aux_cases s (Zpos mz) ez loc_Exact ltac:(lia)) as H.
  assert (Hd : Zdigits2 (Zpos mz) + ez = Zdigits2 (Zpos m)).
  { rewrite Hmz. rewrite Zdigits2_mul_pow2 by lia. lia. }
  rewrite Hd in H.
  change (Zpos (digits2_pos m)) with (Zdigits2 (Zpos m)) in Hez.
  pose proof (Zdigits2_pos (Zpos m) ltac:(lia)) as Hdpos.
  unfold SpecFloat.fexp, SpecFloat.emin in *.
  change prec with 53 in *. change emax with 1024 in *.
  destruct (binary_round_aux 53 1024 s (Zpos mz) ez loc_Exact) as [s'|s'| |s' m' e'].
  - destruct H as [_ H]. lia.
  - destruct H as [-> H]. split; trivial. lia.
  - trivial.
  - destruct H as (-> & Hup & Hlo & Hv). split; trivial. split; [lia|].
    split; [apply Hlo; lia|apply Hv; lia].
Qed.

Lemma SFmul_cases sx mx ex sy my ey :
  match SFmul prec emax (S754_finite sx mx ex) (S754_finite sy my ey) with
  | S754_zero s' => s' = xorb sx sy /\ mag mx ex + mag my ey - 1 <= emin
  | S754_infinity s' =>
      s' = xorb sx sy /\ 971 < Z.max (ex + ey) (fexp (mag mx ex + mag my ey + 1))
  | S754_finite s' m e =>
      s' = xorb sx sy /\
      mag m e <= Z.max (mag mx ex + mag my ey + 1) (emin + 1) /\
      (emin + 1 <= mag mx ex + mag my ey - 1 -> mag mx ex + mag my ey - 1 <= mag m e)
  | S754_nan => False
  end.
Proof.
  unfold SFmul.
  pose proof (binary_round_aux_cases (xorb sx sy) (Zpos (mx * my)) (ex + ey) loc_Exact
                ltac:(lia)) as H.
  pose proof (Zdigits2_mul_le (Zpos mx) (Zpos my) ltac:(lia) ltac:(lia)) as Hle.
  pose proof (Zdigits2_mul_ge (Zpos mx) (Zpos my) ltac:(lia) ltac:(lia)) as Hge.
  rewrite <- Pos2Z.inj_mul in Hle, Hge.
  unfold mag in *. change (Zpos (digits2_pos mx)) with (Zdigits2 (Zpos mx)).
  change (Zpos (digits2_pos my)) with (Zdigits2 (Zpos my)).
  unfold SpecFloat.fexp, SpecFloat.emin in *.
  change prec with 53 in *. change emax with 1024 in *.
  destruct (binary_round_aux 53 1024 (xorb sx sy) (Zpos (mx * my)) (ex + ey) loc_Exact)
    as [s'|s'| |s' m' e'].
  - destruct H as [-> H]. split; trivial. lia.
  - destruct H as [-> H]. split; trivial. lia.
  - trivial.
  - destruct H as (-> & Hup & Hlo & _). split; trivial. split; [lia|]. intros. lia.
Qed.

Lemma SFdiv_cases sx mx ex sy my ey :
  match SFdiv prec emax (S754_finite sx mx ex) (S754_finite sy my ey) with
  | S754_zero s' => s' = xorb sx sy /\ mag mx ex - mag my ey <= emin
  | S754_infinity s' =>
      s' = xorb sx sy /\ 971 < fexp (mag mx ex - mag my ey + 2)
  | S754_finite s' m e =>
      s' = xorb sx sy /\
      mag m e <= Z.max (mag mx ex - mag my ey + 2) (emin + 1) /\
      (emin + 1 <= mag mx ex - mag my ey -> mag mx ex - mag my ey <= mag m e)
  | S754_nan => False
  end.
Proof.
  unfold SFdiv, SFdiv_core_binary.
  set (e' := Z.min (fexp (Zdigits2 (Zpos mx) + ex - (Zdigits2 (Zpos my) + ey))) (ex - ey)).
  set (m' := match ex - ey - e' with
             | 0 => Zpos mx
             | Zpos _ => Z.shiftl (Zpos mx) (ex - ey - e')
             | Zneg _ => 0
             end).
  assert (Hs : 0 <= ex - ey - e') by (unfold e'; lia).
  assert (Hm' : m' = Zpos mx * 2 ^ (ex - ey - e')).
  { unfold m'. destruct (ex - ey - e') as [|p|p] eqn:E; try lia.
    rewrite Z.shiftl_mul_pow2 by lia. trivial. }
  clearbody m'.
  assert (Hq : fst (Z.div_eucl m' (Zpos my)) = m' / Zpos my) by reflexivity.
  destruct (Z.div_eucl m' (Zpos my)) as [q r]. simpl in Hq.
  assert (H2s : 0 < 2 ^ (ex - ey - e')) by (apply Z.pow_pos_nonneg; lia).
  assert (Hm'pos : 0 < m') by nia.
  assert (Hqpos : 0 <= q) by (subst q; apply Z.div_pos; lia).
  pose proof (binary_round_aux_cases (xorb sx sy) q e' (new_location (Zpos my) r) Hqpos) as H.
  pose proof (Zdigits2_div_le m' (Zpos my) ltac:(lia) ltac:(lia)) as Hle.
  pose proof (Zdigits2_div_ge m' (Zpos my) ltac:(lia) ltac:(lia)) as Hge.
  rewrite <- Hq in Hle, Hge.
  assert (Hdm' : Zdigits2 m' = Zdigits2 (Zpos mx) + (ex - ey - e')).
  { rewrite Hm'. apply Zdigits2_mul_pow2; lia. }
  assert (Hq0 : 0 < Zdigits2 q -> 0 < q).
  { destruct q; simpl; lia. }
  pose proof (Zdigits2_pos (Zpos mx) ltac:(lia)).
  pose proof (Zdigits2_pos (Zpos my) ltac:(lia)).
  unfold mag in *. change (Zpos (digits2_pos mx)) with (Zdigits2 (Zpos mx)).
  change (Zpos (digits2_pos my)) with (Zdigits2 (Zpos my)).
  unfold SpecFloat.fexp, SpecFloat.emin in *.
  change prec with 53 in *. change emax with 1024 in *.
  destruct (binary_round_aux 53 1024 (xorb sx sy) q e' (new_location (Zpos my) r))
    as [s'|s'| |s' m3 e3].
  - destruct H as [-> H]. split; trivial. subst e'. lia.
  - destruct H as [-> H]. split; trivial. subst e'. lia.
  - trivial.
  - destruct H as (-> & Hup & Hlo & _). split; trivial. subst e'.
    split; [lia|]. intros. lia.
Qed.

End Operations.

(** ** Bounds through the operations *)

Section Bounds.

Lemma valid_mag s m e :
  valid_binary (S754_finite s m e) = true -> emin + 1 <= mag m e <= 1024 /\ e <= mag m e - 1.
Proof.
  intros H. apply valid_finite in H. unfold mag.
  change (Zpos (digits2_pos m)) with (Zdigits2 (Zpos m)).
  pose proof (Zdigits2_pos (Zpos m) ltac:(lia)). lia.
Qed.

Lemma SFmul_above s1 s2 a b x y :
  SFabove s1 a x -> SFabove s2 b y -> emin + 2 <= a + b ->
  SFabove (xorb s1 s2) (a + b - 1) (SFmul prec emax x y).
Proof.
  intros Hx Hy Hab.
  destruct x as [|sx| |sx mx ex], y as [|sy| |sy my ey]; simpl in Hx, Hy; try contradiction.
  - subst. reflexivity.
  - destruct Hy as [-> _]. subst. reflexivity.
  - destruct Hx as [-> _]. subst. reflexivity.
  - destruct Hx as [-> Hx], Hy as [-> Hy].
    pose proof (SFmul_cases s1 mx ex s2 my ey) as H.
    destruct (SFmul prec emax (S754_finite s1 mx ex) (S754_finite s2 my ey)); simpl.
    + destruct H. lia.
    + tauto.
    + trivial.
    + destruct H as (-> & _ & H). split; trivial. lia.
Qed.

Lemma SFdiv_above s1 s2 a b x y :
  SFabove s1 a x -> SFwithin s2 b y -> emin + 1 <= a - b ->
  SFabove (xorb s1 s2) (a - b) (SFdiv prec emax x y).
Proof.
  intros Hx Hy Hab.
  destruct x as [|sx| |sx mx ex], y as [|sy| |sy my ey]; simpl in Hx, Hy; try contradiction.
  - destruct Hy as [-> _]. subst. reflexivity.
  - destruct Hx as [-> Hx], Hy as [-> Hy].
    pose proof (SFdiv_cases s1 mx ex s2 my ey) as H.
    destruct (SFdiv prec emax (S754_finite s1 mx ex) (S754_finite s2 my ey)); simpl.
    + destruct H. lia.
    + tauto.
    + trivial.
    + destruct H as (-> & _ & H). split; trivial. lia.
Qed.

Lemma SFdiv_below K x y :
  valid_binary x = true -> valid_binary y = true ->
  SFbelow K x -> SFabove false 1 y -> emin <= K <= 900 ->
  SFbelow (K + 1) (SFdiv prec emax x y).
Proof.
  intros Vx Vy Hx Hy HK.
  destruct x as [sx|sx| |sx mx ex], y as [|sy| |sy my ey]; simpl in Hx, Hy;
    try contradiction;
    try match type of Hy with _ /\ _ => destruct Hy as [Hsy Hy] end; subst;
    try (cbn; exact I); try (destruct sx; cbn; exact I);
    try (destruct sx; [cbn; exact I|contradiction]).
  pose proof (SFdiv_cases sx mx ex false my ey) as H.
  {
    rewrite xorb_false_r in H.
    apply valid_mag in Vx, Vy. unfold SpecFloat.fexp, SpecFloat.emin in *.
    change prec with 53 in *. change emax with 1024 in *.
    destruct (SFdiv 53 1024 (S754_finite sx mx ex) (S754_finite false my ey))
      as [s'|s'| |s' m' e']; simpl; trivial.
    + destruct H as [-> H]. destruct sx; trivial. lia.
    + destruct H as (-> & H & _). destruct sx; trivial. lia. }
Qed.

Lemma SFmul_below K x y :
  valid_binary x = true -> valid_binary y = true ->
  SFbelow K x -> SFwithin false 0 y -> emin <= K <= 900 ->
  SFbelow (K + 1) (SFmul prec emax x y).
Proof.
  intros Vx Vy Hx Hy HK.
  destruct x as [sx|sx| |sx mx ex], y as [| | |sy my ey]; simpl in Hx, Hy;
    try contradiction; destruct Hy as [-> Hy];
    try (cbn; exact I); try (destruct sx; cbn; exact I);
    try (destruct sx; [cbn; exact I|contradiction]).
  pose proof (SFmul_cases sx mx ex false my ey) as H.
  {
    rewrite xorb_false_r in H.
    apply valid_mag in Vx, Vy. unfold SpecFloat.fexp, SpecFloat.emin in *.
    change prec with 53 in *. change emax with 1024 in *.
    destruct (SFmul 53 1024 (S754_finite sx mx ex) (S754_finite false my ey))
      as [s'|s'| |s' m' e']; simpl; trivial.
    + destruct H as [-> H]. destruct sx; trivial. lia.
    + destruct H as (-> & H & _). destruct sx; trivial. lia. }
Qed.

End Bounds.

Section Comparisons.

(** Comparison with a power of two [c * 2 ^ ec], [c = 2 ^ 52]. *)
Lemma SFleb_pow2_above c ec x :
  Zpos c = 2 ^ 52 -> valid_binary x = true -> emin < ec ->
  SFleb (S754_finite false c ec) x = true -> SFabove false (ec + 53) x.
Proof.
  intros Hc V Hec. unfold SFleb, SFcompare.
  destruct x as [s|s| |s m e]; try discriminate.
  - destruct s; [discriminate|reflexivity].
  - destruct s; [discriminate|]. unfold SFabove. apply valid_finite in V.
    unfold mag. change (Zpos (digits2_pos m)) with (Zdigits2 (Zpos m)).
    destruct (Z.compare_spec ec e); try discriminate; intros _; split; trivial; lia.
Qed.

Lemma SFltb_pow2_within c ec x :
  Zpos c = 2 ^ 52 -> valid_binary x = true -> emin < ec ->
  SFltb (S754_zero false) x = true -> SFltb x (S754_finite false c ec) = true ->
  SFwithin false (ec + 52) x.
Proof.
  intros Hc V Hec. unfold SFltb, SFcompare.
  destruct x as [s|s| |s m e]; try discriminate.
  - destruct s; discriminate.
  - destruct s; [discriminate|]. intros _. unfold SFwithin. apply valid_finite in V.
    unfold mag. change (Zpos (digits2_pos m)) with (Zdigits2 (Zpos m)).
    destruct (Z.compare_spec e ec); try discriminate.
    + pose proof (Pos.compare_spec m c) as Hcmp.
      unfold Pos.compare in Hcmp. destruct Hcmp as [| Hlt |]; try discriminate.
      apply Pos2Z.pos_lt_pos in Hlt.
      pose proof (Zdigits2_bounds (Zpos m) ltac:(lia)) as [Hlo _].
      destruct V as (_ & _ & V). rewrite V in Hlo by lia.
      replace (53 - 1) with 52 in Hlo by lia. lia.
    + intros _. split; trivial. lia.
Qed.

Lemma SFltb_zero_above x :
  valid_binary x = true -> SFltb x (S754_zero false) = true -> SFabove true (emin + 1) x.
Proof.
  intros V. unfold SFltb, SFcompare.
  destruct x as [s|s| |s m e]; try discriminate.
  - destruct s; [reflexivity|discriminate].
  - destruct s; [|discriminate]. intros _. split; trivial.
    apply valid_mag in V. lia.
Qed.

(** The magnitude of an integral float is the digit count of its integer. *)
Lemma SFinteger_mag s m e z :
  Number.SFinteger (S754_finite s m e) = Some z ->
  exists a, 0 < a /\ z = cond_Zopp s a /\ mag m e = Zdigits2 a.
Proof.
  unfold Number.SFinteger, mag. change (Zpos (digits2_pos m)) with (Zdigits2 (Zpos m)).
  destruct (0 <=? e) eqn:Ee.
  - apply Z.leb_le in Ee. intros [= <-]. exists (Zpos m * 2 ^ e).
    assert (0 < 2 ^ e) by (apply Z.pow_pos_nonneg; lia).
    split; [nia|]. split; trivial. rewrite Zdigits2_mul_pow2 by lia. trivial.
  - apply Z.leb_gt in Ee. destruct (Zpos m mod 2 ^ (- e) =? 0) eqn:Em; [|discriminate].
    apply Z.eqb_eq in Em. intros [= <-]. exists (Zpos m / 2 ^ (- e)).
    assert (H2 : 0 < 2 ^ (- e)) by (apply Z.pow_pos_nonneg; lia).
    assert (Hm : Zpos m = Zpos m / 2 ^ (- e) * 2 ^ (- e)).
    { rewrite (Z.div_mod (Zpos m) (2 ^ (- e))) at 1 by lia. rewrite Em. lia. }
    assert (Ha : 0 < Zpos m / 2 ^ (- e)) by nia.
    split; trivial. split; trivial.
    rewrite Hm at 1. rewrite Zdigits2_mul_pow2 by lia. lia.
Qed.

Lemma SFZlt_above K x : SFabove false K x -> Number.SFZlt 0 x = true.
Proof.
  destruct x as [s|s| |s m e]; unfold SFabove, Number.SFZlt; try contradiction.
  - intros ->. reflexivity.
  - intros [-> _]. unfold cond_Zopp. destruct (0 <=? e) eqn:Ee.
    + apply Z.leb_le in Ee. apply Z.ltb_lt.
      assert (0 < 2 ^ e) by (apply Z.pow_pos_nonneg; lia). nia.
    + reflexivity.
Qed.

Lemma SFZlt_below K x : SFbelow K x -> K <= 53 -> Number.SFZlt (2 ^ 53) x = false.
Proof.
  destruct x as [s|s| |s m e]; unfold SFbelow, Number.SFZlt.
  - intros _ _. reflexivity.
  - destruct s; [reflexivity|contradiction].
  - reflexivity.
  - destruct s.
    + intros _ _. unfold cond_Zopp. destruct (0 <=? e) eqn:Ee.
      * apply Z.ltb_ge. apply Z.leb_le in Ee.
        assert (0 < 2 ^ e) by (apply Z.pow_pos_nonneg; lia). nia.
      * apply Z.ltb_ge. apply Z.leb_gt in Ee.
        assert (0 < 2 ^ (- e)) by (apply Z.pow_pos_nonneg; lia). nia.
    + unfold mag. change (Zpos (digits2_pos m)) with (Zdigits2 (Zpos m)).
      intros Hm HK. unfold cond_Zopp.
      pose proof (Zdigits2_bounds (Zpos m) ltac:(lia)) as [_ Hhi].
      pose proof (Zdigits2_pos (Zpos m) ltac:(lia)) as Hd.
      destruct (0 <=? e) eqn:Ee.
      * apply Z.ltb_ge. apply Z.leb_le in Ee.
        assert (Zpos m * 2 ^ e < 2 ^ (Zdigits2 (Zpos m) + e)).
        { rewrite Z.pow_add_r by lia. apply Z.mul_lt_mono_pos_r; [|trivial].
          apply Z.pow_pos_nonneg; lia. }
        assert (2 ^ (Zdigits2 (Zpos m) + e) <= 2 ^ 53) by (apply Z.pow_le_mono_r; lia).
        lia.
      * apply Z.ltb_ge. apply Z.leb_gt in Ee. rewrite <- Z.pow_add_r by lia.
        assert (2 ^ Zdigits2 (Zpos m) <= 2 ^ (53 + - e)) by (apply Z.pow_le_mono_r; lia).
        lia.
Qed.

End Comparisons.

Section Ceiling.

Lemma binary_normalize_valid z s :
  valid_binary (binary_normalize prec emax z 0 s) = true.
Proof.
  destruct z as [|p|p]; simpl; trivial.
  - pose proof (binary_round_cases false p) as H.
    destruct (binary_round prec emax false p 0); trivial. tauto.
  - pose proof (binary_round_cases true p) as H.
    destruct (binary_round prec emax true p 0); trivial. tauto.
Qed.

Lemma SFceil_valid x : valid_binary x = true -> valid_binary (Number.SFceil x) = true.
Proof.
  destruct x as [s|s| |s m e]; simpl; trivial.
  destruct (0 <=? e); trivial. intros _. apply binary_normalize_valid.
Qed.

(** The ceiling of a positive value is at least [1]. *)
Lemma SFceil_above K x : SFabove false K x -> SFabove false 1 (Number.SFceil x).
Proof.
  destruct x as [s|s| |s m e]; simpl; trivial.
  intros [-> _]. destruct (0 <=? e) eqn:Ee.
  - apply Z.leb_le in Ee. simpl. split; trivial. unfold mag. lia.
  - apply Z.leb_gt in Ee.
    assert (H2 : 0 < 2 ^ (- e)) by (apply Z.pow_pos_nonneg; lia).
    assert (Hq : 1 <= (Zpos m + 2 ^ (- e) - 1) / 2 ^ (- e)).
    { apply Z.div_le_lower_bound; lia. }
    destruct ((Zpos m + 2 ^ (- e) - 1) / 2 ^ (- e)) as [|q|q]; try lia. simpl.
    pose proof (binary_round_cases false q) as H.
    pose proof (Zdigits2_pos (Zpos q) ltac:(lia)).
    destruct (binary_round prec emax false q 0); simpl; try tauto.
    destruct H as (-> & _ & H & _). split; trivial. lia.
Qed.

(** The ceiling of a value below [2 ^ K] is at most [2 ^ K]. *)
Lemma SFceil_below K x :
  SFbelow K x -> 0 <= K <= 51 -> SFbelow (K + 2) (Number.SFceil x).
Proof.
  destruct x as [s|s| |s m e]; simpl; trivial.
  intros Hx HK. destruct (0 <=? e) eqn:Ee.
  { destruct s; simpl; trivial. lia. }
  apply Z.leb_gt in Ee.
  assert (H2 : 0 < 2 ^ (- e)) by (apply Z.pow_pos_nonneg; lia).
  destruct s.
  - assert (Hq : 0 <= Zpos m / 2 ^ (- e)) by (apply Z.div_pos; lia).
    destruct (Zpos m / 2 ^ (- e)) as [|q|q]; try lia; simpl; trivial.
    pose proof (binary_round_cases true q) as H.
    destruct (binary_round prec emax true q 0) as [| | |s' m' e']; simpl; try tauto.
    + destruct H as [-> _]. trivial.
    + destruct H as [-> _]. trivial.
  - unfold mag in Hx. change (Zpos (digits2_pos m)) with (Zdigits2 (Zpos m)) in Hx.
    pose proof (Zdigits2_bounds (Zpos m) ltac:(lia)) as [_ Hhi].
    pose proof (Zdigits2_pos (Zpos m) ltac:(lia)) as Hd.
    assert (Hq : (Zpos m + 2 ^ (- e) - 1) / 2 ^ (- e) < 2 ^ K + 1).
    { apply Z.div_lt_upper_bound; [lia|].
      assert (2 ^ Zdigits2 (Zpos m) <= 2 ^ (- e + K)) by (apply Z.pow_le_mono_r; lia).
      rewrite Z.pow_add_r in * by lia. lia. }
    assert (Hq0 : 0 <= (Zpos m + 2 ^ (- e) - 1) / 2 ^ (- e)) by (apply Z.div_pos; lia).
    destruct ((Zpos m + 2 ^ (- e) - 1) / 2 ^ (- e)) as [|q|q]; try lia; simpl; trivial.
    pose proof (binary_round_cases false q) as H.
    assert (Hdq : Zdigits2 (Zpos q) <= K + 1).
    { transitivity (Zdigits2 (2 ^ K)); [apply Zdigits2_le; lia|].
      replace (2 ^ K) with (1 * 2 ^ K) by lia.
      rewrite Zdigits2_mul_pow2 by lia. simpl. lia. }
    destruct (binary_round prec emax false q 0) as [| | |s' m' e']; simpl; try tauto.
    + destruct H as [-> H]. lia.
    + destruct H as (-> & H & _). lia.
Qed.

End Ceiling.

(** ** Floats through their specification *)

Section Primitive.

Lemma Math_ceil_spec x : Prim2SF (Number.Math_ceil x) = Number.SFceil (Prim2SF x).
Proof.
  unfold Number.Math_ceil. apply Prim2SF_SF2Prim, SFceil_valid, Prim2SF_valid.
Qed.

Lemma Prim2SF_one : Prim2SF 1 = S754_finite false 4503599627370496 (-52).
Proof. reflexivity. Qed.

Lemma Prim2SF_half : Prim2SF 0.5 = S754_finite false 4503599627370496 (-53).
Proof. reflexivity. Qed.

Lemma Prim2SF_zero : Prim2SF 0 = S754_zero false.
Proof. reflexivity. Qed.

Lemma two_52 : Zpos 4503599627370496 = 2 ^ 52.
Proof. reflexivity. Qed.

(** [1 <= x]: positive, of magnitude at least 1. *)
Lemma leb_one_above x : (1 <=? x)%float = true -> SFabove false 1 (Prim2SF x).
Proof.
  rewrite leb_spec, Prim2SF_one. intros H.
  apply (SFleb_pow2_above _ (-52)) in H;
    [exact H|exact two_52|apply Prim2SF_valid|reflexivity].
Qed.

(** [0.5 <= x]: positive, of magnitude at least 0. *)
Lemma leb_half_above x : (0.5 <=? x)%float = true -> SFabove false 0 (Prim2SF x).
Proof.
  rewrite leb_spec, Prim2SF_half. intros H.
  apply (SFleb_pow2_above _ (-53)) in H;
    [exact H|exact two_52|apply Prim2SF_valid|reflexivity].
Qed.

(** [0 < x < 1]: finite, positive, of magnitude at most 0. *)
Lemma ltb_one_within x :
  (0 <? x)%float = true -> (x <? 1)%float = true -> SFwithin false 0 (Prim2SF x).
Proof.
  rewrite !ltb_spec, Prim2SF_one, Prim2SF_zero. intros H0 H1.
  apply (SFltb_pow2_within _ (-52)) in H1;
    [exact H1|exact two_52|apply Prim2SF_valid|reflexivity|exact H0].
Qed.

(** [x < 0]: negative and not a zero. *)
Lemma ltb_zero_above x : (x <? 0)%float = true -> SFabove true (emin + 1) (Prim2SF x).
Proof.
  rewrite ltb_spec, Prim2SF_zero. apply SFltb_zero_above, Prim2SF_valid.
Qed.

Lemma SFopp_above s K x : SFabove s K x -> SFabove (negb s) K (SFopp x).
Proof.
  destruct x as [| s'| |s' m e]; unfold SFabove, SFopp; try contradiction.
  - intros ->. reflexivity.
  - intros [-> H]. split; trivial.
Qed.

Lemma SFabove_weaken s K K' x : SFabove s K x -> K' <= K -> SFabove s K' x.
Proof.
  destruct x as [| | |s' m e]; unfold SFabove; trivial. intros [-> H] Hle. split; [trivial|lia].
Qed.

(** A positive integral float denotes an integer [>= 1]. *)
Lemma SFabove_integer K x z :
  SFabove false K x -> Number.SFinteger x = Some z -> 1 <= z /\ SFabove false 1 x.
Proof.
  destruct x as [| | |s m e]; unfold SFabove; try contradiction.
  - intros _ H. discriminate H.
  - intros [-> _] H. apply SFinteger_mag in H as (a & Ha & -> & Hm).
    unfold cond_Zopp. split; [lia|]. split; trivial. rewrite Hm.
    pose proof (Zdigits2_pos a Ha). lia.
Qed.

(** An integral float below [2 ^ K] has magnitude at most [K]. *)
Lemma SFinteger_below K x z :
  Number.SFinteger x = Some z -> z < 2 ^ K -> 0 <= K -> SFbelow K x.
Proof.
  destruct x as [| | |s m e]; unfold SFbelow; trivial.
  - discriminate.
  - intros H Hz HK. destruct s; trivial.
    apply SFinteger_mag in H as (a & Ha & -> & Hm). unfold cond_Zopp in Hz.
    rewrite Hm. apply Zdigits2_lt_pow2; lia.
Qed.

Lemma SFabove_ltb_zero K x : SFabove false K x -> SFltb (S754_zero false) x = true.
Proof.
  destruct x as [| s | |s m e]; unfold SFabove; try contradiction.
  - intros ->. reflexivity.
  - intros [-> _]. reflexivity.
Qed.

(** A positive value of magnitude at least [ec + 53] is at least
    [c * 2 ^ ec], for [c = 2 ^ 52]. *)
Lemma SFabove_leb_pow2 c ec x :
  Zpos c = 2 ^ 52 -> valid_binary x = true -> emin < ec ->
  SFabove false (ec + 53) x -> SFleb (S754_finite false c ec) x = true.
Proof.
  intros Hc V Hec. destruct x as [| s | |s m e]; unfold SFabove; try contradiction.
  - intros ->. reflexivity.
  - intros [-> Hm]. unfold SFleb, SFcompare. apply valid_finite in V.
    unfold mag in Hm. change (Zpos (digits2_pos m)) with (Zdigits2 (Zpos m)) in Hm.
    destruct (Z.compare_spec ec e) as [He|He|He]; trivial; [|lia].
    pose proof (Pos.compare_spec c m) as Hcmp. unfold Pos.compare in Hcmp.
    destruct Hcmp as [| |Hlt]; trivial.
    apply Pos2Z.pos_lt_pos in Hlt.
    pose proof (Zdigits2_bounds (Zpos m) ltac:(lia)) as [Hlo _].
    destruct V as (_ & _ & V). rewrite V in Hlo by lia.
    replace (53 - 1) with 52 in Hlo by lia. lia.
Qed.

(** Of magnitude at least 1: at least [1]. *)
Lemma above_leb_one x : SFabove false 1 (Prim2SF x) -> (1 <=? x)%float = true.
Proof.
  intros H. rewrite leb_spec, Prim2SF_one.
  apply (SFabove_leb_pow2 _ (-52)); [exact two_52|apply Prim2SF_valid|reflexivity|exact H].
Qed.

End Primitive.

(** ** Indices *)

Section Indices.

(** The hash is an unsigned 32-bit integer. *)
Lemma murmurhash3_32_gc_range key seed : 0 <= murmurhash3_32_gc key seed < 2 ^ 32.
Proof.
  unfold murmurhash3_32_gc.
  destruct (blocks key (List.length key) (JS.length key - (JS.length key .& 3)) 0 seed)
    as [i h1].
  unfold fmix. cbv zeta.
  match goal with |- 0 <= ?h .>>> 0 < _ => generalize h end.
  intros h. unfold JS.shru, JS.ToUint32. change (0 mod 2 ^ 32 mod 32) with 0.
  rewrite Z.shiftr_0_r. apply Z.mod_pos_bound. reflexivity.
Qed.

Lemma dyadic_eq p e :
  Rem.dyadic p e =
    if 0 <=? e then KInt (Zpos p * 2 ^ e)
    else match p with
         | xO p' => Rem.dyadic p' (e + 1)
         | _ => KFrac p e
         end.
Proof. destruct p; reflexivity. Qed.

Lemma dyadic_exact k : forall p q,
  Zpos p = Zpos q * 2 ^ Z.of_nat k -> Rem.dyadic p (- Z.of_nat k) = KInt (Zpos q).
Proof.
  induction k as [|k IH]; intros p q H; rewrite dyadic_eq.
  - change (Z.of_nat 0) with 0 in *. rewrite Z.pow_0_r, Z.mul_1_r in H.
    injection H as ->. change (0 <=? - 0) with true. cbv iota.
    rewrite Z.pow_0_r, Z.mul_1_r. trivial.
  - rewrite Nat2Z.inj_succ, Z.pow_succ_r in H by lia.
    assert (Hneg : (0 <=? - Z.of_nat (S k)) = false) by (apply Z.leb_gt; lia).
    rewrite Hneg.
    set (t := Zpos q * 2 ^ Z.of_nat k) in *.
    assert (Ht : Zpos p = 2 * t) by (unfold t; lia).
    destruct p as [p'|p'|]; try lia.
    replace (- Z.of_nat (S k) + 1) with (- Z.of_nat k) by lia.
    apply IH. fold t. lia.
Qed.

(** With an integral [size >= 1] the key is the array index [h mod size]. *)
Lemma rem_integer h m z :
  Number.integer m = Some z -> 0 < z -> 0 <= h -> Rem.rem h m = KInt (h mod z).
Proof.
  unfold Number.integer, Rem.rem. intros Hz Hpos Hh.
  destruct (Prim2SF m) as [s|s| |s mm e]; try discriminate.
  { injection Hz as <-. lia. }
  pose proof (SFinteger_mag _ _ _ _ Hz) as (a & Ha & Hza & _).
  assert (s = false) as -> by (destruct s; trivial; unfold cond_Zopp in Hza; lia).
  unfold cond_Zopp in Hza. subst a.
  unfold Number.SFinteger in Hz. unfold Rem.SFrem.
  destruct (0 <=? e) eqn:Ee.
  - injection Hz as Hz. unfold cond_Zopp in Hz. rewrite Hz.
    rewrite Z.rem_mod_nonneg by lia. trivial.
  - apply Z.leb_gt in Ee. destruct (Zpos mm mod 2 ^ (- e) =? 0) eqn:Em; [|discriminate].
    apply Z.eqb_eq in Em. injection Hz as Hz. unfold cond_Zopp in Hz.
    assert (H2 : 0 < 2 ^ (- e)) by (apply Z.pow_pos_nonneg; lia).
    assert (Hmm : Zpos mm = z * 2 ^ (- e)).
    { rewrite (Z.div_mod (Zpos mm) (2 ^ (- e))) at 1 by lia. rewrite Em, Hz. lia. }
    rewrite Hmm. rewrite Z.rem_mod_nonneg by nia.
    rewrite Z.mul_mod_distr_r by lia.
    pose proof (Z.mod_pos_bound h z Hpos) as Hr.
    destruct (h mod z * 2 ^ (- e)) as [|r|r] eqn:Er; try nia.
    + f_equal. nia.
    + destruct (h mod z) as [|q|q] eqn:Eq; try lia.
      replace e with (- Z.of_nat (Z.to_nat (- e))) by lia.
      apply dyadic_exact. rewrite Z2Nat.id by lia. lia.
Qed.

End Indices.

(** ** Construction *)

Section Construction.

Variable Math_log : number -> number.
Variable Number_exponentiate : number -> number -> number.

Lemma getSize_spec n p :
  Prim2SF (getSize Math_log Number_exponentiate n p) =
  Number.SFceil
    (SFdiv prec emax
       (SFopp (SFmul prec emax (Prim2SF n) (Prim2SF (Math_log p))))
       (Prim2SF (Number_exponentiate (Math_log 2) 2)%float)).
Proof.
  unfold getSize. cbv zeta. rewrite Math_ceil_spec, div_spec, opp_spec, mul_spec. reflexivity.
Qed.

Lemma getHashCount_spec m n :
  Prim2SF (getHashCount Math_log m n) =
  Number.SFceil
    (SFmul prec emax (SFdiv prec emax (Prim2SF m) (Prim2SF n)) (Prim2SF (Math_log 2%float))).
Proof.
  unfold getHashCount. cbv zeta. rewrite Math_ceil_spec, mul_spec, div_spec. reflexivity.
Qed.

(** What a successful construction returns. *)
Lemma new_inr n p this :
  new Math_log Number_exponentiate n p = inr this ->
  exists z,
    Number.integer (getSize Math_log Number_exponentiate n p) = Some z /\
    0 <= z <= 2 ^ 32 - 1 /\
    this = {| expectedItems := n;
              falsePositiveRate := p;
              size := getSize Math_log Number_exponentiate n p;
              hashCount :=
                getHashCount Math_log (getSize Math_log Number_exponentiate n p) n;
              bitArray := Array.fill {| Array.length := z; Array.props := ∅ |} 0 |}.
Proof.
  unfold new, Array.new. cbv zeta.
  destruct (Number.integer (getSize Math_log Number_exponentiate n p)) as [z|];
    [|discriminate].
  destruct ((0 <=? z) && (z <=? 2 ^ 32 - 1)) eqn:E; [|discriminate].
  apply andb_prop in E as [E1 E2]. apply Z.leb_le in E1, E2.
  intros [= <-]. exists z. auto.
Qed.

(** With valid arguments the size is a positive value. *)
Lemma getSize_above n p :
  valid_arguments n p -> engine_ok Math_log Number_exponentiate p ->
  SFabove false 1 (Prim2SF (getSize Math_log Number_exponentiate n p)).
Proof.
  intros (Hn & _ & _) (Hlog & _ & _ & Hd0 & Hd1).
  rewrite getSize_spec.
  apply leb_one_above in Hn. apply ltb_zero_above in Hlog.
  pose proof (ltb_one_within _ Hd0 Hd1) as Hd.
  pose proof (SFmul_above _ _ _ _ _ _ Hn Hlog ltac:(emin_lia)) as Hmul.
  apply SFopp_above in Hmul.
  pose proof (SFdiv_above _ _ _ _ _ _ Hmul Hd ltac:(emin_lia)) as Hdiv.
  apply (SFceil_above _ _ Hdiv).
Qed.

(** An infinite [expectedItems] gives an infinite size. *)
Lemma getSize_infinite n p :
  engine_ok Math_log Number_exponentiate p -> Prim2SF n = S754_infinity false ->
  Number.integer (getSize Math_log Number_exponentiate n p) = None.
Proof.
  intros (Hlog & _ & _ & Hd0 & Hd1) Hn.
  unfold Number.integer. rewrite getSize_spec, Hn.
  apply ltb_zero_above in Hlog. pose proof (ltb_one_within _ Hd0 Hd1) as Hd.
  destruct (Prim2SF (Math_log p)) as [| sl | |sl ml el]; try contradiction;
    destruct (Prim2SF (Number_exponentiate (Math_log 2) 2)%float) as [| | |sd md ed];
    try contradiction.
  - unfold SFabove in Hlog. subst sl. destruct Hd as [-> _]. reflexivity.
  - destruct Hlog as [-> _]. destruct Hd as [-> _]. reflexivity.
Qed.

(** The hash count stays below the point where the counter stops
    advancing. *)
Lemma getHashCount_bounded m n z :
  Number.integer m = Some z -> z < 2 ^ 32 ->
  (1 <=? n)%float = true ->
  (0 <? Math_log 2)%float = true -> (Math_log 2 <? 1)%float = true ->
  Number.Zlt (2 ^ 53) (getHashCount Math_log m n) = false.
Proof.
  intros Hz Hlt Hn Hl0 Hl1. unfold Number.Zlt. rewrite getHashCount_spec.
  apply leb_one_above in Hn. pose proof (ltb_one_within _ Hl0 Hl1) as Hl.
  pose proof (SFinteger_below 32 _ _ Hz Hlt ltac:(lia)) as Hm.
  pose proof (SFdiv_below 32 _ _ (Prim2SF_valid m) (Prim2SF_valid n) Hm Hn) as Hq.
  change (32 + 1) with 33 in Hq.
  assert (Vq : valid_binary (SFdiv prec emax (Prim2SF m) (Prim2SF n)) = true).
  { rewrite <- div_spec. apply Prim2SF_valid. }
  pose proof (SFmul_below 33 _ _ Vq (Prim2SF_valid _) (Hq ltac:(emin_lia)) Hl)
    as Hr.
  change (33 + 1) with 34 in Hr.
  specialize (Hr ltac:(emin_lia)).
  apply (SFceil_below 34) in Hr; [|lia].
  apply (SFZlt_below _ _ Hr). lia.
Qed.

(** With valid arguments the hash count is a positive value. *)
Lemma getHashCount_above n p z :
  valid_arguments n p -> engine_ok Math_log Number_exponentiate p ->
  Number.integer (getSize Math_log Number_exponentiate n p) = Some z ->
  SFabove false 1
    (Prim2SF (getHashCount Math_log (getSize Math_log Number_exponentiate n p) n)).
Proof.
  intros Hv He Hz. pose proof (getSize_above n p Hv He) as Hs.
  pose proof (getSize_infinite n p He) as Hinf.
  destruct Hv as (Hn & _ & _). destruct He as (_ & Hl & _).
  rewrite getHashCount_spec.
  apply leb_one_above in Hn. apply leb_half_above in Hl.
  unfold Number.integer in Hz.
  pose proof (SFabove_integer _ _ _ Hs Hz) as [_ Hs1].
  assert (Hnw : SFwithin false 1024 (Prim2SF n)).
  { pose proof (Prim2SF_valid n) as Vn.
    destruct (Prim2SF n) as [| sn | |sn mn en]; unfold SFabove in Hn; try contradiction.
    - subst sn. specialize (Hinf eq_refl). unfold Number.integer in Hinf. congruence.
    - destruct Hn as [-> _]. split; trivial. apply valid_mag in Vn. lia. }
  pose proof (SFdiv_above _ _ _ _ _ _ Hs1 Hnw ltac:(emin_lia)) as Hq.
  pose proof (SFmul_above _ _ _ _ _ _ Hq Hl ltac:(emin_lia)) as Hr.
  apply SFceil_above in Hr. exact Hr.
Qed.

(** What construction with valid arguments returns: a positive integral
    size, as many zero bits, and a hash count between 1 and [2 ^ 53]. *)
Lemma new_valid n p this :
  valid_arguments n p -> engine_ok Math_log Number_exponentiate p ->
  new Math_log Number_exponentiate n p = inr this ->
  exists z,
    1 <= z <= 2 ^ 32 - 1 /\
    Number.integer (size this) = Some z /\
    bitArray this = Array.fill {| Array.length := z; Array.props := ∅ |} 0 /\
    SFabove false 1 (Prim2SF (size this)) /\
    SFabove false 1 (Prim2SF (hashCount this)) /\
    Number.Zlt (2 ^ 53) (hashCount this) = false.
Proof.
  intros Hv He Hnew. apply new_inr in Hnew as (z & Hz & Hrange & ->). simpl.
  pose proof (getSize_above n p Hv He) as Hs.
  pose proof (SFabove_integer _ _ _ Hs Hz) as [Hz1 _].
  exists z. split; [lia|]. split; [exact Hz|]. split; [reflexivity|].
  split; [exact Hs|]. split; [apply (getHashCount_above n p z Hv He Hz)|].
  destruct Hv as (Hn & _ & _). destruct He as (_ & Hl0 & Hl1 & _).
  apply (getHashCount_bounded _ _ z Hz); [lia|exact Hn| |exact Hl1].
  rewrite ltb_spec, Prim2SF_zero. apply (SFabove_ltb_zero 0). apply leb_half_above, Hl0.
Qed.

End Construction.

(** ** Termination of the loops *)

Section Termination.

Implicit Types (this : BloomFilter) (item : JS.jsstring).

(** A loop whose bound is at most [2 ^ 53] ends: its counter advances by
    one at every turn until the bound is reached. *)
Lemma counters_end k (d : nat) : forall i,
  Number.Zlt (2 ^ 53) k = false -> 0 <= i <= 2 ^ 53 -> 2 ^ 53 - i <= Z.of_nat d ->
  exists cs, counters (S d) i k = Some cs.
Proof.
  assert (Hstep : forall t j, counters (S t) j k =
            if Number.Zlt j k then cons j <$> counters t (incr j) k else Some nil)
    by reflexivity.
  induction d as [|d IH]; intros i Hk Hi Hd; rewrite Hstep.
  - assert (i = 2 ^ 53) as -> by lia. rewrite Hk. eauto.
  - destruct (Number.Zlt i k) eqn:E; [|eauto].
    assert (Hlt : i < 2 ^ 53).
    { destruct (Z.eq_dec i (2 ^ 53)) as [->|]; [congruence|lia]. }
    assert (Hincr : incr i = i + 1).
    { unfold incr. apply Z.ltb_lt in Hlt. rewrite Hlt. trivial. }
    rewrite Hincr. destruct (IH (i + 1) Hk) as [cs Hcs]; [lia|lia|].
    rewrite Hcs. simpl. eauto.
Qed.

Lemma counters_total k :
  Number.Zlt (2 ^ 53) k = false ->
  exists turns cs, forall turns', (turns <= turns')%nat -> counters turns' 0 k = Some cs.
Proof.
  intros Hk. destruct (counters_end k (Z.to_nat (2 ^ 53)) 0 Hk) as [cs Hcs]; [lia|lia|].
  exists (S (Z.to_nat (2 ^ 53))), cs. intros turns' Hle.
  apply (counters_more _ _ _ _ _ Hcs Hle).
Qed.

(** When the loop ends, [check] returns an answer. *)
Lemma check_loop_total turns item i this cs :
  counters turns i (hashCount this) = Some cs ->
  exists b, check_loop turns item i this = Some (b, this).
Proof.
  revert i cs. induction turns as [|t IH]; intros i cs; simpl; [discriminate|].
  unfold bind, read, ret. destruct (Number.Zlt i (hashCount this)); [|eauto].
  destruct (is_zero _); [eauto|].
  destruct (counters t (incr i) (hashCount this)) as [cs'|] eqn:E; [|discriminate].
  intros _. apply (IH _ _ E).
Qed.

(** Both methods return on a filter whose hash count is at most [2 ^ 53]. *)
Lemma add_check_return this item :
  Number.Zlt (2 ^ 53) (hashCount this) = false ->
  exists turns this' b, forall turns', (turns <= turns')%nat ->
    add turns' item this = Some (tt, this') /\ check turns' item this = Some (b, this).
Proof.
  intros Hk. destruct (counters_total _ Hk) as (turns & cs & Hcs).
  destruct (check_loop_total turns item 0 this cs (Hcs turns (le_n _))) as [b Hb].
  exists turns, (set_bitArray this (writes (key_at item (size this) <$> cs) (bitArray this))), b.
  intros turns' Hle. split.
  - rewrite add_spec, (Hcs turns' Hle). trivial.
  - apply (check_loop_more _ _ _ _ _ _ Hb Hle).
Qed.

(** A sequence of [add] calls writes a list of keys and keeps the other
    fields. *)
Lemma adds_spec turns items : forall this this',
  adds turns items this = Some (tt, this') ->
  exists ks, this' = set_bitArray this (writes ks (bitArray this)).
Proof.
  induction items as [|item items IH]; intros this this'; simpl.
  - unfold ret. intros [= <-]. exists nil. simpl. by rewrite set_bitArray_id.
  - unfold bind. rewrite add_spec.
    destruct (counters turns 0 (hashCount this)) as [cs|]; [|discriminate].
    intros H. apply IH in H as [ks ->]. simpl.
    exists ((key_at item (size this) <$> cs) ++ ks).
    unfold writes. by rewrite foldl_app.
Qed.

Lemma adds_more turns turns' items : forall this r,
  adds turns items this = Some r -> (turns <= turns')%nat -> adds turns' items this = Some r.
Proof.
  induction items as [|item items IH]; intros this r; simpl; trivial.
  unfold bind. destruct (add turns item this) as [[[] this1]|] eqn:E; [|discriminate].
  intros H Hle. rewrite (add_more _ _ _ _ _ E Hle). by apply IH.
Qed.

(** Writes at indices below [length] do not extend the array. *)
Lemma writes_length ks : forall a,
  (forall k, k ∈ ks -> exists j, k = KInt j /\ 0 <= j < Array.length a) ->
  Array.length (writes ks a) = Array.length a.
Proof.
  induction ks as [|k ks IH]; intros a H; simpl; trivial.
  destruct (H k) as (j & -> & Hj); [by left|].
  assert (Hlen : Array.length (Array.set a (KInt j) 1) = Array.length a).
  { unfold Array.set; simpl.
    replace (Array.length a <=? j) with false by (symmetry; apply Z.leb_gt; lia).
    by rewrite andb_false_r. }
  rewrite IH; [exact Hlen|]. intros k' Hk'. rewrite Hlen. apply H. by right.
Qed.

(** A property reads [0] after writes only if it read [0] before. *)
Lemma writes_is_zero ks a k :
  is_zero (Array.get (writes ks a) k) = true -> is_zero (Array.get a k) = true.
Proof.
  destruct (writes_get ks a k) as [->| ->]; trivial. discriminate.
Qed.

End Termination.

(** ** Outside the valid arguments *)

Section Outside.

Lemma SFZlt_mono i j h : i <= j -> Number.SFZlt j h = true -> Number.SFZlt i h = true.
Proof.
  intros Hij. destruct h as [s|s| |s m e]; unfold Number.SFZlt; trivial.
  - intros H. apply Z.ltb_lt in H. apply Z.ltb_lt. lia.
  - destruct (0 <=? e) eqn:Ee; intros H; apply Z.ltb_lt in H; apply Z.ltb_lt; [lia|].
    apply Z.leb_gt in Ee.
    assert (0 < 2 ^ (- e)) by (apply Z.pow_pos_nonneg; lia). nia.
Qed.

(** A loop whose bound exceeds [2 ^ 53] never ends: the counter stays at
    [2 ^ 53]. *)
Lemma counters_run_on k :
  Number.Zlt (2 ^ 53) k = true ->
  forall turns i, 0 <= i <= 2 ^ 53 -> counters turns i k = None.
Proof.
  intros Hk. induction turns as [|t IH]; intros i Hi; trivial.
  assert (Hstep : counters (S t) i k =
            if Number.Zlt i k then cons i <$> counters t (incr i) k else Some nil)
    by reflexivity.
  rewrite Hstep. unfold Number.Zlt in *.
  rewrite (SFZlt_mono i (2 ^ 53) _ ltac:(lia) Hk).
  rewrite IH; trivial. unfold incr. destruct (i <? 2 ^ 53) eqn:E; [|lia].
  apply Z.ltb_lt in E. lia.
Qed.

Lemma add_runs_on this item :
  Number.Zlt (2 ^ 53) (hashCount this) = true -> forall turns, add turns item this = None.
Proof.
  intros Hk turns. rewrite add_spec, (counters_run_on _ Hk); trivial. lia.
Qed.

(** A fractional [expectedItems]: [new BloomFilter(2^-600, 0.5)] has one
    bit and more than [2 ^ 53] hashes, and [add] does not return. *)
Example fractional_expectedItems :
  exists this, Sample.new 0x1p-600 0.5 = inr this /\
    Number.integer (size this) = Some 1 /\
    forall turns, add turns Sample.apple this = None.
Proof.
  eexists. split; [vm_compute; reflexivity|]. split; [vm_compute; reflexivity|].
  apply add_runs_on. vm_compute. reflexivity.
Qed.

(** [expectedItems = 0]: the filter has no bit and its hash count is
    [NaN], so [check] answers [true] before anything was added. *)
Example zero_expectedItems :
  match Sample.new 0 0.5 with
  | inr this => option_map fst (check 1 Sample.apple this)
  | inl _ => None
  end = Some true.
Proof. vm_compute. reflexivity. Qed.

End Outside.

(** ** Sequences of [add] calls *)

Section Sequences.

Implicit Types (this : BloomFilter) (item : JS.jsstring) (a : Array.t) (k : PropertyKey).

(** A property is touched by a run only if it is one of the keys. *)
Lemma writes_get_other ks a k : k ∉ ks -> Array.get (writes ks a) k = Array.get a k.
Proof.
  revert a. induction ks as [|k' ks IH]; intros a Hk; simpl; trivial.
  apply not_elem_of_cons in Hk as [Hne Hk].
  rewrite IH by trivial. by apply Array_get_set_ne.
Qed.

(** What a property holds after a run. *)
Lemma writes_lookup ks a k :
  Array.get (writes ks a) k = if decide (k ∈ ks) then Some 1 else Array.get a k.
Proof.
  destruct (decide (k ∈ ks)) as [Hin|Hout].
  - by apply writes_done.
  - by apply writes_get_other.
Qed.

Lemma Array_length_set_bound a k v N :
  Array.length (Array.set a k v) <= N <->
  Array.length a <= N /\ forall i, k = KInt i -> 0 <= i <= 2 ^ 32 - 2 -> i + 1 <= N.
Proof.
  unfold Array.set; simpl. destruct k as [|i|]; try (split; [intros H; split; [lia|discriminate]|tauto]).
  destruct ((0 <=? i) && (i <=? 2 ^ 32 - 2) && (Array.length a <=? i)) eqn:E.
  - apply andb_prop in E as [E E3]. apply andb_prop in E as [E1 E2].
    apply Z.leb_le in E1, E2, E3. split.
    + intros H. split; [lia|]. intros i' [= <-] _. lia.
    + intros [_ H]. apply (H i); trivial. lia.
  - split; [|tauto]. intros H. split; [lia|]. intros i' [= <-] Hi.
    apply andb_false_iff in E as [E|E].
    + apply andb_false_iff in E as [E|E]; [apply Z.leb_gt in E|apply Z.leb_gt in E]; lia.
    + apply Z.leb_gt in E. lia.
Qed.

(** The length after a run is the least bound of the length before and
    of the array indices written. *)
Lemma writes_length_bound ks : forall a N,
  Array.length (writes ks a) <= N <->
  Array.length a <= N /\ forall i, KInt i ∈ ks -> 0 <= i <= 2 ^ 32 - 2 -> i + 1 <= N.
Proof.
  induction ks as [|k ks IH]; intros a N; simpl.
  - split; [|tauto]. intros H. split; trivial. by intros i ?%elem_of_nil.
  - rewrite IH, Array_length_set_bound. split.
    + intros [[Ha Hk] Hks]. split; trivial. intros i Hin Hi.
      apply elem_of_cons in Hin as [<-|Hin]; auto.
    + intros [Ha H]. split; [split; trivial|].
      * intros i -> Hi. apply H; trivial. by left.
      * intros i Hin Hi. apply H; trivial. by right.
Qed.

(** The bits set by a run depend on which keys are written, not on
    their order or their number of occurrences. *)
Lemma writes_ext ks ks' a : (forall k, k ∈ ks <-> k ∈ ks') -> writes ks a = writes ks' a.
Proof.
  intros H.
  assert (Hlen : Array.length (writes ks a) = Array.length (writes ks' a)).
  { apply Z.le_antisymm.
    - apply writes_length_bound.
      destruct (proj1 (writes_length_bound ks' a _) (Z.le_refl _)) as [Ha Hks'].
      split; trivial. intros i Hin. apply Hks'. by apply H.
    - apply writes_length_bound.
      destruct (proj1 (writes_length_bound ks a _) (Z.le_refl _)) as [Ha Hks].
      split; trivial. intros i Hin. apply Hks. by apply H. }
  assert (Hprops : Array.props (writes ks a) = Array.props (writes ks' a)).
  { apply map_eq. intros k. fold (Array.get (writes ks a) k) (Array.get (writes ks' a) k).
    rewrite !writes_lookup.
    destruct (decide (k ∈ ks)) as [Hin|Hout], (decide (k ∈ ks')) as [Hin'|Hout'];
      trivial; [destruct Hout'|destruct Hout]; by apply H. }
  destruct (writes ks a), (writes ks' a). simpl in *. by subst.
Qed.

(** The keys written by a sequence of [add] calls. *)
Lemma adds_keys turns items : forall this cs,
  counters turns 0 (hashCount this) = Some cs ->
  adds turns items this =
  Some (tt, set_bitArray this
              (writes (items ≫= fun item => key_at item (size this) <$> cs)
                      (bitArray this))).
Proof.
  induction items as [|item items IH]; intros this cs Hcs; simpl.
  - unfold ret. by rewrite set_bitArray_id.
  - unfold bind. rewrite add_spec, Hcs.
    rewrite (IH _ cs) by exact Hcs. simpl.
    unfold writes. by rewrite foldl_app.
Qed.

Lemma adds_counters turns items this this' :
  adds turns items this = Some (tt, this') -> items <> [] ->
  exists cs, counters turns 0 (hashCount this) = Some cs.
Proof.
  destruct items as [|item items]; [done|]. simpl. unfold bind. rewrite add_spec.
  destruct (counters turns 0 (hashCount this)) as [cs|]; [eauto|discriminate].
Qed.

(** The counters of a loop are the integers from its start that are
    below the bound. *)
Lemma counters_elem_from turns (k : number) : forall i cs,
  counters turns i k = Some cs -> 0 <= i <= 2 ^ 53 ->
  forall c, c ∈ cs <-> i <= c /\ Number.Zlt c k = true.
Proof.
  induction turns as [|t IH]; intros i cs H Hi c; [discriminate|].
  assert (Hstep : counters (S t) i k =
            if Number.Zlt i k then cons i <$> counters t (incr i) k else Some nil)
    by reflexivity.
  rewrite Hstep in H. destruct (Number.Zlt i k) eqn:E.
  - destruct (counters t (incr i) k) as [cs'|] eqn:E'; [|discriminate].
    injection H as <-.
    unfold incr in E'. destruct (Z.ltb_spec i (2 ^ 53)) as [Hlt|Hge].
    2: { assert (i = 2 ^ 53) as -> by lia.
         rewrite (counters_run_on k E t (2 ^ 53)) in E' by lia. discriminate. }
    rewrite elem_of_cons, (IH _ _ E') by lia.
    split.
    + intros [->|[? ?]]; split; trivial; lia.
    + intros [Hc Hk]. destruct (Z.eq_dec c i) as [->|]; [by left|right]. split; [lia|trivial].
  - injection H as <-. split; [by intros ?%elem_of_nil|].
    intros [Hc Hk]. unfold Number.Zlt in *.
    rewrite (SFZlt_mono i c _ Hc Hk) in E. discriminate.
Qed.

Lemma counters_elem turns (k : number) cs c :
  counters turns 0 k = Some cs -> c ∈ cs <-> 0 <= c /\ Number.Zlt c k = true.
Proof. intros H. apply (counters_elem_from turns k 0 cs H). lia. Qed.

(** A [check] that answered [true] answers [true] after more [add]
    calls. *)
Lemma check_true_adds turns items this this' item turns' :
  adds turns items this = Some (tt, this') ->
  check turns' item this = Some (true, this) ->
  check turns' item this' = Some (true, this').
Proof.
  intros H Hc. apply adds_spec in H as [ks ->].
  apply check_loop_true in Hc as (cs & Hcs & Hall).
  apply check_loop_true. exists cs. split; [exact Hcs|].
  intros c Hc. simpl.
  destruct (is_zero (Array.get (writes ks (bitArray this)) (key_at item (size this) c)))
    eqn:E; trivial.
  apply writes_is_zero in E. rewrite (Hall c Hc) in E. discriminate.
Qed.

Lemma fill_get_outside a v k :
  (forall i, 0 <= i < Array.length a -> k <> KInt i) ->
  Array.get (Array.fill a v) k = Array.get a k.
Proof.
  unfold Array.get, Array.fill; simpl. intros Hk.
  assert (H : forall j, j ∈ seqZ 0 (Array.length a) -> k <> KInt j).
  { intros j Hj. apply elem_of_seqZ in Hj. apply Hk. lia. }
  induction (seqZ 0 (Array.length a)) as [|j l IH]; simpl; trivial.
  rewrite lookup_insert_ne.
  - apply IH. intros j' Hj'. apply H. by right.
  - intros E. apply (H j); [by left|done].
Qed.

End Sequences.

(** ** A size of zero *)

Section EmptyFilter.

Variable Math_log : number -> number.

Lemma SFinteger_zero x : Number.SFinteger x = Some 0 -> exists s, x = S754_zero s.
Proof.
  destruct x as [s|s| |s m e]; try discriminate; [eauto|].
  unfold Number.SFinteger.
  destruct (0 <=? e) eqn:Ee.
  - apply Z.leb_le in Ee. intros [= H].
    assert (0 < Zpos m * 2 ^ e) by (apply Z.mul_pos_pos; [lia|apply Z.pow_pos_nonneg; lia]).
    destruct s; unfold cond_Zopp in H; lia.
  - apply Z.leb_gt in Ee. destruct (Zpos m mod 2 ^ (- e) =? 0) eqn:Em; [|discriminate].
    apply Z.eqb_eq in Em. intros [= H].
    assert (H2 : 0 < 2 ^ (- e)) by (apply Z.pow_pos_nonneg; lia).
    pose proof (Z.div_mod (Zpos m) (2 ^ (- e)) ltac:(lia)) as E.
    assert (Zpos m / 2 ^ (- e) = 0) by (destruct s; unfold cond_Zopp in H; lia).
    nia.
Qed.

(** A size of zero makes the hash count a zero or [NaN]. *)
Lemma getHashCount_zero m n :
  Number.integer m = Some 0 -> Number.Zlt 0 (getHashCount Math_log m n) = false.
Proof.
  unfold Number.integer, Number.Zlt. intros H. apply SFinteger_zero in H as [s Hs].
  rewrite getHashCount_spec, Hs.
  destruct (Prim2SF n) as [sn|sn| |sn mn en];
    destruct (Prim2SF (Math_log 2%float)) as [sl|sl| |sl ml el]; reflexivity.
Qed.

End EmptyFilter.

(** ** 32-bit words

    What the operators of [murmurhash3_32_gc] compute, modulo [2 ^ 32]. *)

Section Words.

Local Abbreviation U := JS.ToUint32.
Local Abbreviation I := JS.ToInt32.

Lemma U_range x : 0 <= U x < 2 ^ 32.
Proof. apply Z.mod_pos_bound. reflexivity. Qed.

Lemma U_eqm a b q : a = b + q * 2 ^ 32 -> U a = U b.
Proof. intros ->. apply Z_mod_plus_full. Qed.

Lemma U_small x : 0 <= x < 2 ^ 32 -> U x = x.
Proof. apply Z.mod_small. Qed.

Lemma U_U x : U (U x) = U x.
Proof. apply U_small, U_range. Qed.

Lemma U_I x : U (I x) = U x.
Proof.
  unfold JS.ToInt32. apply (U_eqm _ _ (- ((x + 2 ^ 31) / 2 ^ 32))).
  pose proof (Z.div_mod (x + 2 ^ 31) (2 ^ 32) ltac:(lia)). lia.
Qed.

Lemma I_U x : I (U x) = I x.
Proof. unfold JS.ToInt32, JS.ToUint32. by rewrite Zplus_mod_idemp_l. Qed.

Lemma I_congr a b : U a = U b -> I a = I b.
Proof. intros H. by rewrite <- (I_U a), H, I_U. Qed.

Lemma I_small x : - 2 ^ 31 <= x < 2 ^ 31 -> I x = x.
Proof. intros H. unfold JS.ToInt32. rewrite Z.mod_small; lia. Qed.

Lemma U_add a a' b b' : U a = U a' -> U b = U b' -> U (a + b) = U (a' + b').
Proof.
  unfold JS.ToUint32. intros Ha Hb. by rewrite Zplus_mod, Ha, Hb, <- Zplus_mod.
Qed.

Lemma U_mul a a' b : U a = U a' -> U (a * b) = U (a' * b).
Proof.
  unfold JS.ToUint32. intros Ha. by rewrite Zmult_mod, Ha, <- Zmult_mod.
Qed.

(** The low [n] bits survive both conversions. *)
Lemma U_low x n : 0 <= n <= 32 -> U x mod 2 ^ n = x mod 2 ^ n.
Proof.
  intros Hn. unfold JS.ToUint32.
  replace (2 ^ 32) with (2 ^ (32 - n) * 2 ^ n) by (rewrite <- Z.pow_add_r; [f_equal|..]; lia).
  rewrite <- (Z_mod_plus_full x (- (x / (2 ^ (32 - n) * 2 ^ n) * 2 ^ (32 - n))) (2 ^ n)).
  f_equal. rewrite (Z.mod_eq x (_ * _)); [ring|].
  apply Z.neq_mul_0; split; apply Z.pow_nonzero; lia.
Qed.

Lemma I_low x n : 0 <= n <= 32 -> I x mod 2 ^ n = x mod 2 ^ n.
Proof. intros Hn. by rewrite <- (U_low (I x)), U_I, U_low. Qed.

Lemma mod_lor a b n : 0 <= n -> Z.lor a b mod 2 ^ n = Z.lor (a mod 2 ^ n) (b mod 2 ^ n).
Proof. intros Hn. rewrite <- !Z.land_ones by trivial. apply Z.land_lor_distr_l. Qed.

Lemma mod_lxor a b n : 0 <= n -> Z.lxor a b mod 2 ^ n = Z.lxor (a mod 2 ^ n) (b mod 2 ^ n).
Proof.
  intros Hn. apply Z.bits_inj'. intros i Hi.
  rewrite Z.lxor_spec, !Z.testbit_mod_pow2, Z.lxor_spec by trivial.
  by destruct (i <? n).
Qed.

Lemma U_or x y : U (x .| y) = Z.lor (U x) (U y).
Proof. unfold JS.or, JS.ToUint32 at 1. rewrite mod_lor by lia. fold (U (I x)) (U (I y)). by rewrite !U_I. Qed.

Lemma U_xor x y : U (x .^ y) = Z.lxor (U x) (U y).
Proof. unfold JS.xor, JS.ToUint32 at 1. rewrite mod_lxor by lia. fold (U (I x)) (U (I y)). by rewrite !U_I. Qed.

Lemma count_small n : 0 <= n < 32 -> U n mod 32 = n.
Proof.
  intros H. unfold JS.ToUint32.
  rewrite (Z.mod_small n (2 ^ 32)), (Z.mod_small n 32); lia.
Qed.

Lemma U_shl x n : 0 <= n < 32 -> U (x .<< n) = U (U x * 2 ^ n).
Proof.
  intros Hn. unfold JS.shl. rewrite U_I, count_small, Z.shiftl_mul_pow2 by lia.
  apply U_mul. by rewrite U_I, U_U.
Qed.

Lemma shru_div x n : 0 <= n < 32 -> x .>>> n = U x / 2 ^ n.
Proof. intros Hn. unfold JS.shru. rewrite count_small, Z.shiftr_div_pow2; lia. Qed.

Lemma shru_range x n : 0 <= n < 32 -> 0 <= x .>>> n < 2 ^ (32 - n).
Proof.
  intros Hn. rewrite shru_div by trivial. pose proof (U_range x) as Hx.
  assert (H2 : 0 < 2 ^ n) by (apply Z.pow_pos_nonneg; lia).
  split; [apply Z.div_pos; lia|].
  apply Z.div_lt_upper_bound; trivial. rewrite <- Z.pow_add_r by lia.
  replace (n + (32 - n)) with 32 by lia. lia.
Qed.

Lemma and_mask x n : 0 <= n < 32 -> x .& (2 ^ n - 1) = x mod 2 ^ n.
Proof.
  intros Hn. unfold JS.and.
  assert (H2 : 0 < 2 ^ n <= 2 ^ 31).
  { split; [apply Z.pow_pos_nonneg; lia|]. apply Z.pow_le_mono_r; lia. }
  rewrite (I_small (2 ^ n - 1)) by lia.
  replace (2 ^ n - 1) with (Z.ones n) by (rewrite Z.ones_equiv; lia).
  rewrite Z.land_ones by lia. apply I_low. lia.
Qed.

Lemma and_ffff x : x .& 0xffff = x mod 2 ^ 16.
Proof. apply (and_mask x 16). lia. Qed.

Lemma and_ff x : x .& 0xff = x mod 2 ^ 8.
Proof. apply (and_mask x 8). lia. Qed.

Lemma and_3 x : x .& 3 = x mod 4.
Proof. apply (and_mask x 2). lia. Qed.

Lemma and_ffffffff x : x .& 0xffffffff = I x.
Proof. unfold JS.and. change (I 0xffffffff) with (-1). apply Z.land_m1_r. Qed.

(** The 16-bit split of a product: the two partial products stay below
    [2 ^ 53] in a double, and their sum is the product modulo [2 ^ 32]. *)
Lemma mul_split x c :
  (((x .& 0xffff) * c) + ((((x .>>> 16) * c) .& 0xffff) .<< 16)) .& 0xffffffff
  = I (U x * c).
Proof.
  rewrite and_ffffffff. apply I_congr.
  rewrite !and_ffff, (shru_div x 16) by lia.
  set (hi := U x / 2 ^ 16). set (v := (hi * c) mod 2 ^ 16).
  transitivity (U (x mod 2 ^ 16 * c + v * 2 ^ 16)).
  { apply U_add; trivial. rewrite U_shl by lia. apply U_mul, U_U. }
  apply (U_eqm _ _ (- ((hi * c) / 2 ^ 16))).
  pose proof (Z.div_mod (hi * c) (2 ^ 16) ltac:(lia)) as E1. fold v in E1.
  pose proof (Z.div_mod (U x) (2 ^ 16) ltac:(lia)) as E2. fold hi in E2.
  rewrite U_low in E2 by lia.
  replace (U x * c) with (2 ^ 16 * (hi * c) + x mod 2 ^ 16 * c) by (rewrite E2; ring).
  rewrite E1 at 1. ring.
Qed.

Lemma mul_split_spec a c u :
  U a = u ->
  U ((((a .& 0xffff) * c) + ((((a .>>> 16) * c) .& 0xffff) .<< 16)) .& 0xffffffff)
  = MurmurHash3.mul32 u c.
Proof. intros <-. by rewrite mul_split, U_I. Qed.

Lemma rotl_spec a r s u :
  0 < r < 32 -> r + s = 32 -> U a = u ->
  U ((a .<< r) .| (a .>>> s)) = MurmurHash3.rotl32 u r.
Proof.
  intros Hr Hs <-. rewrite U_or, U_shl by lia. unfold MurmurHash3.rotl32.
  f_equal. rewrite U_small; [rewrite shru_div by lia; do 2 f_equal; lia|].
  pose proof (shru_range a s ltac:(lia)) as H.
  assert (2 ^ (32 - s) <= 2 ^ 32) by (apply Z.pow_le_mono_r; lia). lia.
Qed.

Lemma xor_spec a b u v : U a = u -> U b = v -> U (a .^ b) = Z.lxor u v.
Proof. intros <- <-. apply U_xor. Qed.

Lemma xor_shru_spec a n u :
  0 <= n < 32 -> U a = u -> U (a .^ (a .>>> n)) = Z.lxor u (u / 2 ^ n).
Proof.
  intros Hn <-. rewrite U_xor. f_equal. rewrite U_small; [by apply shru_div|].
  pose proof (shru_range a n Hn) as H.
  assert (2 ^ (32 - n) <= 2 ^ 32) by (apply Z.pow_le_mono_r; lia). lia.
Qed.

Lemma add_const_spec a u :
  U a = u ->
  U (((a .& 0xffff) + 0x6b64) + ((((a .>>> 16) + 0xe654) .& 0xffff) .<< 16))
  = (u + 0xe6546b64) mod 2 ^ 32.
Proof.
  intros <-. rewrite !and_ffff, shru_div by lia.
  set (hi := U a / 2 ^ 16). set (v := (hi + 0xe654) mod 2 ^ 16).
  transitivity (U (a mod 2 ^ 16 + 0x6b64 + v * 2 ^ 16)).
  { apply U_add; trivial. rewrite U_shl by lia. apply U_mul, U_U. }
  change ((U a + 0xe6546b64) mod 2 ^ 32) with (U (U a + 0xe6546b64)).
  apply (U_eqm _ _ (- ((hi + 0xe654) / 2 ^ 16))).
  pose proof (Z.div_mod (hi + 0xe654) (2 ^ 16) ltac:(lia)) as E1. fold v in E1.
  pose proof (Z.div_mod (U a) (2 ^ 16) ltac:(lia)) as E2. fold hi in E2.
  rewrite U_low in E2 by lia. lia.
Qed.

Lemma mix_k1_spec k u : U k = u -> U (mix_k1 k) = MurmurHash3.scramble u.
Proof.
  intros Hk. unfold mix_k1, MurmurHash3.scramble. cbv zeta.
  apply mul_split_spec. apply (rotl_spec _ 15 17); [lia|lia|].
  by apply mul_split_spec.
Qed.

(** Values on disjoint bits: [|] and [^] add them. *)
Lemma land_shifted a b n : 0 <= n -> 0 <= a < 2 ^ n -> Z.land a (b * 2 ^ n) = 0.
Proof.
  intros Hn Ha. apply Z.bits_inj'. intros i Hi.
  rewrite Z.land_spec, Z.bits_0.
  destruct (Z.lt_ge_cases i n) as [Hlt|Hge].
  - by rewrite Z.mul_pow2_bits_low, andb_false_r.
  - rewrite <- (Z.mod_small a (2 ^ n)) by lia.
    by rewrite Z.mod_pow2_bits_high.
Qed.

Lemma lxor_shifted a b n : 0 <= n -> 0 <= a < 2 ^ n -> Z.lxor a (b * 2 ^ n) = a + b * 2 ^ n.
Proof. intros Hn Ha. symmetry. by apply Z.add_nocarry_lxor, land_shifted. Qed.

Lemma lor_shifted a b n : 0 <= n -> 0 <= a < 2 ^ n -> Z.lor a (b * 2 ^ n) = a + b * 2 ^ n.
Proof.
  intros Hn Ha. rewrite <- Z.lxor_lor by (by apply land_shifted). by apply lxor_shifted.
Qed.

Lemma U_byte_shl b n : 0 <= n <= 24 -> 0 <= b < 2 ^ 8 -> U (b .<< n) = b * 2 ^ n.
Proof.
  intros Hn Hb. rewrite U_shl, (U_small b) by lia. apply U_small.
  assert (2 ^ n <= 2 ^ 24) by (apply Z.pow_le_mono_r; lia).
  assert (0 < 2 ^ n) by (apply Z.pow_pos_nonneg; lia). nia.
Qed.

(** The four bytes of a block, least significant first. *)
Lemma pack4 b0 b1 b2 b3 :
  0 <= b0 < 2 ^ 8 -> 0 <= b1 < 2 ^ 8 -> 0 <= b2 < 2 ^ 8 -> 0 <= b3 < 2 ^ 8 ->
  U (b0 .| (b1 .<< 8) .| (b2 .<< 16) .| (b3 .<< 24))
  = b0 + 2 ^ 8 * b1 + 2 ^ 16 * b2 + 2 ^ 24 * b3.
Proof.
  intros H0 H1 H2 H3. rewrite !U_or, !U_byte_shl, (U_small b0) by lia.
  rewrite (lor_shifted b0 b1 8) by lia.
  rewrite (lor_shifted _ b2 16) by lia.
  rewrite (lor_shifted _ b3 24) by lia. ring.
Qed.

Lemma pack3 b0 b1 b2 :
  0 <= b0 < 2 ^ 8 -> 0 <= b1 < 2 ^ 8 -> 0 <= b2 < 2 ^ 8 ->
  U (0 .^ (b2 .<< 16) .^ (b1 .<< 8) .^ b0) = b0 + 2 ^ 8 * b1 + 2 ^ 16 * b2.
Proof.
  intros H0 H1 H2. rewrite !U_xor, !U_byte_shl, (U_small b0) by lia.
  change (U 0) with 0. rewrite Z.lxor_0_l.
  rewrite (Z.lxor_comm (b2 * _)), (lxor_shifted _ b2 16) by lia.
  rewrite Z.lxor_comm.
  replace (b1 * 2 ^ 8 + b2 * 2 ^ 16) with ((b1 + b2 * 2 ^ 8) * 2 ^ 8) by ring.
  rewrite (lxor_shifted b0 _ 8) by lia. ring.
Qed.

Lemma pack2 b0 b1 :
  0 <= b0 < 2 ^ 8 -> 0 <= b1 < 2 ^ 8 ->
  U (0 .^ (b1 .<< 8) .^ b0) = b0 + 2 ^ 8 * b1.
Proof.
  intros H0 H1. rewrite !U_xor, !U_byte_shl, (U_small b0) by lia.
  change (U 0) with 0. rewrite Z.lxor_0_l, Z.lxor_comm.
  rewrite (lxor_shifted b0 _ 8) by lia. ring.
Qed.

Lemma pack1 b0 : 0 <= b0 < 2 ^ 8 -> U (0 .^ b0) = b0.
Proof.
  intros H0. rewrite U_xor, (U_small b0) by lia. change (U 0) with 0. apply Z.lxor_0_l.
Qed.

End Words.

(** ** The hash and MurmurHash3 *)

Section Reference.

Variable key : JS.jsstring.

Local Abbreviation U := JS.ToUint32.

Lemma code_at pre rest (j : nat) c i :
  key = pre ++ rest -> nth_error rest j = Some c ->
  i = Z.of_nat (List.length pre) + Z.of_nat j ->
  JS.and_code (JS.charCodeAt key i) 0xff = c mod 2 ^ 8.
Proof.
  intros Hk Hj ->. unfold JS.charCodeAt, JS.length.
  assert (Hlt : (j < List.length rest)%nat) by (apply nth_error_Some; congruence).
  rewrite Hk, length_app.
  replace ((0 <=? _) && (_ <? _)) with true.
  2: { symmetry. apply andb_true_intro. split; [apply Z.leb_le|apply Z.ltb_lt]; lia. }
  replace (Z.to_nat _) with (List.length pre + j)%nat by lia.
  rewrite nth_error_app2 by lia.
  replace (List.length pre + j - List.length pre)%nat with j by lia.
  rewrite Hj. simpl. apply and_ff.
Qed.

Lemma block_step_spec pre a b c d rest h :
  key = pre ++ a :: b :: c :: d :: rest ->
  exists h',
    block_step key (Z.of_nat (List.length pre)) h = (Z.of_nat (List.length pre) + 4, h') /\
    U h' = MurmurHash3.round (U h)
             (a mod 2 ^ 8 + 2 ^ 8 * (b mod 2 ^ 8) + 2 ^ 16 * (c mod 2 ^ 8)
              + 2 ^ 24 * (d mod 2 ^ 8)).
Proof.
  intros Hk. unfold block_step. cbv zeta. eexists. split; [reflexivity|].
  unfold MurmurHash3.round. cbv zeta. rewrite <- Zplus_mod_idemp_l.
  apply add_const_spec. apply mul_split_spec.
  apply (rotl_spec _ 13 19); [lia|lia|].
  apply xor_spec; trivial. apply mix_k1_spec.
  set (i := Z.of_nat (List.length pre)).
  rewrite (code_at pre _ 0 a i Hk eq_refl ltac:(lia)).
  rewrite (code_at pre _ 1 b (i + 1) Hk eq_refl ltac:(lia)).
  rewrite (code_at pre _ 2 c (i + 2) Hk eq_refl ltac:(lia)).
  rewrite (code_at pre _ 3 d (i + 3) Hk eq_refl ltac:(lia)).
  apply pack4; apply Z.mod_pos_bound; lia.
Qed.

Lemma blocks_S turns bytes i h :
  blocks key (S turns) bytes i h =
  if i <? bytes
  then let '(i', h') := block_step key i h in blocks key turns bytes i' h'
  else (i, h).
Proof. reflexivity. Qed.

Lemma blocks_done turns bytes i h : bytes <= i -> blocks key turns bytes i h = (i, h).
Proof.
  intros H. destruct turns; trivial. rewrite blocks_S.
  destruct (Z.ltb_spec i bytes); [lia|trivial].
Qed.

Lemma tail_1 i h :
  tail key 1 i h = h .^ mix_k1 (0 .^ JS.and_code (JS.charCodeAt key i) 0xff).
Proof. reflexivity. Qed.

Lemma tail_2 i h :
  tail key 2 i h =
  h .^ mix_k1 (0 .^ (JS.and_code (JS.charCodeAt key (i + 1)) 0xff .<< 8)
                 .^ JS.and_code (JS.charCodeAt key i) 0xff).
Proof. reflexivity. Qed.

Lemma tail_3 i h :
  tail key 3 i h =
  h .^ mix_k1 (0 .^ (JS.and_code (JS.charCodeAt key (i + 2)) 0xff .<< 16)
                 .^ (JS.and_code (JS.charCodeAt key (i + 1)) 0xff .<< 8)
                 .^ JS.and_code (JS.charCodeAt key i) 0xff).
Proof. reflexivity. Qed.

Lemma mod4_add i r : i mod 4 = 0 -> (i + r) mod 4 = r mod 4.
Proof. intros H. by rewrite Zplus_mod, H, Z.add_0_l, Z.mod_mod. Qed.

Lemma length_split pre rest :
  key = pre ++ rest ->
  JS.length key = Z.of_nat (List.length pre) + Z.of_nat (List.length rest).
Proof. intros ->. unfold JS.length. rewrite length_app. lia. Qed.

(** With fewer than four code units left the loop is over, and the
    [switch] mixes what is left. *)
Lemma tail_body turns rest pre h :
  key = pre ++ rest -> (List.length rest < 4)%nat ->
  Z.of_nat (List.length pre) mod 4 = 0 ->
  U (let '(i, h') :=
       blocks key turns (JS.length key - (JS.length key .& 3))
              (Z.of_nat (List.length pre)) h in
     tail key (JS.length key .& 3) i h')
  = MurmurHash3.body (map (fun c => c mod 2 ^ 8) rest) (U h).
Proof.
  intros Hk Hrest Hpre. pose proof (length_split pre rest Hk) as Hlen.
  assert (Hr : JS.length key .& 3 = Z.of_nat (List.length rest)).
  { rewrite and_3, Hlen, (mod4_add _ _ Hpre). apply Z.mod_small. lia. }
  rewrite Hr, blocks_done by lia.
  set (i := Z.of_nat (List.length pre)).
  assert (Hb : forall c, 0 <= c mod 2 ^ 8 < 2 ^ 8) by (intros c; apply Z.mod_pos_bound; lia).
  destruct rest as [|a [|b [|c [|d rest]]]]; cbn [List.length] in Hrest; try lia.
  - reflexivity.
  - change (Z.of_nat (List.length [a])) with 1. rewrite tail_1.
    apply xor_spec; trivial. apply mix_k1_spec.
    rewrite (code_at pre _ 0 a i Hk eq_refl ltac:(lia)).
    by apply pack1.
  - change (Z.of_nat (List.length [a; b])) with 2. rewrite tail_2.
    apply xor_spec; trivial. apply mix_k1_spec.
    rewrite (code_at pre _ 0 a i Hk eq_refl ltac:(lia)).
    rewrite (code_at pre _ 1 b (i + 1) Hk eq_refl ltac:(lia)).
    by apply pack2.
  - change (Z.of_nat (List.length [a; b; c])) with 3. rewrite tail_3.
    apply xor_spec; trivial. apply mix_k1_spec.
    rewrite (code_at pre _ 0 a i Hk eq_refl ltac:(lia)).
    rewrite (code_at pre _ 1 b (i + 1) Hk eq_refl ltac:(lia)).
    rewrite (code_at pre _ 2 c (i + 2) Hk eq_refl ltac:(lia)).
    by apply pack3.
Qed.

(** The loop over the blocks and the [switch] compute the body of the
    hash over the low bytes. *)
Lemma blocks_body turns : forall rest pre h,
  key = pre ++ rest -> (List.length rest <= turns)%nat ->
  Z.of_nat (List.length pre) mod 4 = 0 ->
  U (let '(i, h') :=
       blocks key turns (JS.length key - (JS.length key .& 3))
              (Z.of_nat (List.length pre)) h in
     tail key (JS.length key .& 3) i h')
  = MurmurHash3.body (map (fun c => c mod 2 ^ 8) rest) (U h).
Proof.
  induction turns as [|t IH]; intros rest pre h Hk Hturns Hpre;
    (destruct (le_lt_dec 4 (List.length rest)) as [Hlong|Hshort];
     [|by apply tail_body]);
    [lia|].
  destruct rest as [|a [|b [|c [|d rest]]]]; cbn [List.length] in Hlong, Hturns; try lia.
  pose proof (length_split _ _ Hk) as Hlen. cbn [List.length] in Hlen.
  rewrite blocks_S.
  assert (Hlt : (Z.of_nat (List.length pre) <?
                 JS.length key - (JS.length key .& 3)) = true).
  { apply Z.ltb_lt. rewrite and_3.
    pose proof (Z.mod_pos_bound (JS.length key) 4 ltac:(lia)). lia. }
  rewrite Hlt. destruct (block_step_spec pre a b c d rest h Hk) as (h' & -> & Hh').
  specialize (IH rest (pre ++ [a; b; c; d]) h').
  rewrite length_app in IH. cbn [List.length] in IH.
  replace (Z.of_nat (List.length pre + 4)) with (Z.of_nat (List.length pre) + 4) in IH by lia.
  rewrite IH.
  - by rewrite Hh'.
  - by rewrite <- app_assoc.
  - lia.
  - by rewrite (mod4_add _ _ Hpre).
Qed.

Lemma fmix_spec h :
  fmix key h = MurmurHash3.fmix32 (Z.lxor (U h) (U (JS.length key))).
Proof.
  unfold fmix, MurmurHash3.fmix32. cbv zeta.
  rewrite (shru_div _ 0), Z.pow_0_r, Z.div_1_r by lia.
  apply xor_shru_spec; [lia|]. apply mul_split_spec.
  apply xor_shru_spec; [lia|]. apply mul_split_spec.
  apply xor_shru_spec; [lia|]. apply U_xor.
Qed.

(** The hash through its parts: the body over the low bytes, the length
    and the final mix. *)
Lemma murmurhash3_32_gc_body seed :
  murmurhash3_32_gc key seed =
  MurmurHash3.fmix32
    (Z.lxor (MurmurHash3.body (map (fun c => c mod 2 ^ 8) key) (U seed))
            (U (JS.length key))).
Proof.
  unfold murmurhash3_32_gc. cbv zeta.
  pose proof (blocks_body (List.length key) key [] seed eq_refl (le_n _) eq_refl) as H.
  change (Z.of_nat (List.length [])) with 0 in H.
  destruct (blocks key _ _ 0 seed) as [i h1].
  by rewrite fmix_spec, H.
Qed.

End Reference.

Section Collisions.

Implicit Types (this : BloomFilter) (x y : JS.jsstring).

(** Strings with the same low bytes have the same hashes. *)
Lemma murmurhash3_32_gc_low_bytes x y seed :
  map (fun c => c mod 2 ^ 8) x = map (fun c => c mod 2 ^ 8) y ->
  murmurhash3_32_gc x seed = murmurhash3_32_gc y seed.
Proof.
  intros H. rewrite !murmurhash3_32_gc_body, H. do 3 f_equal.
  unfold JS.length. apply (f_equal (@List.length Z)) in H.
  rewrite !length_map in H. by rewrite H.
Qed.

(** [check] reads its item through the hashes only. *)
Lemma check_loop_hashes turns x y this : forall i,
  (forall seed, murmurhash3_32_gc x seed = murmurhash3_32_gc y seed) ->
  check_loop turns x i this = check_loop turns y i this.
Proof.
  induction turns as [|t IH]; intros i H; simpl; trivial.
  unfold bind, read, ret. destruct (Number.Zlt i (hashCount this)); trivial.
  rewrite H. destruct (is_zero _); trivial. by apply IH.
Qed.

End Collisions.

(** ** The prefix tree *)

Section ObjectFacts.

Context {A : Type}.
Implicit Types (o : Object.t A) (k : JS.jsstring) (v : A).

Lemma Object_get_set_eq o k v : Object.get (Object.set o k v) k = Some v.
Proof.
  induction o as [|[k' v'] o IH]; simpl.
  - by rewrite decide_True.
  - destruct (decide (k' = k)) as [->|Hne]; simpl.
    + by rewrite decide_True.
    + by rewrite decide_False.
Qed.

Lemma Object_get_set_ne o k k' v :
  k ≠ k' -> Object.get (Object.set o k v) k' = Object.get o k'.
Proof.
  intros Hne. induction o as [|[k0 v0] o IH]; simpl.
  - by rewrite decide_False.
  - destruct (decide (k0 = k)) as [->|Hne0]; simpl.
    + by rewrite !decide_False.
    + destruct (decide (k0 = k')); auto.
Qed.

Lemma Object_set_split o k v :
  match Object.get o k with
  | None => Object.set o k v = o ++ [(k, v)]
  | Some v0 =>
      exists l1 l2, o = l1 ++ (k, v0) :: l2 /\ Object.set o k v = l1 ++ (k, v) :: l2
  end.
Proof.
  induction o as [|[k0 v0] o IH]; simpl; trivial.
  destruct (decide (k0 = k)) as [->|Hne].
  - by exists [], o.
  - destruct (Object.get o k) as [v1|].
    + destruct IH as (l1 & l2 & -> & ->). by exists ((k0, v0) :: l1), l2.
    + by rewrite IH.
Qed.

Lemma Object_set_set o k v v' :
  Object.set (Object.set o k v) k v' = Object.set o k v'.
Proof.
  induction o as [|[k0 v0] o IH]; simpl.
  - by rewrite decide_True.
  - destruct (decide (k0 = k)) as [->|Hne]; simpl.
    + by rewrite decide_True.
    + by rewrite decide_False, IH.
Qed.

Lemma entries_Permutation o : Object.entries o ≡ₚ o.
Proof.
  unfold Object.entries. rewrite merge_sort_Permutation. apply filter_app_complement.
Qed.

End ObjectFacts.

Section TrieFacts.

Import Trie.

Implicit Types (n node : TrieNode) (cs ps : list JS.jsstring) (w p x path : JS.jsstring).

Lemma concat_Permutation {A} (l l' : list (list A)) : l ≡ₚ l' -> concat l ≡ₚ concat l'.
Proof.
  induction 1 as [|y l l' _ IH|y z l|l l' l'' _ IH1 _ IH2]; simpl; trivial.
  - by rewrite IH.
  - rewrite !app_assoc. f_equiv. apply Permutation_app_comm.
  - by rewrite IH1.
Qed.

(** The characters of a string make up the string. *)
Lemma chars_concat_pair w : concat (chars w) = w /\ forall c, concat (chars (c :: w)) = c :: w.
Proof.
  induction w as [|d w [IH1 IH2]].
  - split; trivial.
  - split; [apply IH2|]. intros c.
    change (chars (c :: d :: w)) with
      (if lead c && trail d then [c; d] :: chars w else [c] :: chars (d :: w)).
    destruct (lead c && trail d); simpl.
    + by rewrite IH1.
    + f_equal. apply IH2.
Qed.

Lemma concat_chars w : concat (chars w) = w.
Proof. apply chars_concat_pair. Qed.

Lemma chars_inj w w' : chars w = chars w' -> w = w'.
Proof. intros H. rewrite <- (concat_chars w), <- (concat_chars w'). by rewrite H. Qed.

Lemma walk_new cs : default TrieNode_new (walk cs TrieNode_new) = TrieNode_new.
Proof. by destruct cs. Qed.

Lemma walk_app cs1 cs2 n : walk (cs1 ++ cs2) n = walk cs1 n ≫= walk cs2.
Proof.
  revert n. induction cs1 as [|c cs1 IH]; intros n; simpl; trivial.
  destruct (Object.get (children n) c); simpl; trivial.
Qed.

(** Along the inserted path the walk reaches the inserted rest. *)
Lemma walk_insert_from ps rest n :
  walk ps (insert_from (ps ++ rest) n) =
  Some (insert_from rest (default TrieNode_new (walk ps n))).
Proof.
  revert n. induction ps as [|c ps IH]; intros n; simpl; trivial.
  rewrite Object_get_set_eq, IH.
  destruct (Object.get (children n) c); simpl; trivial. by rewrite walk_new.
Qed.

(** Off the inserted path the walk is what it was. *)
Lemma walk_insert_other ps cs n :
  ¬ ps `prefix_of` cs -> walk ps (insert_from cs n) = walk ps n.
Proof.
  revert cs n. induction ps as [|a ps IH]; intros cs n Hp.
  { destruct Hp. apply prefix_nil. }
  destruct cs as [|c cs]; simpl; trivial.
  destruct (decide (c = a)) as [->|Hne].
  - rewrite Object_get_set_eq.
    assert (Hp' : ¬ ps `prefix_of` cs).
    { intros H. apply Hp. by apply prefix_cons. }
    rewrite IH by trivial.
    destruct (Object.get (children n) a); trivial.
    destruct ps; trivial. destruct Hp'. apply prefix_nil.
  - by rewrite Object_get_set_ne.
Qed.

Lemma dfs_eq node path :
  dfs node path =
  (if isEndOfWord node then [path] else []) ++
  concat (map snd (Object.entries
    (map (fun e => (fst e, dfs (snd e) (path ++ fst e))) (children node)))).
Proof. by destruct node. Qed.

Lemma dfs_Permutation node path :
  dfs node path ≡ₚ
  (if isEndOfWord node then [path] else []) ++
  concat (map (fun e => dfs (snd e) (path ++ fst e)) (children node)).
Proof.
  rewrite dfs_eq. f_equiv. rewrite entries_Permutation, map_map. reflexivity.
Qed.

Lemma dfs_new path : dfs TrieNode_new path = [].
Proof. reflexivity. Qed.

Lemma marked_new cs : marked cs TrieNode_new = false.
Proof. by destruct cs. Qed.

(** An insertion adds its word to the words below a node, once, unless it
    was there. *)
Lemma dfs_insert_from cs : forall n path,
  dfs (insert_from cs n) path ≡ₚ
  if marked cs n then dfs n path else (path ++ concat cs) :: dfs n path.
Proof.
  induction cs as [|c cs IH]; intros n path.
  - unfold marked. simpl. rewrite app_nil_r, !dfs_eq. simpl.
    destruct (isEndOfWord n); trivial.
  - etransitivity; [apply dfs_Permutation|].
    pose proof (dfs_Permutation n path) as Hn. simpl.
    unfold marked. simpl.
    pose proof (Object_set_split (children n) c
      (insert_from cs (match Object.get (children n) c with
                       | Some child => child | None => TrieNode_new end))) as Hs.
    destruct (Object.get (children n) c) as [n0|] eqn:Eg.
    + destruct Hs as (l1 & l2 & Hch & ->). rewrite Hch in Hn.
      rewrite !map_app, !concat_app in *. simpl in *.
      rewrite IH. fold (marked cs n0). destruct (marked cs n0); rewrite Hn; trivial.
      simpl. rewrite <- !Permutation_middle. by rewrite (app_assoc path).
    + rewrite Hs. rewrite map_app, concat_app. simpl.
      rewrite IH, marked_new, dfs_new, app_nil_r, Hn.
      rewrite <- !Permutation_middle. by rewrite app_nil_r, (app_assoc path).
Qed.

Lemma marked_app cs1 cs2 n :
  marked (cs1 ++ cs2) n = marked cs2 (default TrieNode_new (walk cs1 n)).
Proof.
  unfold marked. rewrite walk_app.
  destruct (walk cs1 n) as [m|]; simpl; trivial.
  fold (marked cs2 TrieNode_new). by rewrite marked_new.
Qed.

Lemma prefix_chars p w rest : chars w = chars p ++ rest -> w = p ++ concat rest.
Proof.
  intros H. rewrite <- (concat_chars w), H, concat_app. by rewrite concat_chars.
Qed.

(** [insert] marks its word and changes no other answer of [search]. *)
Lemma search_insert x w (this : Trie.t) :
  search x (insert w this) = bool_decide (x = w) || search x this.
Proof.
  unfold search, insert. simpl.
  destruct (decide (chars x `prefix_of` chars w)) as [[rest Hr]|Hn].
  - rewrite Hr, walk_insert_from. destruct rest as [|c rest]; simpl.
    + rewrite app_nil_r in Hr. apply chars_inj in Hr as ->.
      by rewrite bool_decide_eq_true_2.
    + rewrite bool_decide_eq_false_2.
      * by destruct (walk (chars x) (root this)).
      * intros ->. apply (f_equal List.length) in Hr.
        rewrite length_app in Hr. simpl in Hr. lia.
  - rewrite walk_insert_other by trivial.
    rewrite bool_decide_eq_false_2; trivial. by intros ->.
Qed.

(** [insert] opens the prefixes of its word and closes none. *)
Lemma startsWith_insert p w (this : Trie.t) :
  startsWith p (insert w this) =
  bool_decide (chars p `prefix_of` chars w) || startsWith p this.
Proof.
  unfold startsWith, insert. simpl.
  destruct (decide (chars p `prefix_of` chars w)) as [[rest Hr]|Hn].
  - rewrite Hr, walk_insert_from. rewrite bool_decide_eq_true_2; trivial.
    by exists rest.
  - rewrite walk_insert_other by trivial. by rewrite bool_decide_eq_false_2.
Qed.

(** [insert] adds its word, once, to the lists of the prefixes of the
    word, unless the word was stored. *)
Lemma getWordsWithPrefix_insert p w (this : Trie.t) :
  getWordsWithPrefix p (insert w this) ≡ₚ
  if bool_decide (chars p `prefix_of` chars w) && negb (search w this)
  then w :: getWordsWithPrefix p this
  else getWordsWithPrefix p this.
Proof.
  unfold getWordsWithPrefix, search, insert. simpl.
  destruct (decide (chars p `prefix_of` chars w)) as [[rest Hr]|Hn].
  - rewrite bool_decide_eq_true_2 by (by exists rest).
    rewrite Hr, walk_insert_from, dfs_insert_from.
    fold (marked (chars p ++ rest) (root this)). rewrite marked_app.
    rewrite <- (prefix_chars p w rest Hr).
    destruct (walk (chars p) (root this)) as [m|]; simpl;
      destruct (marked rest _); trivial.
  - rewrite walk_insert_other by trivial. by rewrite bool_decide_eq_false_2.
Qed.

Lemma chars_nil w : chars w = [] <-> w = [].
Proof.
  split; [|by intros ->]. intros H. by rewrite <- (concat_chars w), H.
Qed.

Lemma walk_new_Some cs m : walk cs TrieNode_new = Some m -> cs = [] /\ m = TrieNode_new.
Proof. destruct cs; [by intros [= <-]|discriminate]. Qed.

Lemma search_new x : search x Trie.new = false.
Proof.
  unfold search. simpl. destruct (walk _ _) as [m|] eqn:E; trivial.
  by apply walk_new_Some in E as [_ ->].
Qed.

Lemma startsWith_new p : startsWith p Trie.new = bool_decide (p = []).
Proof.
  unfold startsWith. simpl. destruct (walk _ _) as [m|] eqn:E.
  - apply walk_new_Some in E as [E _]. apply chars_nil in E as ->. trivial.
  - rewrite bool_decide_eq_false_2; trivial. by intros ->.
Qed.

Lemma getWordsWithPrefix_new p : getWordsWithPrefix p Trie.new = [].
Proof.
  unfold getWordsWithPrefix. simpl. destruct (walk _ _) as [m|] eqn:E; trivial.
  by apply walk_new_Some in E as [_ ->].
Qed.

Lemma inserts_snoc words w (this : Trie.t) :
  inserts (words ++ [w]) this = insert w (inserts words this).
Proof. unfold inserts. by rewrite foldl_snoc. Qed.

Lemma search_inserts words x : forall this : Trie.t,
  search x (inserts words this) = bool_decide (x ∈ words) || search x this.
Proof.
  induction words as [|w words IH]; intros this; simpl; trivial.
  change (inserts (w :: words) this) with (inserts words (insert w this)).
  rewrite IH, search_insert.
  destruct (decide (x = w)) as [->|Hne].
  - rewrite (bool_decide_eq_true_2 (w = w)), (bool_decide_eq_true_2 (w ∈ w :: words));
      trivial; [by rewrite orb_true_r|by left].
  - rewrite (bool_decide_eq_false_2 (x = w)) by trivial. simpl.
    f_equal. apply bool_decide_ext. rewrite elem_of_cons. tauto.
Qed.

End TrieFacts.

(** ** Filters reached from a construction *)

Section Reached.

Variable Math_log : number -> number.
Variable Number_exponentiate : number -> number -> number.

Implicit Types (this : BloomFilter) (item : JS.jsstring).

(** The constructor returns whenever the computed size is an array
    length. *)
Lemma new_returns n p z :
  Number.integer (getSize Math_log Number_exponentiate n p) = Some z ->
  0 <= z <= 2 ^ 32 - 1 ->
  new Math_log Number_exponentiate n p =
  inr {| expectedItems := n;
         falsePositiveRate := p;
         size := getSize Math_log Number_exponentiate n p;
         hashCount := getHashCount Math_log (getSize Math_log Number_exponentiate n p) n;
         bitArray := Array.fill {| Array.length := z; Array.props := ∅ |} 0 |}.
Proof.
  intros Hz Hrange. unfold new, Array.new. cbv zeta. rewrite Hz.
  replace ((0 <=? z) && (z <=? 2 ^ 32 - 1)) with true; [reflexivity|].
  symmetry. apply andb_true_intro. split; apply Z.leb_le; lia.
Qed.

(** A filter reached from a construction with valid arguments by [add]
    calls: its size is a positive integer and the length of its bit
    array, and its hash count is at most [2 ^ 53]. *)
Lemma reached_valid n p this0 items turns0 this :
  valid_arguments n p -> engine_ok Math_log Number_exponentiate p ->
  new Math_log Number_exponentiate n p = inr this0 ->
  adds turns0 items this0 = Some (tt, this) ->
  exists z, 1 <= z <= 2 ^ 32 - 1 /\
    Number.integer (size this) = Some z /\
    Array.length (bitArray this) = z /\
    Number.Zlt (2 ^ 53) (hashCount this) = false.
Proof.
  intros Hv He Hnew Hadds.
  destruct (new_valid _ _ n p this0 Hv He Hnew) as (z & Hz1 & Hz & Ha & _ & _ & Hk).
  exists z. split; [exact Hz1|].
  destruct (counters_total _ Hk) as (t0 & cs & Hcs).
  apply (adds_more _ (max turns0 t0)) in Hadds; [|lia].
  rewrite (adds_keys _ _ _ cs (Hcs (max turns0 t0) ltac:(lia))) in Hadds.
  injection Hadds as <-. cbn [size hashCount bitArray set_bitArray].
  split; [exact Hz|]. split; [|exact Hk].
  rewrite writes_length; [by rewrite Ha|].
  intros k Hin. apply list_elem_of_bind in Hin as (item & Hin & _).
  apply list_elem_of_fmap in Hin as (c & -> & _).
  pose proof (murmurhash3_32_gc_range item c) as Hh.
  exists (murmurhash3_32_gc item c mod z). split.
  - apply rem_integer; trivial; lia.
  - rewrite Ha. simpl. apply Z.mod_pos_bound. lia.
Qed.

(** With an integral size that is the length of the bit array, [add]
    writes below the length only. *)
Lemma add_in_range turns item this this' z :
  Number.integer (size this) = Some z -> 0 < z ->
  Array.length (bitArray this) = z ->
  add turns item this = Some (tt, this') ->
  Array.length (bitArray this') = z /\
  forall k, (forall i, 0 <= i < z -> k <> KInt i) ->
    Array.get (bitArray this') k = Array.get (bitArray this) k.
Proof.
  intros Hz Hpos Hlen Hadd. rewrite add_spec in Hadd.
  destruct (counters turns 0 (hashCount this)) as [cs|]; [|discriminate].
  injection Hadd as <-. cbn [bitArray set_bitArray].
  assert (Hks : forall k, k ∈ key_at item (size this) <$> cs ->
            exists j, k = KInt j /\ 0 <= j < z).
  { intros k Hk. apply list_elem_of_fmap in Hk as (c & -> & _).
    exists (murmurhash3_32_gc item c mod z).
    pose proof (murmurhash3_32_gc_range item c) as Hh.
    unfold key_at. rewrite (rem_integer _ _ z Hz) by lia.
    split; trivial. apply Z.mod_pos_bound. lia. }
  split.
  - rewrite writes_length; [exact Hlen|]. intros k Hk. rewrite Hlen. by apply Hks.
  - intros k Hout. apply writes_get_other. intros Hin.
    apply Hks in Hin as (j & -> & Hj). by apply (Hout j).
Qed.

(** [check] reads the bit array at its keys only. *)
Lemma check_loop_reads turns item this (a : Array.t) :
  (forall c, Array.get a (key_at item (size this) c) =
             Array.get (bitArray this) (key_at item (size this) c)) ->
  forall i,
    option_map fst (check_loop turns item i (set_bitArray this a)) =
    option_map fst (check_loop turns item i this).
Proof.
  intros H. induction turns as [|t IH]; intros i; simpl; trivial.
  unfold bind, read, ret.
  change (hashCount (set_bitArray this a)) with (hashCount this).
  destruct (Number.Zlt i (hashCount this)); trivial.
  change (size (set_bitArray this a)) with (size this).
  change (bitArray (set_bitArray this a)) with a.
  fold (key_at item (size this) i). rewrite H.
  destruct (is_zero _); [reflexivity|apply IH].
Qed.

End Reached.

(** ** The exact formula of the size

    [Math.log(2)] against the real [ln 2]: a lower bound of [exp (a / b)]
    by repeated squaring in fixed point gives [ln 2 < 111975815 /
    161546953]. *)

Section ExactFormula.

Import Reals Lra.

Local Open Scope R_scope.

Lemma IZR_div_le (a b : Z) : (0 < b)%Z -> IZR (a / b) <= IZR a / IZR b.
Proof.
  intros Hb. assert (Hb' : 0 < IZR b) by (by apply IZR_lt).
  apply Rmult_le_reg_r with (IZR b); trivial.
  replace (IZR a / IZR b * IZR b) with (IZR a) by (field; lra).
  rewrite <- mult_IZR. apply IZR_le. rewrite Z.mul_comm. apply Z.mul_div_le. lia.
Qed.

Lemma squarings_exp (P : Z) (k : nat) : (0 < P)%Z -> forall A y,
  (0 <= A)%Z -> IZR A / IZR P <= exp y ->
  IZR (squarings P k A) / IZR P <= exp (2 ^ k * y).
Proof.
  intros HP. assert (HP' : 0 < IZR P) by (by apply IZR_lt).
  induction k as [|k IH]; intros A y HA H.
  - simpl. by rewrite Rmult_1_l.
  - simpl squarings. replace (2 ^ S k * y) with (2 ^ k * (2 * y)) by (simpl; ring).
    apply IH; [apply Z.div_pos; nia|].
    replace (2 * y) with (y + y) by ring. rewrite exp_plus.
    assert (H0 : 0 <= IZR A / IZR P).
    { apply Rmult_le_pos; [by apply IZR_le|]. left. by apply Rinv_0_lt_compat. }
    apply Rle_trans with (IZR A / IZR P * (IZR A / IZR P)).
    + apply Rmult_le_reg_r with (IZR P); trivial.
      replace (IZR A / IZR P * (IZR A / IZR P) * IZR P) with (IZR (A * A) / IZR P)
        by (rewrite mult_IZR; field; lra).
      replace (IZR (A * A / P) / IZR P * IZR P) with (IZR (A * A / P)) by (field; lra).
      by apply IZR_div_le.
    + by apply Rmult_le_compat.
Qed.

(** A lower bound of [exp (a / b)], by [k] squarings of [1 + a / (b 2^k)]
    in fixed point with denominator [P]. *)
Lemma exp_lower (a b P : Z) (k : nat) :
  (0 < a)%Z -> (0 < b)%Z -> (0 < P)%Z ->
  IZR (squarings P k (P + a * P / (b * 2 ^ Z.of_nat k))) / IZR P <= exp (IZR a / IZR b).
Proof.
  intros Ha Hb HP.
  assert (Ha' : 0 < IZR a) by (by apply IZR_lt).
  assert (Hb' : 0 < IZR b) by (by apply IZR_lt).
  assert (HP' : 0 < IZR P) by (by apply IZR_lt).
  assert (HN : (0 < 2 ^ Z.of_nat k)%Z) by (apply Z.pow_pos_nonneg; lia).
  assert (HN' : 0 < 2 ^ k) by (apply pow_lt; lra).
  assert (HNR : IZR (2 ^ Z.of_nat k) = 2 ^ k) by (by rewrite <- pow_IZR).
  replace (IZR a / IZR b) with (2 ^ k * (IZR a / IZR b / 2 ^ k)) by (field; lra).
  apply (squarings_exp P k HP).
  - assert (0 <= a * P / (b * 2 ^ Z.of_nat k))%Z by (apply Z.div_pos; nia). lia.
  - set (x := IZR a / IZR b / 2 ^ k).
    assert (Hx : 0 < x).
    { unfold x. apply Rdiv_lt_0_compat; trivial. by apply Rdiv_lt_0_compat. }
    apply Rle_trans with (1 + x); [|left; apply exp_ineq1; lra].
    rewrite plus_IZR.
    pose proof (IZR_div_le (a * P) (b * 2 ^ Z.of_nat k) ltac:(nia)) as Hd.
    rewrite !mult_IZR, HNR in Hd.
    apply Rmult_le_reg_r with (IZR P); trivial.
    replace ((IZR P + IZR (a * P / (b * 2 ^ Z.of_nat k))) / IZR P * IZR P)
      with (IZR P + IZR (a * P / (b * 2 ^ Z.of_nat k))) by (field; lra).
    replace ((1 + x) * IZR P) with (IZR P + IZR a * IZR P / (IZR b * 2 ^ k))
      by (unfold x; field; lra).
    lra.
Qed.

Lemma squarings_check :
  (2 * 2 ^ 256 <?
   squarings (2 ^ 256) 64
     (2 ^ 256 + 111975815 * 2 ^ 256 / (161546953 * 2 ^ Z.of_nat 64)))%Z = true.
Proof. vm_compute. reflexivity. Qed.

Lemma ln_2_upper : ln 2 < IZR 111975815 / IZR 161546953.
Proof.
  pose proof (exp_lower 111975815 161546953 (2 ^ 256) 64 ltac:(lia) ltac:(lia)
                ltac:(apply Z.pow_pos_nonneg; lia)) as H.
  pose proof squarings_check as Hc. apply Z.ltb_lt in Hc. apply IZR_lt in Hc.
  revert H Hc. generalize (squarings (2 ^ 256) 64
     (2 ^ 256 + 111975815 * 2 ^ 256 / (161546953 * 2 ^ Z.of_nat 64))).
  assert (HP : 0 < IZR (2 ^ 256)) by (apply IZR_lt, Z.pow_pos_nonneg; lia).
  revert HP. generalize (2 ^ 256)%Z. intros P HP S H Hc.
  rewrite mult_IZR in Hc.
  assert (H2 : 2 < exp (IZR 111975815 / IZR 161546953)).
  { apply Rlt_le_trans with (IZR S / IZR P); trivial.
    apply Rmult_lt_reg_r with (IZR P); trivial.
    replace (IZR S / IZR P * IZR P) with (IZR S) by (field; lra). exact Hc. }
  rewrite <- (ln_exp (IZR 111975815 / IZR 161546953)).
  apply ln_increasing; lra.
Qed.

(** The exact value of the size formula at [n = 111975815], [p = 1/2]
    lies above [161546953]. *)
Lemma exact_size_above :
  IZR 161546953 < - (IZR 111975815 * ln (/ 2)) / ln 2 ^ 2.
Proof.
  rewrite ln_Rinv by lra.
  assert (H0 : 0 < ln 2) by (rewrite <- ln_1; apply ln_increasing; lra).
  pose proof ln_2_upper as H.
  replace (- (IZR 111975815 * - ln 2) / ln 2 ^ 2) with (IZR 111975815 / ln 2)
    by (field; lra).
  apply Rmult_lt_reg_r with (ln 2); trivial.
  replace (IZR 111975815 / ln 2 * ln 2) with (IZR 111975815) by (field; lra).
  apply Rmult_lt_reg_r with (/ IZR 161546953); [apply Rinv_0_lt_compat; lra|].
  replace (IZR 161546953 * ln 2 * / IZR 161546953) with (ln 2) by (field; lra).
  exact H.
Qed.

End ExactFormula.

(** * The stated properties *)

Section Claims.

Variable Math_log : number -> number.
Variable Number_exponentiate : number -> number -> number.

Implicit Types (this : BloomFilter) (item : JS.jsstring).

(** C1 (no false negatives): on every filter constructed with valid
    arguments, whatever was added to it since, [add(x)] returns and
    [check(x)] called right after it returns [true]. *)
Theorem no_false_negatives n p this0 items turns0 this item :
  valid_arguments n p -> engine_ok Math_log Number_exponentiate p ->
  new Math_log Number_exponentiate n p = inr this0 ->
  adds turns0 items this0 = Some (tt, this) ->
  exists turns this', forall turns', (turns <= turns')%nat ->
    add turns' item this = Some (tt, this') /\
    check turns' item this' = Some (true, this').
Proof.
  intros Hv He Hnew Hadds.
  destruct (reached_valid _ _ n p this0 items turns0 this Hv He Hnew Hadds)
    as (z & _ & _ & _ & Hk).
  destruct (add_check_return this item Hk) as (turns & this' & b & H).
  exists turns, this'. intros turns' Hle. destruct (H turns' Hle) as [Hadd _].
  split; [exact Hadd|]. apply (add_then_check _ _ _ _ Hadd).
Qed.

(** C2, as the code has it: the constructor checks nothing itself.  The
    only error it raises is the [RangeError] of [new Array], exactly when
    the computed size is not an array length (an integer in
    [[0, 2^32 - 1]]); otherwise it returns a filter with every field
    initialised and as many zero bits as the size says.  With valid
    arguments the computed size is at least 1, so that they are refused
    exactly when the size exceeds [2^32 - 1] (or is infinite).  The memory
    an engine has for a large array is not part of the model. *)
Theorem construction_outcome n p :
  match new Math_log Number_exponentiate n p with
  | inl e =>
      e = Array.RangeError /\
      forall z, Number.integer (getSize Math_log Number_exponentiate n p) = Some z ->
                ~ 0 <= z <= 2 ^ 32 - 1
  | inr this =>
      exists z,
        Number.integer (getSize Math_log Number_exponentiate n p) = Some z /\
        0 <= z <= 2 ^ 32 - 1 /\
        this = {| expectedItems := n;
                  falsePositiveRate := p;
                  size := getSize Math_log Number_exponentiate n p;
                  hashCount :=
                    getHashCount Math_log (getSize Math_log Number_exponentiate n p) n;
                  bitArray := Array.fill {| Array.length := z; Array.props := ∅ |} 0 |} /\
        forall i, 0 <= i < z -> Array.get (bitArray this) (KInt i) = Some 0
  end /\
  (valid_arguments n p -> engine_ok Math_log Number_exponentiate p ->
   (1 <=? getSize Math_log Number_exponentiate n p)%float = true /\
   (forall z, Number.integer (getSize Math_log Number_exponentiate n p) = Some z -> 1 <= z) /\
   (new Math_log Number_exponentiate n p = inl Array.RangeError <->
    forall z, Number.integer (getSize Math_log Number_exponentiate n p) = Some z ->
              2 ^ 32 - 1 < z)).
Proof.
  split.
  - destruct (new Math_log Number_exponentiate n p) as [e|this] eqn:Hnew.
    + split; [by destruct e|]. intros z Hz Hrange.
      rewrite (new_returns _ _ n p z Hz Hrange) in Hnew. discriminate.
    + pose proof (new_inr _ _ _ _ _ Hnew) as (z & Hz & Hrange & Hthis).
      exists z. split; [exact Hz|]. split; [exact Hrange|]. split; [exact Hthis|].
      intros i Hi. rewrite Hthis. simpl. apply fill_get. simpl. lia.
  - intros Hv He. pose proof (getSize_above _ _ n p Hv He) as Hs.
    split; [apply above_leb_one, Hs|].
    assert (H1 : forall z,
              Number.integer (getSize Math_log Number_exponentiate n p) = Some z -> 1 <= z).
    { intros z Hz. apply (SFabove_integer _ _ _ Hs Hz). }
    split; [exact H1|]. split.
    + intros Hnew z Hz. destruct (Z_lt_le_dec (2 ^ 32 - 1) z) as [Hlt|Hle]; trivial.
      rewrite (new_returns _ _ n p z Hz) in Hnew; [discriminate|].
      specialize (H1 z Hz). lia.
    + intros Hbig. destruct (new Math_log Number_exponentiate n p) as [e|this] eqn:Hnew.
      * by destruct e.
      * apply new_inr in Hnew as (z & Hz & Hrange & _). specialize (Hbig z Hz). lia.
Qed.

(** C3 (monotonicity): after any sequence of [add] calls every property
    that held [1] still holds [1], and every [check] that answered [true]
    still answers [true]. *)
Theorem bits_monotone this items turns this' :
  adds turns items this = Some (tt, this') ->
  (forall k, Array.get (bitArray this) k = Some 1 ->
             Array.get (bitArray this') k = Some 1) /\
  (forall item turns',
     check turns' item this = Some (true, this) ->
     check turns' item this' = Some (true, this')).
Proof.
  intros H. apply adds_spec in H as [ks ->]. split.
  - intros k Hk. simpl. by apply writes_keep_one.
  - intros item turns' Hc. apply check_loop_true in Hc as (cs & Hcs & Hall).
    apply check_loop_true. exists cs. split; [exact Hcs|].
    intros c Hc. simpl.
    destruct (is_zero (Array.get (writes ks (bitArray this)) (key_at item (size this) c)))
      eqn:E; trivial.
    apply writes_is_zero in E. rewrite (Hall c Hc) in E. discriminate.
Qed.

(** C4 (idempotence): [add(x); add(x)] ends in the state [add(x)] ends
    in. *)
Theorem add_idempotent this item turns this' :
  add turns item this = Some (tt, this') ->
  (add turns item ;; add turns item) this = Some (tt, this').
Proof.
  intros H. unfold bind. rewrite H. apply (add_twice _ _ _ _ H).
Qed.

(** C5 (empty filter): on a filter just constructed with valid arguments
    [check] answers [false] for every item. *)
Theorem fresh_filter_rejects n p this item turns :
  valid_arguments n p -> engine_ok Math_log Number_exponentiate p ->
  new Math_log Number_exponentiate n p = inr this ->
  (0 < turns)%nat ->
  check turns item this = Some (false, this).
Proof.
  intros Hv He Hnew Hturns.
  destruct (new_valid _ _ n p this Hv He Hnew) as (z & Hz1 & Hz & Ha & _ & Hk & _).
  destruct turns as [|t]; [lia|]. unfold check. simpl.
  unfold bind, read, ret. unfold Number.Zlt. rewrite (SFZlt_above _ _ Hk).
  pose proof (murmurhash3_32_gc_range item 0) as Hh.
  rewrite (rem_integer _ _ z Hz) by lia.
  rewrite Ha, fill_get; [reflexivity|].
  simpl. apply Z.mod_pos_bound. lia.
Qed.

(** C6 (determinism): two filters constructed from the same arguments and
    given the same [add] calls end in the same state and answer every
    [check] alike, whatever turns each run is given. *)
Theorem two_run_determinism n p this1 this2 items turns1 turns2 this1' this2' :
  new Math_log Number_exponentiate n p = inr this1 ->
  new Math_log Number_exponentiate n p = inr this2 ->
  adds turns1 items this1 = Some (tt, this1') ->
  adds turns2 items this2 = Some (tt, this2') ->
  this1' = this2' /\
  forall item t1 t2 b1 b2 s1 s2,
    check t1 item this1' = Some (b1, s1) ->
    check t2 item this2' = Some (b2, s2) ->
    b1 = b2.
Proof.
  intros H1 H2 Ha1 Ha2. assert (this1 = this2) as <- by congruence.
  apply (adds_more _ (max turns1 turns2)) in Ha1; [|lia].
  apply (adds_more _ (max turns1 turns2)) in Ha2; [|lia].
  assert (this1' = this2') as <- by congruence. split; trivial.
  intros item t1 t2 b1 b2 s1 s2 Hc1 Hc2.
  apply (check_loop_more _ (max t1 t2)) in Hc1; [|lia].
  apply (check_loop_more _ (max t1 t2)) in Hc2; [|lia].
  unfold check in *. congruence.
Qed.

(** C7, as the code has it: the size of a filter constructed with valid
    arguments is [Math.ceil] of the binary64 value of
    [-(n * Math.log(p)) / Math.log(2) ** 2], its bit array has that length,
    its hash count is [Math.ceil] of the binary64 value of
    [(size / n) * Math.log(2)], and both are at least 1.  These are the
    formulas as the engine evaluates them, every operation rounded; they
    are not the exact real values. *)
Theorem sizing_formulas n p this :
  valid_arguments n p -> engine_ok Math_log Number_exponentiate p ->
  new Math_log Number_exponentiate n p = inr this ->
  size this =
    Number.Math_ceil (- (n * Math_log p) / Number_exponentiate (Math_log 2) 2)%float /\
  Number.integer (size this) = Some (Array.length (bitArray this)) /\
  hashCount this = Number.Math_ceil ((size this / n) * Math_log 2)%float /\
  (1 <=? size this)%float = true /\
  1 <= Array.length (bitArray this) /\
  (1 <=? hashCount this)%float = true.
Proof.
  intros Hv He Hnew.
  destruct (new_valid _ _ n p this Hv He Hnew) as (z & Hz1 & Hz & Ha & Hs & Hk & _).
  apply new_inr in Hnew as (z' & _ & _ & Hthis).
  assert (Hlen : Array.length (bitArray this) = z) by (rewrite Ha; reflexivity).
  rewrite Hlen. split; [rewrite Hthis; reflexivity|]. split; [exact Hz|].
  split; [rewrite Hthis; reflexivity|].
  split; [apply above_leb_one, Hs|]. split; [lia|apply above_leb_one, Hk].
Qed.

(** C8 (purity of [check]): a call of [check] leaves the filter, all five
    fields of it, as it was. *)
Theorem check_is_pure this item turns b this' :
  check turns item this = Some (b, this') ->
  this' = this /\
  bitArray this' = bitArray this /\ size this' = size this /\
  hashCount this' = hashCount this /\ expectedItems this' = expectedItems this /\
  falsePositiveRate this' = falsePositiveRate this.
Proof.
  intros H. apply check_loop_pure in H. subst this'. auto 6.
Qed.

(** C9 (totality): on every filter reached from a construction with valid
    arguments by [add] calls, [add] and [check] return for every item (the
    model has no other outcome than returning or running on).  Every key
    they compute is an index below the size, which is the length of the
    bit array: [add] leaves the length and every property that is not
    such an index as they were, and the answer of [check] does not depend
    on any property that is not such an index. *)
Theorem add_check_total n p this0 items turns0 this :
  valid_arguments n p -> engine_ok Math_log Number_exponentiate p ->
  new Math_log Number_exponentiate n p = inr this0 ->
  adds turns0 items this0 = Some (tt, this) ->
  exists z, Number.integer (size this) = Some z /\ 1 <= z /\
    Array.length (bitArray this) = z /\
    forall item,
      (exists turns this' b, forall turns', (turns <= turns')%nat ->
         add turns' item this = Some (tt, this') /\
         check turns' item this = Some (b, this)) /\
      (forall i, exists j,
         Rem.rem (murmurhash3_32_gc item i) (size this) = KInt j /\ 0 <= j < z) /\
      (forall turns this', add turns item this = Some (tt, this') ->
         Array.length (bitArray this') = z /\
         forall k, (forall i, 0 <= i < z -> k <> KInt i) ->
           Array.get (bitArray this') k = Array.get (bitArray this) k) /\
      (forall turns a,
         (forall i, 0 <= i < z ->
            Array.get a (KInt i) = Array.get (bitArray this) (KInt i)) ->
         option_map fst (check turns item (set_bitArray this a)) =
         option_map fst (check turns item this)).
Proof.
  intros Hv He Hnew Hadds.
  destruct (reached_valid _ _ n p this0 items turns0 this Hv He Hnew Hadds)
    as (z & Hz1 & Hz & Hlen & Hk).
  exists z. split; [exact Hz|]. split; [lia|]. split; [exact Hlen|].
  intros item.
  assert (Hkey : forall i, exists j,
            Rem.rem (murmurhash3_32_gc item i) (size this) = KInt j /\ 0 <= j < z).
  { intros i. exists (murmurhash3_32_gc item i mod z).
    pose proof (murmurhash3_32_gc_range item i) as Hh.
    split; [apply rem_integer; trivial; lia|apply Z.mod_pos_bound; lia]. }
  split; [apply (add_check_return this item Hk)|]. split; [exact Hkey|]. split.
  - intros turns this' Hadd.
    apply (add_in_range turns item this this' z Hz ltac:(lia) Hlen Hadd).
  - intros turns a Ha. unfold check. apply check_loop_reads.
    intros c. unfold key_at. destruct (Hkey c) as (j & -> & Hj). by apply Ha.
Qed.

(** C10 (frame of [add]): on a filter whose size is a positive integer
    and the length of its bit array, [add] changes no field but
    [bitArray], whose length stays the size. *)
Theorem add_frame this item turns this' z :
  Number.integer (size this) = Some z -> 0 < z ->
  Array.length (bitArray this) = z ->
  add turns item this = Some (tt, this') ->
  expectedItems this' = expectedItems this /\
  falsePositiveRate this' = falsePositiveRate this /\
  size this' = size this /\
  hashCount this' = hashCount this /\
  Array.length (bitArray this') = z.
Proof.
  intros Hz Hpos Hlen Hadd.
  destruct (add_fields _ _ _ _ Hadd) as (H1 & H2 & H3 & H4).
  repeat (split; [assumption|]).
  rewrite add_spec in Hadd.
  destruct (counters turns 0 (hashCount this)) as [cs|]; [|discriminate].
  injection Hadd as <-. simpl. rewrite writes_length; [exact Hlen|].
  intros k Hk. apply list_elem_of_fmap in Hk as (c & -> & _).
  exists (murmurhash3_32_gc item c mod z).
  pose proof (murmurhash3_32_gc_range item c) as Hh.
  unfold key_at. rewrite (rem_integer _ _ z Hz) by lia.
  split; trivial. rewrite Hlen. apply Z.mod_pos_bound. lia.
Qed.

End Claims.

(** * The properties on a concrete filter

    Each property at [new BloomFilter(10, 0.5)] with the reference engine:
    its hypotheses hold there by evaluation. *)

Section Witnesses.

Lemma sample_valid : valid_arguments 10 0.5.
Proof. vm_compute. auto. Qed.

Lemma sample_engine_ok : engine_ok Sample.Math_log Sample.Number_exponentiate 0.5.
Proof. vm_compute. auto 6. Qed.

Lemma sample_new : Sample.new 10 0.5 = inr Sample.fresh.
Proof. vm_compute. reflexivity. Qed.

Lemma sample_add : add 3 Sample.apple Sample.fresh = Some (tt, Sample.with_apple).
Proof. vm_compute. reflexivity. Qed.

Lemma sample_adds :
  adds 3 (Sample.apple :: Sample.banana :: nil) Sample.fresh = Some (tt, Sample.with_both).
Proof. vm_compute. reflexivity. Qed.

Lemma sample_adds_more :
  adds 5 (Sample.apple :: Sample.banana :: nil) Sample.fresh = Some (tt, Sample.with_both).
Proof. vm_compute. reflexivity. Qed.

Lemma sample_check : check 3 Sample.apple Sample.fresh = Some (false, Sample.fresh).
Proof. vm_compute. reflexivity. Qed.

Lemma sample_size : Number.integer (size Sample.fresh) = Some 15.
Proof. vm_compute. reflexivity. Qed.

Lemma sample_adds_apple :
  adds 3 (Sample.apple :: nil) Sample.fresh = Some (tt, Sample.with_apple).
Proof. vm_compute. reflexivity. Qed.

Lemma sample_adds_banana :
  adds 3 (Sample.banana :: nil) Sample.with_apple = Some (tt, Sample.with_both).
Proof. vm_compute. reflexivity. Qed.

Lemma sample_check_apple :
  check 3 Sample.apple Sample.with_apple = Some (true, Sample.with_apple).
Proof. vm_compute. reflexivity. Qed.

Lemma sample_bit_apple :
  Array.get (bitArray Sample.with_apple)
    (Rem.rem (murmurhash3_32_gc Sample.apple 0) (size Sample.with_apple)) = Some 1.
Proof. vm_compute. reflexivity. Qed.

Lemma no_false_negatives_witness :
  valid_arguments 10 0.5 /\
  engine_ok Sample.Math_log Sample.Number_exponentiate 0.5 /\
  Sample.new 10 0.5 = inr Sample.fresh /\
  adds 3 (Sample.apple :: nil) Sample.fresh = Some (tt, Sample.with_apple) /\
  exists turns this', forall turns', (turns <= turns')%nat ->
    add turns' Sample.banana Sample.with_apple = Some (tt, this') /\
    check turns' Sample.banana this' = Some (true, this').
Proof.
  split; [exact sample_valid|]. split; [exact sample_engine_ok|].
  split; [exact sample_new|]. split; [exact sample_adds_apple|].
  exact (no_false_negatives Sample.Math_log Sample.Number_exponentiate 10 0.5
           Sample.fresh (Sample.apple :: nil) 3 Sample.with_apple Sample.banana
           sample_valid sample_engine_ok sample_new sample_adds_apple).
Defined.

(** C2 as stated fails: [expectedItems = 0] is accepted, and the valid
    arguments [(2^40, 0.01)] are refused, with a [RangeError]. *)
Lemma construction_unvalidated :
  (0 <=? 0)%float = true /\
  Sample.new 0 0.5 =
    inr {| expectedItems := 0; falsePositiveRate := 0.5; size := 0; hashCount := nan;
           bitArray := {| Array.length := 0; Array.props := ∅ |} |} /\
  valid_arguments 0x1p40 0x1.47ae147ae147bp-7 /\
  engine_ok Sample.Math_log Sample.Number_exponentiate 0x1.47ae147ae147bp-7 /\
  Sample.new 0x1p40 0x1.47ae147ae147bp-7 = inl Array.RangeError.
Proof. vm_compute. auto 10. Qed.

(** C2 at valid arguments: [(10, 0.5)] has a size of at least 1 and is
    not refused. *)
Lemma construction_outcome_witness :
  valid_arguments 10 0.5 /\
  engine_ok Sample.Math_log Sample.Number_exponentiate 0.5 /\
  (1 <=? getSize Sample.Math_log Sample.Number_exponentiate 10 0.5)%float = true /\
  (forall z,
     Number.integer (getSize Sample.Math_log Sample.Number_exponentiate 10 0.5) = Some z ->
     1 <= z) /\
  (new Sample.Math_log Sample.Number_exponentiate 10 0.5 = inl Array.RangeError <->
   forall z,
     Number.integer (getSize Sample.Math_log Sample.Number_exponentiate 10 0.5) = Some z ->
     2 ^ 32 - 1 < z).
Proof.
  split; [exact sample_valid|]. split; [exact sample_engine_ok|].
  exact (proj2 (construction_outcome Sample.Math_log Sample.Number_exponentiate 10 0.5)
           sample_valid sample_engine_ok).
Defined.

Lemma bits_monotone_witness :
  adds 3 (Sample.banana :: nil) Sample.with_apple = Some (tt, Sample.with_both) /\
  Array.get (bitArray Sample.with_apple)
    (Rem.rem (murmurhash3_32_gc Sample.apple 0) (size Sample.with_apple)) = Some 1 /\
  check 3 Sample.apple Sample.with_apple = Some (true, Sample.with_apple) /\
  (forall k, Array.get (bitArray Sample.with_apple) k = Some 1 ->
             Array.get (bitArray Sample.with_both) k = Some 1) /\
  (forall item turns',
     check turns' item Sample.with_apple = Some (true, Sample.with_apple) ->
     check turns' item Sample.with_both = Some (true, Sample.with_both)).
Proof.
  split; [exact sample_adds_banana|]. split; [exact sample_bit_apple|].
  split; [exact sample_check_apple|].
  exact (bits_monotone Sample.with_apple (Sample.banana :: nil) 3
           Sample.with_both sample_adds_banana).
Defined.

Lemma add_idempotent_witness :
  add 3 Sample.apple Sample.fresh = Some (tt, Sample.with_apple) /\
  (add 3 Sample.apple ;; add 3 Sample.apple) Sample.fresh = Some (tt, Sample.with_apple).
Proof.
  split; [exact sample_add|].
  exact (add_idempotent Sample.fresh Sample.apple 3 Sample.with_apple sample_add).
Defined.

Lemma fresh_filter_rejects_witness :
  valid_arguments 10 0.5 /\
  engine_ok Sample.Math_log Sample.Number_exponentiate 0.5 /\
  Sample.new 10 0.5 = inr Sample.fresh /\
  (0 < 1)%nat /\
  check 1 Sample.apple Sample.fresh = Some (false, Sample.fresh).
Proof.
  split; [exact sample_valid|]. split; [exact sample_engine_ok|].
  split; [exact sample_new|]. split; [lia|].
  apply (fresh_filter_rejects Sample.Math_log Sample.Number_exponentiate 10 0.5
           Sample.fresh Sample.apple 1 sample_valid sample_engine_ok sample_new).
  lia.
Defined.

Lemma two_run_determinism_witness :
  Sample.new 10 0.5 = inr Sample.fresh /\
  adds 3 (Sample.apple :: Sample.banana :: nil) Sample.fresh = Some (tt, Sample.with_both) /\
  adds 5 (Sample.apple :: Sample.banana :: nil) Sample.fresh = Some (tt, Sample.with_both) /\
  Sample.with_both = Sample.with_both /\
  forall item t1 t2 b1 b2 s1 s2,
    check t1 item Sample.with_both = Some (b1, s1) ->
    check t2 item Sample.with_both = Some (b2, s2) ->
    b1 = b2.
Proof.
  split; [exact sample_new|]. split; [exact sample_adds|]. split; [exact sample_adds_more|].
  exact (two_run_determinism Sample.Math_log Sample.Number_exponentiate 10 0.5
           Sample.fresh Sample.fresh (Sample.apple :: Sample.banana :: nil) 3 5
           Sample.with_both Sample.with_both
           sample_new sample_new sample_adds sample_adds_more).
Defined.

Lemma sizing_formulas_witness :
  valid_arguments 10 0.5 /\
  engine_ok Sample.Math_log Sample.Number_exponentiate 0.5 /\
  Sample.new 10 0.5 = inr Sample.fresh /\
  size Sample.fresh =
    Number.Math_ceil
      (- (10 * Sample.Math_log 0.5) /
         Sample.Number_exponentiate (Sample.Math_log 2) 2)%float /\
  Number.integer (size Sample.fresh) = Some (Array.length (bitArray Sample.fresh)) /\
  hashCount Sample.fresh =
    Number.Math_ceil ((size Sample.fresh / 10) * Sample.Math_log 2)%float /\
  (1 <=? size Sample.fresh)%float = true /\
  1 <= Array.length (bitArray Sample.fresh) /\
  (1 <=? hashCount Sample.fresh)%float = true.
Proof.
  split; [exact sample_valid|]. split; [exact sample_engine_ok|].
  split; [exact sample_new|].
  exact (sizing_formulas Sample.Math_log Sample.Number_exponentiate 10 0.5
           Sample.fresh sample_valid sample_engine_ok sample_new).
Defined.

Lemma check_is_pure_witness :
  check 3 Sample.apple Sample.fresh = Some (false, Sample.fresh) /\
  Sample.fresh = Sample.fresh /\
  bitArray Sample.fresh = bitArray Sample.fresh /\
  size Sample.fresh = size Sample.fresh /\
  hashCount Sample.fresh = hashCount Sample.fresh /\
  expectedItems Sample.fresh = expectedItems Sample.fresh /\
  falsePositiveRate Sample.fresh = falsePositiveRate Sample.fresh.
Proof.
  split; [exact sample_check|].
  exact (check_is_pure Sample.fresh Sample.apple 3 false Sample.fresh sample_check).
Defined.

Lemma add_check_total_witness :
  valid_arguments 10 0.5 /\
  engine_ok Sample.Math_log Sample.Number_exponentiate 0.5 /\
  Sample.new 10 0.5 = inr Sample.fresh /\
  adds 3 (Sample.apple :: nil) Sample.fresh = Some (tt, Sample.with_apple) /\
  exists z, Number.integer (size Sample.with_apple) = Some z /\ 1 <= z /\
    Array.length (bitArray Sample.with_apple) = z /\
    forall item,
      (exists turns this' b, forall turns', (turns <= turns')%nat ->
         add turns' item Sample.with_apple = Some (tt, this') /\
         check turns' item Sample.with_apple = Some (b, Sample.with_apple)) /\
      (forall i, exists j,
         Rem.rem (murmurhash3_32_gc item i) (size Sample.with_apple) = KInt j /\
         0 <= j < z) /\
      (forall turns this', add turns item Sample.with_apple = Some (tt, this') ->
         Array.length (bitArray this') = z /\
         forall k, (forall i, 0 <= i < z -> k <> KInt i) ->
           Array.get (bitArray this') k = Array.get (bitArray Sample.with_apple) k) /\
      (forall turns a,
         (forall i, 0 <= i < z ->
            Array.get a (KInt i) = Array.get (bitArray Sample.with_apple) (KInt i)) ->
         option_map fst (check turns item (set_bitArray Sample.with_apple a)) =
         option_map fst (check turns item Sample.with_apple)).
Proof.
  split; [exact sample_valid|]. split; [exact sample_engine_ok|].
  split; [exact sample_new|]. split; [exact sample_adds_apple|].
  exact (add_check_total Sample.Math_log Sample.Number_exponentiate 10 0.5
           Sample.fresh (Sample.apple :: nil) 3 Sample.with_apple
           sample_valid sample_engine_ok sample_new sample_adds_apple).
Defined.

Lemma add_frame_witness :
  Number.integer (size Sample.fresh) = Some 15 /\
  0 < 15 /\
  Array.length (bitArray Sample.fresh) = 15 /\
  add 3 Sample.apple Sample.fresh = Some (tt, Sample.with_apple) /\
  expectedItems Sample.with_apple = expectedItems Sample.fresh /\
  falsePositiveRate Sample.with_apple = falsePositiveRate Sample.fresh /\
  size Sample.with_apple = size Sample.fresh /\
  hashCount Sample.with_apple = hashCount Sample.fresh /\
  Array.length (bitArray Sample.with_apple) = 15.
Proof.
  split; [exact sample_size|]. split; [lia|]. split; [reflexivity|].
  split; [exact sample_add|].
  apply (add_frame Sample.fresh Sample.apple 3 Sample.with_apple 15 sample_size);
    [lia|reflexivity|exact sample_add].
Defined.

End Witnesses.

(** ** The size against the exact formula *)

Section ExactSize.

Import Reals.

Lemma sample_big_valid : valid_arguments 111975815 0.5.
Proof. vm_compute. auto. Qed.

Lemma sample_big_size :
  Number.integer (getSize Sample.Math_log Sample.Number_exponentiate 111975815 0.5)
  = Some 161546953.
Proof. vm_compute. reflexivity. Qed.

(** C7 as stated fails: for the valid arguments [(111975815, 0.5)] the
    constructor returns a filter of [161546953] bits, while the exact
    value of [-(n ln p) / (ln 2)^2], about [161546953.000000002], lies
    above that integer and has the ceiling [161546954]. *)
Lemma sizing_not_exact :
  valid_arguments 111975815 0.5 /\
  engine_ok Sample.Math_log Sample.Number_exponentiate 0.5 /\
  Number.integer 111975815%float = Some 111975815%Z /\
  (exists this,
     Sample.new 111975815 0.5 = inr this /\
     Number.integer (size this) = Some 161546953%Z /\
     Array.length (bitArray this) = 161546953%Z) /\
  (IZR 161546953 < - (IZR 111975815 * ln (/ 2)) / ln 2 ^ 2)%R.
Proof.
  split; [exact sample_big_valid|]. split; [exact sample_engine_ok|].
  split; [vm_compute; reflexivity|]. split; [|exact exact_size_above].
  eexists. split; [|split].
  - apply (new_returns _ _ _ _ _ sample_big_size). lia.
  - exact sample_big_size.
  - reflexivity.
Qed.

End ExactSize.

(** * Further properties of the code *)

Section Further.

Variable Math_log : number -> number.
Variable Number_exponentiate : number -> number -> number.

Implicit Types (this : BloomFilter) (item x y : JS.jsstring).

(** X1 (no false negatives, ever): after a sequence of [add] calls that
    returns, [check] answers [true] for every item of the sequence,
    whatever was added after it. *)
Theorem added_items_found this items turns this' x :
  adds turns items this = Some (tt, this') -> x ∈ items ->
  check turns x this' = Some (true, this').
Proof.
  revert this. induction items as [|item items IH]; intros this H Hx.
  { by apply elem_of_nil in Hx. }
  simpl in H. unfold bind in H.
  destruct (add turns item this) as [[[] this1]|] eqn:Hadd; [|discriminate].
  apply elem_of_cons in Hx as [->|Hx].
  - apply (check_true_adds _ _ _ _ _ _ H). apply (add_then_check _ _ _ _ Hadd).
  - apply (IH this1 H Hx).
Qed.

(** X2 (which items, not in which order): the state after a sequence of
    [add] calls depends only on which items were added: another sequence
    with the same items, in any order and with any repetitions, returns
    as well and leaves the filter in the same state. *)
Theorem adds_same_items this items items' turns this' :
  (forall x, x ∈ items <-> x ∈ items') ->
  adds turns items this = Some (tt, this') ->
  adds turns items' this = Some (tt, this').
Proof.
  intros HS H. destruct (decide (items = [])) as [->|Hne].
  { destruct items' as [|x items']; [exact H|].
    assert (Hx : x ∈ @nil JS.jsstring) by (apply HS; by left).
    by apply elem_of_nil in Hx. }
  destruct (adds_counters _ _ _ _ H Hne) as [cs Hcs].
  rewrite (adds_keys _ _ _ cs Hcs) in H. rewrite (adds_keys _ items' _ cs Hcs).
  rewrite <- H. do 3 f_equal.
  apply writes_ext. intros k. rewrite !list_elem_of_bind.
  split; intros (item & Hk & Hitem); exists item; (split; [exact Hk|by apply HS]).
Qed.

(** X3 (what [add] writes): after a sequence of [add] calls the property
    [hash % size] holds [1] for every item of the sequence and every
    counter [0 <= c < hashCount], and every other property of the bit
    array is as it was. *)
Theorem bits_after_adds this items turns this' :
  adds turns items this = Some (tt, this') ->
  (forall item c, item ∈ items -> 0 <= c -> Number.Zlt c (hashCount this) = true ->
     Array.get (bitArray this') (Rem.rem (murmurhash3_32_gc item c) (size this)) = Some 1) /\
  (forall k,
     (forall item c, item ∈ items -> 0 <= c -> Number.Zlt c (hashCount this) = true ->
        k <> Rem.rem (murmurhash3_32_gc item c) (size this)) ->
     Array.get (bitArray this') k = Array.get (bitArray this) k).
Proof.
  intros H. destruct (decide (items = [])) as [->|Hne].
  { simpl in H. injection H as <-. split; [|trivial]. by intros item c ?%elem_of_nil. }
  destruct (adds_counters _ _ _ _ H Hne) as [cs Hcs].
  rewrite (adds_keys _ _ _ cs Hcs) in H. injection H as <-.
  unfold set_bitArray, bitArray. split.
  - intros item c Hitem Hc Hk.
    apply writes_done. apply list_elem_of_bind. exists item. split; [|exact Hitem].
    apply list_elem_of_fmap. exists c. split; [reflexivity|].
    by apply (counters_elem _ _ _ _ Hcs).
  - intros k Hk. apply writes_get_other.
    intros Hin. apply list_elem_of_bind in Hin as (item & Hin & Hitem).
    apply list_elem_of_fmap in Hin as (c & -> & Hc).
    apply (counters_elem _ _ _ _ Hcs) in Hc as [Hc Hlt].
    by apply (Hk item c).
Qed.

(** X4 (what [check] answers): on a filter constructed with valid arguments
    and filled by a sequence of [add] calls, [check(x)] answers [true]
    exactly when every position [hash(x, c) mod size] of [x] is a position
    [hash(item, c') mod size] of some added item. *)
Theorem check_after_adds n p this items turns this' x turns' b :
  valid_arguments n p -> engine_ok Math_log Number_exponentiate p ->
  new Math_log Number_exponentiate n p = inr this ->
  adds turns items this = Some (tt, this') ->
  check turns' x this' = Some (b, this') ->
  exists z, Number.integer (size this) = Some z /\
    (b = true <->
     forall c, 0 <= c -> Number.Zlt c (hashCount this) = true ->
       exists item c', item ∈ items /\ 0 <= c' /\ Number.Zlt c' (hashCount this) = true /\
         murmurhash3_32_gc x c mod z = murmurhash3_32_gc item c' mod z).
Proof.
  intros Hv He Hnew Hadds Hcheck.
  destruct (new_valid _ _ n p this Hv He Hnew) as (z & Hz1 & Hz & Ha & _ & _ & Hk).
  exists z. split; [exact Hz|].
  destruct (counters_total _ Hk) as (t0 & cs & Hcs).
  assert (Hthis' : this' = set_bitArray this
            (writes (items ≫= fun item => key_at item (size this) <$> cs) (bitArray this))).
  { apply (adds_more _ (max turns t0)) in Hadds; [|lia].
    rewrite (adds_keys _ _ _ cs (Hcs (max turns t0) ltac:(lia))) in Hadds. congruence. }
  set (ks := items ≫= fun item => key_at item (size this) <$> cs) in *.
  assert (Hkey : forall item c, key_at item (size this) c = KInt (murmurhash3_32_gc item c mod z)).
  { intros item c. pose proof (murmurhash3_32_gc_range item c) as Hh.
    apply rem_integer; trivial; lia. }
  assert (Hin : forall j, KInt j ∈ ks <->
            exists item c', item ∈ items /\ 0 <= c' /\ Number.Zlt c' (hashCount this) = true /\
              j = murmurhash3_32_gc item c' mod z).
  { intros j. unfold ks. rewrite list_elem_of_bind. split.
    - intros (item & Hj & Hitem). apply list_elem_of_fmap in Hj as (c' & Hj & Hc').
      rewrite Hkey in Hj. injection Hj as ->.
      apply (counters_elem _ _ _ _ (Hcs t0 (le_n _))) in Hc' as [? ?].
      by exists item, c'.
    - intros (item & c' & Hitem & Hc' & Hlt & ->). exists item. split; [|exact Hitem].
      apply list_elem_of_fmap. exists c'. split; [by rewrite Hkey|].
      by apply (counters_elem _ _ _ _ (Hcs t0 (le_n _))). }
  assert (Hbit : forall c, is_zero (Array.get (bitArray this') (key_at x (size this) c)) = false <->
            KInt (murmurhash3_32_gc x c mod z) ∈ ks).
  { intros c. rewrite Hthis'. simpl. rewrite Hkey.
    destruct (decide (KInt (murmurhash3_32_gc x c mod z) ∈ ks)) as [Hd|Hd].
    - destruct (writes_done ks (bitArray this) _ Hd) as [-> _]. simpl. tauto.
    - rewrite writes_get_other by trivial. rewrite Ha, fill_get.
      + simpl. split; [discriminate|contradiction].
      + simpl. pose proof (murmurhash3_32_gc_range x c). apply Z.mod_pos_bound. lia. }
  assert (Hsize : size this' = size this) by (rewrite Hthis'; reflexivity).
  assert (Hcount : hashCount this' = hashCount this) by (rewrite Hthis'; reflexivity).
  split.
  - intros ->. apply check_loop_true in Hcheck as (cs' & Hcs' & Hall).
    rewrite Hcount in Hcs'. intros c Hc Hlt.
    apply Hin, Hbit. rewrite <- Hsize. apply Hall.
    by apply (counters_elem _ _ _ _ Hcs').
  - intros Hall.
    assert (Htrue : check (max turns' t0) x this' = Some (true, this')).
    { apply check_loop_true. exists cs. rewrite Hcount, Hsize.
      split; [apply Hcs; lia|]. intros c Hc.
      apply (counters_elem _ _ _ _ (Hcs t0 (le_n _))) in Hc as [Hc Hlt].
      apply Hbit, Hin, Hall; trivial. }
    apply (check_loop_more _ (max turns' t0)) in Hcheck; [|lia].
    unfold check in Htrue. congruence.
Qed.

(** X5 (a hash count above [2 ^ 53]): when [hashCount] exceeds [2 ^ 53]
    (as it does for a tiny fractional [expectedItems], or when it is
    [Infinity]) the counter stops advancing at [2 ^ 53]: [add] never
    returns and [check] never answers [true]. *)
Theorem unbounded_hashCount_runs_on this item turns :
  Number.Zlt (2 ^ 53) (hashCount this) = true ->
  add turns item this = None /\
  check turns item this <> Some (true, this).
Proof.
  intros Hk. split.
  - rewrite add_spec, (counters_run_on _ Hk); trivial. lia.
  - intros H. apply check_loop_true in H as (cs & Hcs & _).
    rewrite (counters_run_on _ Hk) in Hcs; [discriminate|lia].
Qed.

(** X6 (representation): a filter constructed with valid arguments keeps,
    through every sequence of [add] calls, a bit array of exactly [size]
    entries, each of them [0] or [1], and no other property. *)
Theorem filter_invariant n p this items turns this' :
  valid_arguments n p -> engine_ok Math_log Number_exponentiate p ->
  new Math_log Number_exponentiate n p = inr this ->
  adds turns items this = Some (tt, this') ->
  exists z, 1 <= z <= 2 ^ 32 - 1 /\
    Number.integer (size this') = Some z /\
    Array.length (bitArray this') = z /\
    (forall i, 0 <= i < z ->
       Array.get (bitArray this') (KInt i) = Some 0 \/
       Array.get (bitArray this') (KInt i) = Some 1) /\
    (forall k, (forall i, 0 <= i < z -> k <> KInt i) ->
       Array.get (bitArray this') k = None).
Proof.
  intros Hv He Hnew Hadds.
  destruct (new_valid _ _ n p this Hv He Hnew) as (z & Hz1 & Hz & Ha & _ & _ & Hk).
  exists z. split; [exact Hz1|].
  destruct (counters_total _ Hk) as (t0 & cs & Hcs).
  assert (Hthis' : this' = set_bitArray this
            (writes (items ≫= fun item => key_at item (size this) <$> cs) (bitArray this))).
  { apply (adds_more _ (max turns t0)) in Hadds; [|lia].
    rewrite (adds_keys _ _ _ cs (Hcs (max turns t0) ltac:(lia))) in Hadds. congruence. }
  set (ks := items ≫= fun item => key_at item (size this) <$> cs) in *.
  rewrite Hthis'. simpl.
  assert (Hks : forall k, k ∈ ks -> exists j, k = KInt j /\ 0 <= j < z).
  { intros k Hin. apply list_elem_of_bind in Hin as (item & Hin & _).
    apply list_elem_of_fmap in Hin as (c & -> & _).
    pose proof (murmurhash3_32_gc_range item c) as Hh.
    exists (murmurhash3_32_gc item c mod z). split.
    - apply rem_integer; trivial; lia.
    - apply Z.mod_pos_bound. lia. }
  rewrite Ha. split; [exact Hz|]. split; [|split].
  - rewrite writes_length; [reflexivity|]. intros k Hin. simpl. by apply Hks.
  - intros i Hi.
    destruct (writes_get ks (Array.fill {| Array.length := z; Array.props := ∅ |} 0) (KInt i))
      as [-> | ->]; [left|by right].
    apply fill_get. simpl. lia.
  - intros k Hout. rewrite writes_get_other.
    + rewrite fill_get_outside; [reflexivity|]. simpl. exact Hout.
    + intros Hin. apply Hks in Hin as (j & -> & Hj). by apply (Hout j).
Qed.

(** X7 (a filter without bits): when the computed size is zero (as for
    [expectedItems = 0], or a rate of [1]) the constructor returns a filter
    whose loops never run: [check] answers [true] for every item and
    [add] changes nothing. *)
Theorem empty_filter_accepts n p this item turns :
  new Math_log Number_exponentiate n p = inr this ->
  Number.integer (size this) = Some 0 ->
  (0 < turns)%nat ->
  check turns item this = Some (true, this) /\ add turns item this = Some (tt, this).
Proof.
  intros Hnew Hz Hturns. apply new_inr in Hnew as (z & _ & _ & ->). simpl in Hz.
  pose proof (getHashCount_zero Math_log _ n Hz) as Hk.
  destruct turns as [|t]; [lia|].
  unfold check, add. simpl. unfold bind, read, ret. simpl. by rewrite Hk.
Qed.

(** X8 (the hash): [murmurhash3_32_gc] computes MurmurHash3 (x86, 32
    bits) of the low bytes of the code units of the key, from the seed
    taken modulo [2 ^ 32]: the 16-bit split products and the signed
    intermediate values of the JavaScript code lose nothing. *)
Theorem murmurhash3_32_gc_is_MurmurHash3 key seed :
  murmurhash3_32_gc key seed =
  MurmurHash3.hash32 (map (fun c => c mod 2 ^ 8) key) (seed mod 2 ^ 32).
Proof.
  rewrite murmurhash3_32_gc_body. unfold MurmurHash3.hash32.
  by rewrite length_map.
Qed.

(** X9 (high bytes): the hash reads only the low byte of every code unit,
    so two strings of the same length whose code units agree modulo 256
    get the same hashes, and after [add] of one of them [check] answers
    [true] for the other. *)
Theorem low_bytes_collide this x y turns this' :
  map (fun c => c mod 2 ^ 8) x = map (fun c => c mod 2 ^ 8) y ->
  add turns x this = Some (tt, this') ->
  (forall seed, murmurhash3_32_gc x seed = murmurhash3_32_gc y seed) /\
  check turns y this' = Some (true, this').
Proof.
  intros H Hadd.
  assert (Hh : forall seed, murmurhash3_32_gc x seed = murmurhash3_32_gc y seed)
    by (intros seed; by apply murmurhash3_32_gc_low_bytes).
  split; [exact Hh|]. unfold check.
  rewrite <- (check_loop_hashes turns x y this' 0 Hh).
  apply (add_then_check _ _ _ _ Hadd).
Qed.

End Further.

(** ** The prefix tree *)

Section TrieTheorems.

Import Trie.

(** X10 (search): on a trie built from the empty one, [search] answers
    [true] exactly for the words that were inserted. *)
Theorem trie_search_exact words x :
  search x (inserts words Trie.new) = true <-> x ∈ words.
Proof.
  rewrite search_inserts, search_new, orb_false_r. apply bool_decide_eq_true.
Qed.

(** X11 (startsWith): on a trie built from the empty one, [startsWith]
    answers [true] exactly for the empty string and for the strings whose
    characters (code points) begin an inserted word. *)
Theorem trie_startsWith_exact words p :
  startsWith p (inserts words Trie.new) = true <->
  p = [] \/ exists w, w ∈ words /\ chars p `prefix_of` chars w.
Proof.
  induction words as [|w words IH] using rev_ind.
  - simpl. rewrite startsWith_new, bool_decide_eq_true. split; [auto|].
    intros [H|(w & Hw & _)]; trivial. by apply elem_of_nil in Hw.
  - rewrite inserts_snoc, startsWith_insert, orb_true_iff, bool_decide_eq_true, IH.
    split.
    + intros [H|[H|(w' & Hw' & H)]]; auto.
      * right. exists w. split; trivial. apply elem_of_app. right. by left.
      * right. exists w'. split; trivial. apply elem_of_app. by left.
    + intros [H|(w' & Hw' & H)]; auto.
      apply elem_of_app in Hw' as [Hw'|Hw'].
      * right. right. by exists w'.
      * apply list_elem_of_singleton in Hw' as ->. by left.
Qed.

(** X12 (getWordsWithPrefix): on a trie built from the empty one,
    [getWordsWithPrefix] lists exactly the inserted words whose characters
    begin with those of the prefix, each of them once however often it was
    inserted. *)
Theorem trie_words_exact words p :
  NoDup (getWordsWithPrefix p (inserts words Trie.new)) /\
  forall x, x ∈ getWordsWithPrefix p (inserts words Trie.new) <->
            x ∈ words /\ chars p `prefix_of` chars x.
Proof.
  induction words as [|w words [IH1 IH2]] using rev_ind.
  - simpl. rewrite getWordsWithPrefix_new. split; [constructor|].
    intros x. split; [by intros H%elem_of_nil|]. by intros [H%elem_of_nil _].
  - rewrite inserts_snoc.
    pose proof (getWordsWithPrefix_insert p w (inserts words Trie.new)) as HP.
    rewrite search_inserts, search_new, orb_false_r in HP.
    assert (Hsnoc : forall x, x ∈ words ++ [w] <-> x ∈ words \/ x = w).
    { intros x. rewrite elem_of_app, list_elem_of_singleton. tauto. }
    destruct (decide (chars p `prefix_of` chars w)) as [Hp|Hp];
      [rewrite (bool_decide_eq_true_2 _ Hp) in HP
      |rewrite (bool_decide_eq_false_2 _ Hp) in HP];
      simpl in HP.
    + destruct (decide (w ∈ words)) as [Hw|Hw];
        [rewrite (bool_decide_eq_true_2 _ Hw) in HP
        |rewrite (bool_decide_eq_false_2 _ Hw) in HP];
        simpl in HP.
      * split; [by rewrite HP|]. intros x. rewrite HP, IH2, Hsnoc.
        split; [tauto|]. intros [[H| ->] H']; auto.
      * split.
        -- rewrite HP. apply NoDup_cons. split; [rewrite IH2; tauto|trivial].
        -- intros x. rewrite HP, elem_of_cons, IH2, Hsnoc.
           split; [intros [->|[H H']]; auto|intros [[H|H] H']; auto].
    + split; [by rewrite HP|]. intros x. rewrite HP, IH2, Hsnoc.
      split; [tauto|]. intros [[H| ->] H']; [auto|contradiction].
Qed.

(** X13 (idempotence): inserting a word a second time changes nothing. *)
Theorem trie_insert_idempotent w (this : Trie.t) :
  insert w (insert w this) = insert w this.
Proof.
  unfold insert. simpl. f_equal.
  generalize (root this). induction (chars w) as [|c cs IH]; intros n; simpl; trivial.
  rewrite Object_get_set_eq, IH. f_equal. apply Object_set_set.
Qed.

(** X14 (code points): the trie is keyed by code points, not by code
    units: inserting a word that begins with a surrogate pair does not
    make the first code unit of the pair a prefix. *)
Theorem trie_code_point_prefix hi lo rest (this : Trie.t) :
  lead hi = true -> trail lo = true ->
  startsWith [hi] (insert (hi :: lo :: rest) this) = startsWith [hi] this.
Proof.
  intros Hhi Hlo. rewrite startsWith_insert.
  rewrite bool_decide_eq_false_2; trivial.
  change (chars (hi :: lo :: rest)) with
    (if lead hi && trail lo then [hi; lo] :: chars rest else [hi] :: chars (lo :: rest)).
  rewrite Hhi, Hlo. simpl. intros [k Hk]. discriminate.
Qed.

(** X15 (the exact match first): when the prefix is itself a stored
    word, it is the first word that [getWordsWithPrefix] lists. *)
Theorem trie_exact_match_first p (this : Trie.t) :
  search p this = true -> exists rest, getWordsWithPrefix p this = p :: rest.
Proof.
  unfold search, getWordsWithPrefix.
  destruct (walk (chars p) (root this)) as [node|]; [|discriminate].
  intros H. rewrite dfs_eq, H. simpl. eauto.
Qed.

End TrieTheorems.

(** ** The further properties on concrete inputs *)

Section FurtherWitnesses.

Lemma sample_check_both :
  check 3 Sample.apple Sample.with_both = Some (true, Sample.with_both).
Proof. vm_compute. reflexivity. Qed.

Lemma sample_fractional : Sample.new 0x1p-600 0.5 = inr Sample.fractional.
Proof. vm_compute. reflexivity. Qed.

Lemma sample_fractional_count :
  Number.Zlt (2 ^ 53) (hashCount Sample.fractional) = true.
Proof. vm_compute. reflexivity. Qed.

Lemma sample_empty : Sample.new 0 0.5 = inr Sample.empty.
Proof. vm_compute. reflexivity. Qed.

Lemma sample_empty_size : Number.integer (size Sample.empty) = Some 0.
Proof. vm_compute. reflexivity. Qed.

Lemma sample_low_bytes :
  map (fun c => c mod 2 ^ 8) Sample.apple = map (fun c => c mod 2 ^ 8) Sample.apple_high.
Proof. vm_compute. reflexivity. Qed.

Lemma added_items_found_witness :
  adds 3 (Sample.apple :: Sample.banana :: nil) Sample.fresh = Some (tt, Sample.with_both) /\
  Sample.apple ∈ Sample.apple :: Sample.banana :: nil /\
  check 3 Sample.apple Sample.with_both = Some (true, Sample.with_both).
Proof.
  split; [exact sample_adds|]. split; [by left|].
  apply (added_items_found Sample.fresh (Sample.apple :: Sample.banana :: nil) 3
           Sample.with_both Sample.apple sample_adds).
  by left.
Defined.

Lemma sample_same_items :
  forall x, x ∈ Sample.apple :: Sample.banana :: nil <->
            x ∈ Sample.banana :: Sample.apple :: Sample.banana :: nil.
Proof. intros x. rewrite !elem_of_cons, elem_of_nil. tauto. Qed.

Lemma adds_same_items_witness :
  (forall x, x ∈ Sample.apple :: Sample.banana :: nil <->
             x ∈ Sample.banana :: Sample.apple :: Sample.banana :: nil) /\
  adds 3 (Sample.apple :: Sample.banana :: nil) Sample.fresh = Some (tt, Sample.with_both) /\
  adds 3 (Sample.banana :: Sample.apple :: Sample.banana :: nil) Sample.fresh
  = Some (tt, Sample.with_both).
Proof.
  split; [exact sample_same_items|]. split; [exact sample_adds|].
  exact (adds_same_items Sample.fresh (Sample.apple :: Sample.banana :: nil)
           (Sample.banana :: Sample.apple :: Sample.banana :: nil) 3 Sample.with_both
           sample_same_items sample_adds).
Defined.

Lemma bits_after_adds_witness :
  adds 3 (Sample.apple :: Sample.banana :: nil) Sample.fresh = Some (tt, Sample.with_both) /\
  (forall item c, item ∈ Sample.apple :: Sample.banana :: nil -> 0 <= c ->
     Number.Zlt c (hashCount Sample.fresh) = true ->
     Array.get (bitArray Sample.with_both)
       (Rem.rem (murmurhash3_32_gc item c) (size Sample.fresh)) = Some 1) /\
  (forall k,
     (forall item c, item ∈ Sample.apple :: Sample.banana :: nil -> 0 <= c ->
        Number.Zlt c (hashCount Sample.fresh) = true ->
        k <> Rem.rem (murmurhash3_32_gc item c) (size Sample.fresh)) ->
     Array.get (bitArray Sample.with_both) k = Array.get (bitArray Sample.fresh) k).
Proof.
  split; [exact sample_adds|].
  exact (bits_after_adds Sample.fresh (Sample.apple :: Sample.banana :: nil) 3
           Sample.with_both sample_adds).
Defined.

Lemma check_after_adds_witness :
  valid_arguments 10 0.5 /\
  engine_ok Sample.Math_log Sample.Number_exponentiate 0.5 /\
  Sample.new 10 0.5 = inr Sample.fresh /\
  adds 3 (Sample.apple :: Sample.banana :: nil) Sample.fresh = Some (tt, Sample.with_both) /\
  check 3 Sample.apple Sample.with_both = Some (true, Sample.with_both) /\
  exists z, Number.integer (size Sample.fresh) = Some z /\
    (true = true <->
     forall c, 0 <= c -> Number.Zlt c (hashCount Sample.fresh) = true ->
       exists item c', item ∈ Sample.apple :: Sample.banana :: nil /\ 0 <= c' /\
         Number.Zlt c' (hashCount Sample.fresh) = true /\
         murmurhash3_32_gc Sample.apple c mod z = murmurhash3_32_gc item c' mod z).
Proof.
  split; [exact sample_valid|]. split; [exact sample_engine_ok|].
  split; [exact sample_new|]. split; [exact sample_adds|].
  split; [exact sample_check_both|].
  exact (check_after_adds Sample.Math_log Sample.Number_exponentiate 10 0.5
           Sample.fresh (Sample.apple :: Sample.banana :: nil) 3 Sample.with_both
           Sample.apple 3 true
           sample_valid sample_engine_ok sample_new sample_adds sample_check_both).
Defined.

Lemma unbounded_hashCount_runs_on_witness :
  Sample.new 0x1p-600 0.5 = inr Sample.fractional /\
  Number.Zlt (2 ^ 53) (hashCount Sample.fractional) = true /\
  add 5 Sample.apple Sample.fractional = None /\
  check 5 Sample.apple Sample.fractional <> Some (true, Sample.fractional).
Proof.
  split; [exact sample_fractional|]. split; [exact sample_fractional_count|].
  exact (unbounded_hashCount_runs_on Sample.fractional Sample.apple 5
           sample_fractional_count).
Defined.

Lemma filter_invariant_witness :
  valid_arguments 10 0.5 /\
  engine_ok Sample.Math_log Sample.Number_exponentiate 0.5 /\
  Sample.new 10 0.5 = inr Sample.fresh /\
  adds 3 (Sample.apple :: Sample.banana :: nil) Sample.fresh = Some (tt, Sample.with_both) /\
  exists z, 1 <= z <= 2 ^ 32 - 1 /\
    Number.integer (size Sample.with_both) = Some z /\
    Array.length (bitArray Sample.with_both) = z /\
    (forall i, 0 <= i < z ->
       Array.get (bitArray Sample.with_both) (KInt i) = Some 0 \/
       Array.get (bitArray Sample.with_both) (KInt i) = Some 1) /\
    (forall k, (forall i, 0 <= i < z -> k <> KInt i) ->
       Array.get (bitArray Sample.with_both) k = None).
Proof.
  split; [exact sample_valid|]. split; [exact sample_engine_ok|].
  split; [exact sample_new|]. split; [exact sample_adds|].
  exact (filter_invariant Sample.Math_log Sample.Number_exponentiate 10 0.5
           Sample.fresh (Sample.apple :: Sample.banana :: nil) 3 Sample.with_both
           sample_valid sample_engine_ok sample_new sample_adds).
Defined.

Lemma empty_filter_accepts_witness :
  Sample.new 0 0.5 = inr Sample.empty /\
  Number.integer (size Sample.empty) = Some 0 /\
  (0 < 1)%nat /\
  check 1 Sample.apple Sample.empty = Some (true, Sample.empty) /\
  add 1 Sample.apple Sample.empty = Some (tt, Sample.empty).
Proof.
  split; [exact sample_empty|]. split; [exact sample_empty_size|]. split; [lia|].
  apply (empty_filter_accepts Sample.Math_log Sample.Number_exponentiate 0 0.5
           Sample.empty Sample.apple 1 sample_empty sample_empty_size).
  lia.
Defined.

Lemma low_bytes_collide_witness :
  map (fun c => c mod 2 ^ 8) Sample.apple = map (fun c => c mod 2 ^ 8) Sample.apple_high /\
  add 3 Sample.apple Sample.fresh = Some (tt, Sample.with_apple) /\
  (forall seed,
     murmurhash3_32_gc Sample.apple seed = murmurhash3_32_gc Sample.apple_high seed) /\
  check 3 Sample.apple_high Sample.with_apple = Some (true, Sample.with_apple).
Proof.
  split; [exact sample_low_bytes|]. split; [exact sample_add|].
  exact (low_bytes_collide Sample.fresh Sample.apple Sample.apple_high 3
           Sample.with_apple sample_low_bytes sample_add).
Defined.

Lemma trie_code_point_prefix_witness :
  Trie.lead 0xD83D = true /\ Trie.trail 0xDE00 = true /\
  Trie.startsWith [0xD83D] (Trie.insert [0xD83D; 0xDE00] Trie.new) =
  Trie.startsWith [0xD83D] Trie.new.
Proof.
  split; [reflexivity|]. split; [reflexivity|].
  apply (trie_code_point_prefix 0xD83D 0xDE00 [] Trie.new); reflexivity.
Defined.

Lemma sample_trie_search :
  Trie.search (JS.of_string "Al")
    (Trie.inserts (map JS.of_string ("Alice" :: "Al" :: nil)%string) Trie.new) = true.
Proof. vm_compute. reflexivity. Qed.

Lemma trie_exact_match_first_witness :
  Trie.search (JS.of_string "Al")
    (Trie.inserts (map JS.of_string ("Alice" :: "Al" :: nil)%string) Trie.new) = true /\
  exists rest,
    Trie.getWordsWithPrefix (JS.of_string "Al")
      (Trie.inserts (map JS.of_string ("Alice" :: "Al" :: nil)%string) Trie.new)
    = JS.of_string "Al" :: rest.
Proof.
  split; [exact sample_trie_search|].
  exact (trie_exact_match_first (JS.of_string "Al")
           (Trie.inserts (map JS.of_string ("Alice" :: "Al" :: nil)%string) Trie.new)
           sample_trie_search).
Defined.

End FurtherWitnesses.
